(** * Doodle reveal engine: stroke ordering and timed reveal

    A shallow embedding of the glyph pipeline of the doodle video
    generators (word merge, path sequencing, section assignment, segment
    timing and the per-frame reveal mask), with the properties the
    design document states about them.

    Conventions.
    - Python ints are [Z]; Python floats are exact rationals [Q] (the
      engine only adds, multiplies, divides and compares them, so the
      rationals are the idealised arithmetic of the code).
    - A glyph dict is the record [glyph]; a contour dict is [contour].
    - A dict keyed by ints is a [gmap Z _].
    - Operations of Python that can raise (division, indexing, dict
      subscript) return a [result]; the calls into OpenCV that paint a
      mask are recorded as a list of [paint] operations, and a rasteriser
      turns them into pixels. *)

From Stdlib Require Import ZArith QArith Qabs Qround Lia Lqa Sorted.
From stdpp Require Import base option list strings gmap pretty.

Local Open Scope Z_scope.

(** ** Python primitives *)

(** The exceptions the engine can meet; [OutOfFuel] is not a Python
    exception: it marks a loop of the model that ran past its bound. *)
Inductive pyerr : Type :=
  ZeroDivisionError | IndexError | KeyError | OutOfFuel.

Inductive result (A : Type) : Type :=
| Ok (a : A)
| Raise (e : pyerr).
Arguments Ok {A} a.
Arguments Raise {A} e.

Definition rbind {A B : Type} (m : result A) (k : A -> result B) : result B :=
  match m with
  | Ok a => k a
  | Raise e => Raise e
  end.

Notation "'let*' x ':=' m 'in' k" := (rbind m (fun x => k))
  (at level 10, x name, m at level 100, k at level 200).

(** [a < b] on floats. *)
Definition Qltb (a b : Q) : bool := negb (Qle_bool b a).

(** [a / b], raising on a zero divisor. *)
Definition py_div (a b : Q) : result Q :=
  if Qeq_bool b 0 then Raise ZeroDivisionError else Ok (a / b)%Q.

(** [int(q)]: truncation toward zero. *)
Definition py_int (q : Q) : Z := Z.quot (Qnum q) (Zpos (Qden q)).

(** [max(a, b)]: the first argument unless the second is greater. *)
Definition py_max (a b : Q) : Q := if Qltb a b then b else a.

(** [l.pop(i)] with Python's negative indices. *)
Definition py_pop {A : Type} (l : list A) (i : Z) : result (A * list A) :=
  let n := Z.of_nat (length l) in
  let j := if i <? 0 then i + n else i in
  if (j <? 0) || (n <=? j) then Raise IndexError
  else match l !! Z.to_nat j with
       | Some a => Ok (a, take (Z.to_nat j) l ++ drop (S (Z.to_nat j)) l)
       | None => Raise IndexError
       end.

(** [sorted(l, key=...)]: a stable sort; [lt a b] compares the keys. *)
Section Sorting.
Context {A : Type} (lt : A -> A -> bool).

Fixpoint insert_sorted (a : A) (l : list A) : list A :=
    match l with
    | [] => [a]
    | b :: l' => if lt a b then a :: b :: l' else b :: insert_sorted a l'
    end.

Definition sorted (l : list A) : list A :=
    fold_left (fun acc a => insert_sorted a acc) l [].
End Sorting.

(** [sum(...)]: starts at 0 and adds from the left. *)
Definition py_sum_Z {A : Type} (f : A -> Z) (l : list A) : Z :=
  fold_left (fun acc a => acc + f a) l 0.

Definition py_sum_Q {A : Type} (f : A -> Q) (l : list A) : Q :=
  fold_left (fun acc a => (acc + f a)%Q) l 0%Q.

(** [l[i]] for a non-negative index. *)
Definition py_index {A : Type} (l : list A) (i : nat) : result A :=
  match l !! i with
  | Some a => Ok a
  | None => Raise IndexError
  end.

Fixpoint result_mapM {A B : Type} (f : A -> result B) (l : list A)
  : result (list B) :=
  match l with
  | [] => Ok []
  | a :: l' => let* b := f a in let* bs := result_mapM f l' in Ok (b :: bs)
  end.

(** [l[i]] for an int index, negative indices counting from the end. *)
Definition py_getitem {A : Type} (l : list A) (i : Z) : result A :=
  let n := Z.of_nat (length l) in
  let j := if i <? 0 then i + n else i in
  if (j <? 0) || (n <=? j) then Raise IndexError
  else py_index l (Z.to_nat j).

(** [l[:k]] for an int [k]. *)
Definition py_prefix {A : Type} (l : list A) (k : Z) : list A :=
  if k <? 0 then take (Z.to_nat (Z.of_nat (length l) + k)) l
  else take (Z.to_nat k) l.

(** ** Data model *)

Definition point : Type := Z * Z.

(** [{'pts': cnt_shift, 'len': p}] *)
Record contour : Type := Contour {
  c_pts : list point;
  c_len : Q
}.

(** The glyph dict built by [generate]. *)
Record glyph : Type := Glyph {
  g_id : Z;
  g_x : Z;
  g_y : Z;
  g_w : Z;
  g_h : Z;
  g_area : Z;
  g_contours : list contour;
  g_total_len : Q;
  g_center : Q * Q
}.

Definition sum_Z {A : Type} (f : A -> Z) (l : list A) : Z :=
  foldr (fun a acc => f a + acc) 0 l.

Definition sum_Q {A : Type} (f : A -> Q) (l : list A) : Q :=
  foldr (fun a acc => (f a + acc)%Q) 0%Q l.

(** ** What the renderer paints *)

(** One call that writes into [reveal_mask]:
    [cv2.drawContours(reveal_mask, [pts], -1, 255, -1)] (the filled
    contour), [cv2.polylines(reveal_mask, [pts], False, 255, thickness)]
    (an open thick polyline), or [reveal_mask[:] = 255]. *)
Inductive paint : Type :=
| DrawFilled (pts : list point)
| Polyline (pts : list point) (thickness : Z)
| FillAll.

Definition color : Type := Z * Z * Z.

Definition black : color := (0, 0, 0).
Definition white : color := (255, 255, 255).

(** [frame[:, :, ::-1]] on one pixel. *)
Definition reverse_channels (c : color) : color :=
  let '(b, g, r) := c in (r, g, b).

(** The canvas of every generator. *)
Definition width : Z := 1920.
Definition height : Z := 1080.

Definition in_canvas (p : point) : bool :=
  (0 <=? fst p) && (fst p <? width) && (0 <=? snd p) && (snd p <? height).

(** Pixels of a mask, for a given rasteriser of the two OpenCV drawing
    primitives. *)
Section Raster.
Variable filled : list point -> point -> bool.
Variable stroke : list point -> Z -> point -> bool.

Definition covers (op : paint) (p : point) : bool :=
    match op with
    | DrawFilled pts => filled pts p
    | Polyline pts thickness => stroke pts thickness p
    | FillAll => true
    end.

  (** [reveal_mask > 0] at pixel [p] after the operations [ops]. *)
Definition mask_bool (ops : list paint) (p : point) : bool :=
    in_canvas p && existsb (fun op => covers op p) ops.

  (** [frame[mask_bool] = full_canvas_ref[mask_bool]] over a frame filled
      with [background]. *)
Definition composite (background : color) (full_canvas_ref : point -> color)
             (ops : list paint) (p : point) : color :=
    if mask_bool ops p then full_canvas_ref p else background.
End Raster.

(** [for glyph in glyphs: for c in glyph['contours']: cv2.drawContours(...)] *)
Definition fill_glyphs (glyphs : list glyph) : list paint :=
  concat (map (fun glyph => map (fun c => DrawFilled (c_pts c)) (g_contours glyph))
              glyphs).

(** A segment descriptor handed in by the caller: the keys the engines
    read with [seg.get]. *)
Record segment : Type := Segment {
  seg_position : option Z;
  seg_duration : option Q;
  seg_bbox : option (Q * Q * Q * Q)
}.

(** An entry of [segment_times]. *)
Record seg_info : Type := SegInfo {
  section_idx : Z;
  seg_start : Q;
  seg_end : Q
}.

(** The [# --- SEGMENT TIMING ---] block. *)
Definition lt_position (a b : segment) : bool :=
  default 0 (seg_position a) <? default 0 (seg_position b).

Fixpoint timing_loop (current_time : Q) (seq_idx : Z)
         (sorted_segments : list segment) : list seg_info :=
  match sorted_segments with
  | [] => []
  | seg :: rest =>
      let seg_duration := default 3%Q (seg_duration seg) in
      SegInfo seq_idx current_time (current_time + seg_duration)%Q
        :: timing_loop (current_time + seg_duration)%Q (seq_idx + 1) rest
  end.

Definition segment_times_of (segments : list segment) : list seg_info :=
  match segments with
  | [] => []
  | _ :: _ => timing_loop 0%Q 0 (sorted lt_position segments)
  end.

(** ** The OpenCV calls the engines make *)

Inductive thresh_type : Type := THRESH_BINARY | THRESH_BINARY_INV.

(** A row of [stats] for one label [i >= 1]. *)
Record stats_row : Type := StatsRow {
  st_label : Z;
  st_x : Z;
  st_y : Z;
  st_w : Z;
  st_h : Z;
  st_area : Z
}.

(** The interface of the image library, over its type of single-channel
    images. [gray_values] are the pixels [np.mean] averages, [nonzero] is
    the test [ink_map > 0] at a pixel, and [morph_open img ksize] is
    [cv2.morphologyEx(img, cv2.MORPH_OPEN,
    cv2.getStructuringElement(cv2.MORPH_RECT, ksize))]. *)
Class OpenCV (image : Type) : Type := {
  shape : image -> Z * Z;
  gray_values : image -> list Z;
  nonzero : image -> point -> bool;
  GaussianBlur : image -> Z * Z -> Z -> image;
  threshold_otsu : image -> Z -> Z -> thresh_type -> image;
  adaptiveThreshold : image -> Z -> thresh_type -> Z -> Z -> image;
  morph_open : image -> Z * Z -> image;
  connectedComponentsWithStats : image -> list stats_row;
  findContours : image -> Z -> list (list point);
  arcLength : list point -> Q
}.

(** What the engines rely on: the filters keep the image size, and every
    labelled component holds a foreground pixel of the image. *)
Class OpenCVSpec (image : Type) `{OpenCV image} : Prop := {
  shape_GaussianBlur : forall img k s, shape (GaussianBlur img k s) = shape img;
  shape_threshold_otsu :
    forall img t m ty, shape (threshold_otsu img t m ty) = shape img;
  shape_adaptiveThreshold :
    forall img m ty b c, shape (adaptiveThreshold img m ty b c) = shape img;
  shape_morph_open : forall img k, shape (morph_open img k) = shape img;
  component_has_ink :
    forall img row, In row (connectedComponentsWithStats img) ->
                    exists p, nonzero img p = true
}.

(** The calls as terms: the image library that only records what was
    asked of it. *)
Inductive cv_call : Type :=
| Source (size : Z * Z) (values : list Z)
| CallGaussianBlur (src : cv_call) (ksize : Z * Z) (sigma : Z)
| CallThresholdOtsu (src : cv_call) (thresh maxval : Z) (ty : thresh_type)
| CallAdaptiveThreshold (src : cv_call) (maxval : Z) (ty : thresh_type)
                        (blockSize C : Z)
| CallMorphOpen (src : cv_call) (ksize : Z * Z).

Fixpoint cv_call_shape (c : cv_call) : Z * Z :=
  match c with
  | Source size _ => size
  | CallGaussianBlur src _ _ => cv_call_shape src
  | CallThresholdOtsu src _ _ _ => cv_call_shape src
  | CallAdaptiveThreshold src _ _ _ _ => cv_call_shape src
  | CallMorphOpen src _ => cv_call_shape src
  end.

(** [np.mean(gray)]; [None] is the [nan] of an empty array. *)
Definition np_mean (values : list Z) : option Q :=
  match values with
  | [] => None
  | _ :: _ => Some (inject_Z (py_sum_Z (fun v => v) values)
                    / inject_Z (Z.of_nat (length values)))%Q
  end.

(** [mean_brightness < 127]; a comparison with [nan] is false. *)
Definition below_127 (mean_brightness : option Q) : bool :=
  match mean_brightness with
  | Some m => Qltb m 127
  | None => false
  end.

(** ** Word merge ([_safely_merge_words]) *)

Module MergeWords.

  (** The constants that differ between the strict (V7.3) and the relaxed
      (V8, V8.1) merge. *)
Record thresholds : Type := Thresholds {
    area_limit : Z;
    V : Q;
    H_max : Q;
    H_min : Q
  }.

Section Merge.
Variable th : thresholds.

Definition avg_h (current_meta next_g : glyph) : Q :=
      ((inject_Z (g_h current_meta) + inject_Z (g_h next_g)) / 2)%Q.

Definition vertical_match (current_meta next_g : glyph) : bool :=
      let cy1 := snd (g_center current_meta) in
      let cy2 := snd (g_center next_g) in
      Qltb (Qabs (cy1 - cy2)) (avg_h current_meta next_g * V th).

Definition gap (current_meta next_g : glyph) : Z :=
      let r1 := g_x current_meta + g_w current_meta in
      let l2 := g_x next_g in
      l2 - r1.

Definition horizontal_match (current_meta next_g : glyph) : bool :=
      let a := avg_h current_meta next_g in
      let gp := inject_Z (gap current_meta next_g) in
      Qltb gp (a * H_max th) && Qltb (- (a * H_min th)) gp.

    (** The body of the [# MERGE] branch: the accumulator after it has
        absorbed [next_g]. *)
Definition absorb (current_meta next_g : glyph) : glyph :=
      let new_x := Z.min (g_x current_meta) (g_x next_g) in
      let new_y := Z.min (g_y current_meta) (g_y next_g) in
      let new_r := Z.max (g_x current_meta + g_w current_meta)
                         (g_x next_g + g_w next_g) in
      let new_b := Z.max (g_y current_meta + g_h current_meta)
                         (g_y next_g + g_h next_g) in
      let new_w := new_r - new_x in
      let new_h := new_b - new_y in
      {| g_id := g_id current_meta;
         g_x := new_x;
         g_y := new_y;
         g_w := new_w;
         g_h := new_h;
         g_area := g_area current_meta + g_area next_g;
         g_contours := g_contours current_meta ++ g_contours next_g;
         g_total_len := (g_total_len current_meta + g_total_len next_g)%Q;
         g_center := ((inject_Z new_x + inject_Z new_w / 2)%Q,
                      (inject_Z new_y + inject_Z new_h / 2)%Q) |}.

    (** [for next_g in candidates[1:]: ...] followed by the final
        [merged.append(current_meta)]. *)
Fixpoint merge_loop (merged : list glyph) (current_meta : glyph)
             (rest : list glyph) : list glyph :=
      match rest with
      | [] => merged ++ [current_meta]
      | next_g :: rest' =>
          if vertical_match current_meta next_g
             && horizontal_match current_meta next_g
          then merge_loop merged (absorb current_meta next_g) rest'
          else merge_loop (merged ++ [current_meta]) next_g rest'
      end.

    (** The sort key [(g['y'], g['x'])]. *)
Definition lt_yx (a b : glyph) : bool :=
      (g_y a <? g_y b) || ((g_y a =? g_y b) && (g_x a <? g_x b)).

Definition is_candidate (g : glyph) : Prop := g_area g < area_limit th.

Definition candidates_of (glyphs : list glyph) : list glyph :=
      filter is_candidate glyphs.

Definition bypass_of (glyphs : list glyph) : list glyph :=
      filter (fun g => ~ is_candidate g) glyphs.

Definition _safely_merge_words (glyphs : list glyph) : list glyph :=
      match glyphs with
      | [] => []
      | _ :: _ =>
          let candidates := candidates_of glyphs in
          let bypass := bypass_of glyphs in
          match sorted lt_yx candidates with
          | [] => bypass
          | c0 :: rest => merge_loop [] c0 rest ++ bypass
          end
      end.
End Merge.

End MergeWords.

(** ** Reading-order line clustering *)

(** [sum(item[k] for item in line) / len(line)] for an int field and for a
    float field. *)
Definition line_avg_Z (f : glyph -> Z) (line : list glyph) : result Q :=
  py_div (inject_Z (py_sum_Z f line)) (inject_Z (Z.of_nat (length line))).

Definition line_avg_Q (f : glyph -> Q) (line : list glyph) : result Q :=
  py_div (py_sum_Q f line) (inject_Z (Z.of_nat (length line))).

Definition lt_x (a b : glyph) : bool := g_x a <? g_x b.
Definition lt_y (a b : glyph) : bool := g_y a <? g_y b.

(** The part the line-clustering sorters share: scan the glyphs, append
    each to the first line that [matches] it or open a new line, then sort
    the lines by their average [y] and every line by [x]. *)
Section LineClustering.
  (** [matches g line]: the test of the inner loop, which may divide by
      [len(line)]. *)
Variable matches : glyph -> list glyph -> result bool.

  (** [for idx, line in enumerate(lines): if ...: best_line_idx = idx; break];
      [None] is the sentinel [-1]. *)
Fixpoint find_line (g : glyph) (lines : list (list glyph)) (idx : nat)
    : result (option nat) :=
    match lines with
    | [] => Ok None
    | line :: rest =>
        let* hit := matches g line in
        if hit then Ok (Some idx) else find_line g rest (S idx)
    end.

Fixpoint cluster_lines (y_sorted : list glyph) (lines : list (list glyph))
    : result (list (list glyph)) :=
    match y_sorted with
    | [] => Ok lines
    | g :: y_sorted' =>
        let* best_line_idx := find_line g lines 0%nat in
        cluster_lines y_sorted'
          match best_line_idx with
          | Some i => alter (fun line => line ++ [g]) i lines
          | None => lines ++ [[g]]
          end
    end.

  (** [lines.sort(key=lambda line: sum(item['y'] for item in line) / len(line))] *)
Definition sort_lines (lines : list (list glyph))
    : result (list (list glyph)) :=
    let* keyed := result_mapM
                    (fun line => let* k := line_avg_Z g_y line in Ok (k, line))
                    lines in
    Ok (map snd (sorted (fun a b => Qltb (fst a) (fst b)) keyed)).

  (** [for line in lines: line.sort(key=x); ordered.extend(line)] *)
Definition flatten_lines (lines : list (list glyph)) : list glyph :=
    concat (map (sorted lt_x) lines).

Definition reading_order (glyphs : list glyph) : result (list glyph) :=
    let y_sorted := sorted lt_y glyphs in
    let* lines := cluster_lines y_sorted [] in
    let* lines' := sort_lines lines in
    Ok (flatten_lines lines').
End LineClustering.

(** ** V7.3: strict merge, nearest-neighbour pen path *)

Module V7_3.

Definition strict : MergeWords.thresholds :=
    MergeWords.Thresholds 8000 (5 # 10) (4 # 10) (2 # 10).

Definition _safely_merge_words : list glyph -> list glyph :=
    MergeWords._safely_merge_words strict.

  (** [max(range(len(glyphs)), key=lambda i: glyphs[i]['area'])]: the first
      index of a largest area. *)
Fixpoint argmax_area (best_i : nat) (best_v : Z) (i : nat) (l : list glyph)
    : nat :=
    match l with
    | [] => best_i
    | g :: l' =>
        if best_v <? g_area g then argmax_area i (g_area g) (S i) l'
        else argmax_area best_i best_v (S i) l'
    end.

  (** The scan for the closest unvisited glyph; [min_dist = None] is
      [float('inf')] and [best_idx] starts at [-1]. *)
Fixpoint closest (cx cy : Q) (best_idx : Z) (min_dist : option Q) (i : Z)
           (unvisited : list glyph) : Z :=
    match unvisited with
    | [] => best_idx
    | cand :: rest =>
        let '(dcx, dcy) := g_center cand in
        let dist := ((cx - dcx) * (cx - dcx) + (cy - dcy) * (cy - dcy))%Q in
        let closer := match min_dist with
                      | None => true
                      | Some m => Qltb dist m
                      end in
        if closer then closest cx cy i (Some dist) (i + 1) rest
        else closest cx cy best_idx min_dist (i + 1) rest
    end.

  (** [while unvisited: ...]; every turn pops one glyph, so [fuel] turns
      are enough for [fuel] unvisited glyphs. *)
Fixpoint greedy (fuel : nat) (current : glyph) (unvisited ordered : list glyph)
    : result (list glyph) :=
    match unvisited with
    | [] => Ok ordered
    | _ :: _ =>
        match fuel with
        | O => Raise OutOfFuel
        | S fuel' =>
            let '(cx, cy) := g_center current in
            let best_idx := closest cx cy (-1) None 0 unvisited in
            let* popped := py_pop unvisited best_idx in
            let '(next_glyph, unvisited') := popped in
            greedy fuel' next_glyph unvisited' (ordered ++ [next_glyph])
        end
    end.

Definition _sort_contours_by_path (glyphs : list glyph) : result (list glyph) :=
    match glyphs with
    | [] => Ok []
    | g0 :: rest =>
        let start_idx := argmax_area 0%nat (g_area g0) 1%nat rest in
        let* start := py_index glyphs start_idx in
        let* popped := py_pop glyphs (Z.of_nat start_idx) in
        let unvisited := snd popped in
        greedy (length unvisited) start unvisited [start]
    end.

End V7_3.

(** ** V8: relaxed merge, reading-order line clustering *)

Module V8.

Definition relaxed : MergeWords.thresholds :=
    MergeWords.Thresholds 10000 (7 # 10) (12 # 10) (5 # 10).

Definition _safely_merge_words : list glyph -> list glyph :=
    MergeWords._safely_merge_words relaxed.

  (** [abs(g_cy - l_avg_cy) < (max(g_h, l_avg_h) * 0.5)] *)
Definition matches (g : glyph) (line : list glyph) : result bool :=
    let* l_avg_y := line_avg_Z g_y line in
    let* l_avg_h := line_avg_Z g_h line in
    let* l_avg_cy := line_avg_Q (fun item => snd (g_center item)) line in
    let g_cy := snd (g_center g) in
    Ok (Qltb (Qabs (g_cy - l_avg_cy))
             (py_max (inject_Z (g_h g)) l_avg_h * (5 # 10))).

Definition _sort_contours_by_path (glyphs : list glyph) : result (list glyph) :=
    match glyphs with
    | [] => Ok []
    | _ :: _ => reading_order matches glyphs
    end.

  (** *** Section assignment ([# 3. SEGMENT & SORT FILTERING]) *)

Definition num_sections_of (segments : list segment) : Z :=
    match segments with
    | [] => 1
    | _ :: _ => Z.of_nat (length segments)
    end.

  (** [min(int(glyph_center_x / section_width), num_sections - 1)] *)
Definition section_of (section_width : Q) (num_sections : Z) (glyph : glyph)
    : result Z :=
    let glyph_center_x := (inject_Z (g_x glyph) + inject_Z (g_w glyph) / 2)%Q in
    let* q := py_div glyph_center_x section_width in
    Ok (Z.min (py_int q) (num_sections - 1)).

  (** [for glyph in glyphs: ... glyph_sections[section_idx].append(glyph)] *)
Fixpoint assign_loop (section_width : Q) (num_sections : Z)
           (glyphs : list glyph) (glyph_sections : gmap Z (list glyph))
    : result (gmap Z (list glyph)) :=
    match glyphs with
    | [] => Ok glyph_sections
    | glyph :: rest =>
        let* section_idx := section_of section_width num_sections glyph in
        let glyph_sections :=
          match glyph_sections !! section_idx with
          | None => <[section_idx := []]> glyph_sections
          | Some _ => glyph_sections
          end in
        let g_list := default [] (glyph_sections !! section_idx) in
        assign_loop section_width num_sections rest
                    (<[section_idx := g_list ++ [glyph]]> glyph_sections)
    end.

Definition assign_sections (new_w : Z) (segments : list segment)
             (glyphs : list glyph) : result (gmap Z (list glyph)) :=
    let num_sections := num_sections_of segments in
    let* section_width := py_div (inject_Z new_w) (inject_Z num_sections) in
    assign_loop section_width num_sections glyphs ∅.

  (** [# 4. PROCESS EACH SECTION]: every section is merged, then sorted. *)
Definition process_section (entry : Z * list glyph)
    : result (Z * list glyph) :=
    let '(sec_idx, g_list) := entry in
    let merged_glyphs := _safely_merge_words g_list in
    let* sorted_glyphs := _sort_contours_by_path merged_glyphs in
    Ok (sec_idx, sorted_glyphs).

Definition process_sections (glyph_sections : gmap Z (list glyph))
    : result (gmap Z (list glyph)) :=
    let* processed := result_mapM process_section (map_to_list glyph_sections) in
    Ok (list_to_map processed).

  (** *** The frame renderer ([make_frame]) *)

  (** [thickness = 3 if self.style == 'pencil' else 15] *)
Definition thickness_of (style : string) : Z :=
    if String.eqb style "pencil" then 3 else 15.

  (** [for c in active_glyph['contours']: ...]: contours the target length
      covers are filled, the first one it does not cover is traced as an
      open polyline over its first [pts_to_draw] points, and the loop
      breaks. *)
Fixpoint draw_active (thickness : Z) (target_glyph_len current_len : Q)
           (contours : list contour) : result (list paint) :=
    match contours with
    | [] => Ok []
    | c :: rest =>
        let c_len := c_len c in
        if Qle_bool (current_len + c_len) target_glyph_len then
          let* ops := draw_active thickness target_glyph_len
                                  (current_len + c_len)%Q rest in
          Ok (DrawFilled (c_pts c) :: ops)
        else
          let needed := (target_glyph_len - current_len)%Q in
          if Qltb 0 needed && Qltb 0 c_len then
            let num_pts := Z.of_nat (length (c_pts c)) in
            let* ratio := py_div needed c_len in
            let pts_to_draw := py_int (ratio * inject_Z num_pts) in
            if 0 <? pts_to_draw
            then Ok [Polyline (py_prefix (c_pts c) pts_to_draw) thickness]
            else Ok []
          else Ok []
    end.

  (** The body of [for seg_info in segment_times:]: what one segment
      paints at time [t]. *)
Definition draw_segment (style : string) (glyph_sections : gmap Z (list glyph))
             (t : Q) (info : seg_info) : result (list paint) :=
    let sec_idx := section_idx info in
    let seg_start := seg_start info in
    let seg_end := seg_end info in
    match glyph_sections !! sec_idx with
    | None => Ok []
    | Some [] => Ok []
    | Some glyphs_in_section =>
        if Qltb t seg_start then Ok []
        else if Qle_bool seg_end t then Ok (fill_glyphs glyphs_in_section)
        else
          let* seg_progress := py_div (t - seg_start) (seg_end - seg_start) in
          let total_glyphs := Z.of_nat (length glyphs_in_section) in
          let current_glyph_float := (inject_Z total_glyphs * seg_progress)%Q in
          let current_glyph_idx := py_int current_glyph_float in
          let completed :=
            if 0 <? current_glyph_idx
            then fill_glyphs (py_prefix glyphs_in_section current_glyph_idx)
            else [] in
          if current_glyph_idx <? total_glyphs then
            let* active_glyph := py_getitem glyphs_in_section current_glyph_idx in
            let intra_progress :=
              (current_glyph_float - inject_Z current_glyph_idx)%Q in
            let target_glyph_len :=
              (g_total_len active_glyph * intra_progress)%Q in
            let* active := draw_active (thickness_of style) target_glyph_len 0%Q
                                       (g_contours active_glyph) in
            Ok (completed ++ active)
          else Ok completed
    end.

Definition background (is_dark_bg : bool) : color :=
    if is_dark_bg then black else white.

Definition thresh_type_of (is_dark_bg : bool) : thresh_type :=
    if is_dark_bg then THRESH_BINARY else THRESH_BINARY_INV.


  (** What [generate] has computed when [make_frame] is first called. *)
Record clip : Type := Clip {
    style : string;
    segments : list segment;
    is_dark_bg : bool;
    glyph_sections : gmap Z (list glyph);
    segment_times : list seg_info;
    full_canvas_ref : point -> color
  }.

  (** The operations [make_frame(t)] applies to the zeroed [reveal_mask]. *)
Definition reveal_mask (k : clip) (t : Q) : result (list paint) :=
    match segments k, segment_times k with
    | _ :: _, _ :: _ =>
        let* per_segment :=
          result_mapM (draw_segment (style k) (glyph_sections k) t)
                      (segment_times k) in
        Ok (concat per_segment)
    | _, _ => Ok [FillAll]
    end.

Section Frame.
Variable filled : list point -> point -> bool.
Variable stroke : list point -> Z -> point -> bool.

    (** [make_frame(t)]: the frame as a function of the pixel. *)
Definition make_frame (k : clip) (t : Q) : result (point -> color) :=
      let* ops := reveal_mask k t in
      Ok (fun p => reverse_channels
                     (composite filled stroke (background (is_dark_bg k))
                                (full_canvas_ref k) ops p)).
End Frame.

  (** *** The front of [generate]: ink map, glyphs, canvas *)

  (** [cnt_shift[:, 0, 0] += x_offset; cnt_shift[:, 0, 1] += y_offset] *)
Definition shift_contour (x_offset y_offset : Z) (cnt : list point)
    : list point :=
    map (fun pt => (fst pt + x_offset, snd pt + y_offset)) cnt.

Section Generate.
Context {image : Type} `{OpenCV image}.

    (** [_get_cleaned_image(img_bgr)], given the grayscale conversion of
        its argument; the first component is what it stores in
        [self.is_dark_bg]. *)
Definition _get_cleaned_image (style : string) (gray : image)
      : bool * image :=
      let mean_brightness := np_mean (gray_values gray) in
      let is_dark_bg := below_127 mean_brightness in
      let thresh_type := thresh_type_of is_dark_bg in
      if String.eqb style "solid" || String.eqb style "normal" then
        let blurred := GaussianBlur gray (3, 3) 0 in
        (is_dark_bg, threshold_otsu blurred 0 255 thresh_type)
      else
        let binary_sketch := adaptiveThreshold gray 255 thresh_type 11 2 in
        (is_dark_bg, morph_open binary_sketch (2, 2)).

    (** The body of [for i in range(1, num_labels):]; [None] when the
        component is dropped. *)
Definition glyph_of_row (ink_map : image) (x_offset y_offset : Z)
               (row : stats_row) : option glyph :=
      if 10 <? st_area row then
        match findContours ink_map (st_label row) with
        | [] => None
        | contours =>
            let shifted_contours :=
              map (fun cnt =>
                     let cnt_shift := shift_contour x_offset y_offset cnt in
                     Contour cnt_shift (arcLength cnt_shift)) contours in
            Some {| g_id := st_label row;
                    g_x := st_x row; g_y := st_y row;
                    g_w := st_w row; g_h := st_h row;
                    g_area := st_area row;
                    g_contours := shifted_contours;
                    g_total_len := py_sum_Q c_len shifted_contours;
                    g_center :=
                      ((inject_Z (st_x row) + inject_Z (st_w row) / 2)%Q,
                       (inject_Z (st_y row) + inject_Z (st_h row) / 2)%Q) |}
        end
      else None.

    (** [full_canvas_ref]: the background, with the ink pixels of the
        resized image copied into the letterbox. *)
Definition canvas_of (is_dark_bg : bool) (new_w new_h x_offset y_offset : Z)
               (ink_map : image) (original_resized : point -> color)
      : point -> color :=
      fun p =>
        let q := (fst p - x_offset, snd p - y_offset) in
        if (0 <=? fst q) && (fst q <? new_w) && (0 <=? snd q) && (snd q <? new_h)
           && nonzero ink_map q
        then original_resized q
        else background is_dark_bg.

    (** [generate], from the resized image and its grayscale conversion up
        to the closure [make_frame] is built from. *)
Definition generate (style : string) (segments : list segment)
               (original_resized : point -> color) (gray : image)
      : result clip :=
      let '(new_w, new_h) := shape gray in
      let y_offset := (height - new_h) / 2 in
      let x_offset := (width - new_w) / 2 in
      let '(is_dark_bg, ink_map) := _get_cleaned_image style gray in
      let glyphs := omap (glyph_of_row ink_map x_offset y_offset)
                         (connectedComponentsWithStats ink_map) in
      let* glyph_sections := assign_sections new_w segments glyphs in
      let* glyph_sections := process_sections glyph_sections in
      let full_canvas_ref :=
        canvas_of is_dark_bg new_w new_h x_offset y_offset ink_map
                  original_resized in
      Ok (Clip style segments is_dark_bg glyph_sections
               (segment_times_of segments) full_canvas_ref).
End Generate.

End V8.

(** ** V8.1: macro objects by area, micro objects in reading order *)

Module V8_1.

Definition MACRO_THRESHOLD : Z := 5000.

Definition _safely_merge_words : list glyph -> list glyph :=
    MergeWords._safely_merge_words V8.relaxed.

  (** [abs(g_cy - l_avg_cy) < (max(g_h, 30) * 1.5)] *)
Definition matches (g : glyph) (line : list glyph) : result bool :=
    let* l_avg_cy := line_avg_Q (fun item => snd (g_center item)) line in
    let g_cy := snd (g_center g) in
    Ok (Qltb (Qabs (g_cy - l_avg_cy))
             (inject_Z (Z.max (g_h g) 30) * (15 # 10))).

Definition is_macro (g : glyph) : Prop := MACRO_THRESHOLD <= g_area g.

  (** [macro_objs.sort(key=lambda g: g['area'], reverse=True)] *)
Definition gt_area (a b : glyph) : bool := g_area b <? g_area a.

Definition _sort_contours_by_path (glyphs : list glyph) : result (list glyph) :=
    match glyphs with
    | [] => Ok []
    | _ :: _ =>
        let macro_objs := filter is_macro glyphs in
        let micro_objs := filter (fun g => ~ is_macro g) glyphs in
        let macro_sorted := sorted gt_area macro_objs in
        let* sorted_micro := reading_order matches micro_objs in
        Ok (macro_sorted ++ sorted_micro)
    end.

End V8_1.


(** ** V5: grid rows, constant-speed reveal with cached masks *)

(** [a // b] on ints. *)
Definition py_floordiv (a b : Z) : result Z :=
  if b =? 0 then Raise ZeroDivisionError else Ok (a / b).

(** [min(a, b)]: the first argument unless the second is smaller. *)
Definition py_min (a b : Q) : Q := if Qltb b a then b else a.

(** [range(a, b)] and [range(0, stop, step)] for a positive step. *)
Definition py_range (a b : Z) : list Z :=
  map (fun i => a + Z.of_nat i) (seq 0 (Z.to_nat (b - a))).

Definition py_range_step (stop step : Z) : list Z :=
  map (fun i => Z.of_nat i * step) (seq 0 (Z.to_nat ((stop + step - 1) / step))).

Module V5.

(** The glyph dict of V5: raw contours and their summed perimeter. *)
Record glyph : Type := Glyph {
  r_id : Z;
  r_x : Z;
  r_y : Z;
  r_w : Z;
  r_h : Z;
  r_area : Z;
  r_contours : list (list point);
  r_perimeter : Q
}.

(** An entry of a section: [{'contours': shifted_contours, 'id': ...}]. *)
Record glyph_unit : Type := GlyphUnit {
  u_contours : list (list point);
  u_id : Z
}.

(** [np.median] of a non-empty list of ints. *)
Definition np_median (l : list Z) : Q :=
  let s := sorted Z.ltb l in
  let n := length s in
  let upper := nth (n / 2)%nat s 0 in
  let lower := nth (n / 2 - 1)%nat s 0 in
  if Nat.even n then ((inject_Z lower + inject_Z upper) / 2)%Q
  else inject_Z upper.

Definition row_height_of (glyphs : list glyph) (img_height : Z) : Z :=
  let heights := List.filter (fun h => 5 <? h) (map r_h glyphs) in
  match heights with
  | [] => Z.max 30 (img_height / 15)
  | _ :: _ => Z.max 30 (py_int (np_median heights * (25 # 10)))
  end.

(** [for g in glyphs: ... row_assignments[row_idx].append(g)] *)
Fixpoint assign_rows (row_height : Z) (glyphs : list glyph)
         (row_assignments : gmap Z (list glyph))
  : result (gmap Z (list glyph)) :=
  match glyphs with
  | [] => Ok row_assignments
  | g :: rest =>
      let center_y := r_y g + r_h g / 2 in
      let* row_idx := py_floordiv center_y row_height in
      let row := default [] (row_assignments !! row_idx) in
      assign_rows row_height rest (<[row_idx := row ++ [g]]> row_assignments)
  end.

Definition _cluster_into_grid_rows (glyphs : list glyph) (img_height : Z)
  : result (list (list glyph)) :=
  match glyphs with
  | [] => Ok []
  | _ :: _ =>
      let row_height := row_height_of glyphs img_height in
      let* row_assignments := assign_rows row_height glyphs ∅ in
      let sorted_row_indices :=
        sorted Z.ltb (map fst (map_to_list row_assignments)) in
      result_mapM
        (fun row_idx =>
           match row_assignments !! row_idx with
           | Some row_glyphs =>
               Ok (sorted (fun a b => r_x a <? r_x b) row_glyphs)
           | None => Raise KeyError
           end)
        sorted_row_indices
  end.

(** The running sums [cumulative_perimeters]. *)
Fixpoint running_sums (running_sum : Q) (lens : list Q) : list Q :=
  match lens with
  | [] => []
  | p :: rest => (running_sum + p)%Q :: running_sums (running_sum + p)%Q rest
  end.

(** [for j in range(a, b): cv2.drawContours(mask, [all_contours[j]], ...)] *)
Definition draw_range (all_contours : list (list point)) (a b : Z)
  : result (list paint) :=
  result_mapM (fun j => let* cnt := py_getitem all_contours j in
                        Ok (DrawFilled cnt))
              (py_range a b).

(** One turn of the loop that fills [cached_masks]. *)
Definition cache_step (all_contours : list (list point)) (cache_interval : Z)
           (cached_masks : gmap Z (list paint)) (cache_idx : Z)
  : result (gmap Z (list paint)) :=
  if cache_idx =? 0 then Ok (<[0 := []]> cached_masks)
  else
    let mask := default [] (cached_masks !! (cache_idx - cache_interval)) in
    let* drawn := draw_range all_contours (cache_idx - cache_interval)
                             (Z.min cache_idx
                                    (Z.of_nat (length all_contours))) in
    Ok (<[cache_idx := mask ++ drawn]> cached_masks).

Fixpoint cache_loop (all_contours : list (list point)) (cache_interval : Z)
         (cached_masks : gmap Z (list paint)) (indices : list Z)
  : result (gmap Z (list paint)) :=
  match indices with
  | [] => Ok cached_masks
  | cache_idx :: rest =>
      let* cached_masks := cache_step all_contours cache_interval
                                      cached_masks cache_idx in
      cache_loop all_contours cache_interval cached_masks rest
  end.

(** What [generate] has computed when [make_frame] is first called. *)
Record clip : Type := Clip {
  segments : list segment;
  is_dark_bg : bool;
  all_contours : list (list point);
  total_perimeter : Q;
  drawing_time : Q;
  cumulative_perimeters : list Q;
  cache_interval : Z;
  cached_masks : gmap Z (list paint);
  segment_times : list seg_info;
  glyph_sections : gmap Z (list glyph_unit);
  full_canvas_ref : point -> color
}.

Definition fill_units (units : list glyph_unit) : list paint :=
  concat (map (fun glyph_unit => map DrawFilled (u_contours glyph_unit)) units).

(** The body of [for seg_info in segment_times:] of V5: whole glyphs
    only. *)
Definition draw_segment (glyph_sections : gmap Z (list glyph_unit)) (t : Q)
           (info : seg_info) : result (list paint) :=
  match glyph_sections !! section_idx info with
  | None => Ok []
  | Some [] => Ok []
  | Some glyphs_in_section =>
      if Qltb t (seg_start info) then Ok []
      else if Qle_bool (seg_end info) t then Ok (fill_units glyphs_in_section)
      else
        let* seg_progress :=
          py_div (t - seg_start info) (seg_end info - seg_start info) in
        let num_glyphs_to_reveal :=
          py_int (inject_Z (Z.of_nat (length glyphs_in_section)) * seg_progress)
          + 1 in
        Ok (fill_units (py_prefix glyphs_in_section num_glyphs_to_reveal))
  end.

(** [while left < right: ...]: the search halves the interval, so
    [fuel] turns are enough for an interval of length below [2 ^ fuel]. *)
Fixpoint bisect (fuel : nat) (cumulative_perimeters : list Q) (target_len : Q)
         (left right : Z) : result Z :=
  if left <? right then
    match fuel with
    | O => Raise OutOfFuel
    | S fuel' =>
        let mid := (left + right) / 2 in
        let* at_mid := py_getitem cumulative_perimeters mid in
        if Qle_bool at_mid target_len
        then bisect fuel' cumulative_perimeters target_len (mid + 1) right
        else bisect fuel' cumulative_perimeters target_len left mid
    end
  else Ok left.

(** The [# Draw partial contour] block. *)
Definition draw_partial (k : clip) (target_len : Q) (left : Z)
  : result (list paint) :=
  if left <? Z.of_nat (length (all_contours k)) then
    let* cnt := py_getitem (all_contours k) left in
    let* prev_len := if 0 <? left
                     then py_getitem (cumulative_perimeters k) (left - 1)
                     else Ok 0%Q in
    let remaining := (target_len - prev_len)%Q in
    let* at_left := py_getitem (cumulative_perimeters k) left in
    let p_len := (at_left - prev_len)%Q in
    if Qltb 0 p_len && Qltb 0 remaining then
      let num_pts := Z.of_nat (length cnt) in
      let* ratio := py_div remaining p_len in
      let pts_to_draw := py_int (ratio * inject_Z num_pts) in
      if 0 <? pts_to_draw then Ok [Polyline (py_prefix cnt pts_to_draw) 12]
      else Ok []
    else Ok []
  else Ok [].

(** The [# Fallback: simple linear reveal] branch. *)
Definition linear_reveal (k : clip) (t : Q) : result (list paint) :=
  let* progress :=
    if Qle_bool (drawing_time k) 0 then Ok 1%Q
    else let* ratio := py_div t (drawing_time k) in Ok (py_min 1 ratio) in
  let target_len := (total_perimeter k * progress)%Q in
  let* left := bisect (S (length (cumulative_perimeters k)))
                      (cumulative_perimeters k) target_len 0
                      (Z.of_nat (length (cumulative_perimeters k))) in
  let* cache_slot := py_floordiv left (cache_interval k) in
  let cache_point := cache_slot * cache_interval k in
  let '(reveal_mask, cache_point) :=
    match cached_masks k !! cache_point with
    | Some mask => (mask, cache_point)
    | None => ([], 0)
    end in
  let* completed := draw_range (all_contours k) cache_point left in
  let* partial := draw_partial k target_len left in
  Ok (reveal_mask ++ completed ++ partial).

(** The operations [make_frame(t)] applies to the zeroed [reveal_mask]. *)
Definition reveal_mask (k : clip) (t : Q) : result (list paint) :=
  match segments k, segment_times k with
  | _ :: _, _ :: _ =>
      let* per_segment :=
        result_mapM (draw_segment (glyph_sections k) t) (segment_times k) in
      Ok (concat per_segment)
  | _, _ => linear_reveal k t
  end.

Section Frame.
Variable filled : list point -> point -> bool.
Variable stroke : list point -> Z -> point -> bool.

Definition make_frame (k : clip) (t : Q) : result (point -> color) :=
  let* ops := reveal_mask k t in
  Ok (fun p => reverse_channels
                 (composite filled stroke (V8.background (is_dark_bg k))
                            (full_canvas_ref k) ops p)).
End Frame.

(** [min(int(glyph_center_x / section_width), num_sections - 1)] and the
    section dict of glyph units. *)
Fixpoint assign_loop (section_width : Q) (num_sections x_offset y_offset : Z)
         (ordered_glyphs : list glyph) (glyph_sections : gmap Z (list glyph_unit))
  : result (gmap Z (list glyph_unit)) :=
  match ordered_glyphs with
  | [] => Ok glyph_sections
  | g :: rest =>
      let glyph_center_x := (inject_Z (r_x g) + inject_Z (r_w g) / 2)%Q in
      let* q := py_div glyph_center_x section_width in
      let section_idx := Z.min (py_int q) (num_sections - 1) in
      let shifted_contours :=
        map (V8.shift_contour x_offset y_offset) (r_contours g) in
      let units := default [] (glyph_sections !! section_idx) in
      assign_loop section_width num_sections x_offset y_offset rest
                  (<[section_idx := units ++ [GlyphUnit shifted_contours (r_id g)]]>
                     glyph_sections)
  end.

Section Generate.
Context {image : Type} `{OpenCV image}.

Definition _get_cleaned_image (gray : image) : bool * image :=
  let mean_brightness := np_mean (gray_values gray) in
  let is_dark_bg := below_127 mean_brightness in
  let thresh_type := V8.thresh_type_of is_dark_bg in
  let binary_sketch := adaptiveThreshold gray 255 thresh_type 11 2 in
  (is_dark_bg, morph_open binary_sketch (2, 2)).

Definition glyph_of_row (ink_map : image) (row : stats_row) : option glyph :=
  if 10 <? st_area row then
    match findContours ink_map (st_label row) with
    | [] => None
    | contours =>
        Some {| r_id := st_label row;
                r_x := st_x row; r_y := st_y row;
                r_w := st_w row; r_h := st_h row;
                r_area := st_area row;
                r_contours := contours;
                r_perimeter := py_sum_Q arcLength contours |}
    end
  else None.

Definition generate (segments : list segment) (duration : Q)
           (original_resized : point -> color) (gray : image) : result clip :=
  let '(new_w, new_h) := shape gray in
  let y_offset := (height - new_h) / 2 in
  let x_offset := (width - new_w) / 2 in
  let '(is_dark_bg, ink_map) := _get_cleaned_image gray in
  let glyphs := omap (glyph_of_row ink_map)
                     (connectedComponentsWithStats ink_map) in
  let* rows := _cluster_into_grid_rows glyphs new_h in
  let ordered_glyphs := concat rows in
  let raw_contours := concat (map r_contours ordered_glyphs) in
  let all_contours := map (V8.shift_contour x_offset y_offset) raw_contours in
  let total_perimeter := py_sum_Q arcLength raw_contours in
  let full_canvas_ref :=
    V8.canvas_of is_dark_bg new_w new_h x_offset y_offset ink_map
                 original_resized in
  let drawing_time := py_min 5 (duration * (4 # 10)) in
  let cumulative_perimeters := running_sums 0 (map arcLength all_contours) in
  let* twentieth := py_floordiv (Z.of_nat (length all_contours)) 20 in
  let cache_interval := Z.max 1 twentieth in
  let* cached_masks :=
    cache_loop all_contours cache_interval ∅
               (py_range_step (Z.of_nat (length all_contours) + 1)
                              cache_interval) in
  let segment_times := segment_times_of segments in
  let num_sections := V8.num_sections_of segments in
  let* section_width := py_div (inject_Z new_w) (inject_Z num_sections) in
  let* glyph_sections :=
    assign_loop section_width num_sections x_offset y_offset ordered_glyphs ∅ in
  Ok (Clip segments is_dark_bg all_contours total_perimeter drawing_time
           cumulative_perimeters cache_interval cached_masks segment_times
           glyph_sections full_canvas_ref).
End Generate.

(** The [# 2. Resize Logic] block every [generate] starts with:
    [scale = min(self.width / w, self.height / h)], the size
    [int(w * scale), int(h * scale)] of the resized image, and the offsets
    of the letterbox; the result is [(new_w, new_h, x_offset, y_offset)]. *)
Definition fit_to_canvas (w h : Z) : result (Z * Z * Z * Z) :=
  let* scale_w := py_div (inject_Z width) (inject_Z w) in
  let* scale_h := py_div (inject_Z height) (inject_Z h) in
  let scale := py_min scale_w scale_h in
  let new_w := py_int (inject_Z w * scale) in
  let new_h := py_int (inject_Z h * scale) in
  let y_offset := (height - new_h) / 2 in
  let x_offset := (width - new_w) / 2 in
  Ok (new_w, new_h, x_offset, y_offset).

End V5.

(** ** V6: assignment of glyphs to the bounding boxes of the segments *)

Module V6.

(** The glyph dict of V6. *)
Record glyph : Type := Glyph {
  b_id : Z;
  b_x : Z;
  b_y : Z;
  b_w : Z;
  b_h : Z;
  b_area : Z;
  b_contours : list (list point)
}.

(** An entry of [seg_meta]; [m_rect] is [(xmin, ymin, xmax, ymax)] in
    pixels. *)
Record meta : Type := Meta {
  m_idx : Z;
  m_rect : Q * Q * Q * Q;
  m_area : Q;
  m_center : Q * Q
}.

(** The body of [for i, seg in enumerate(segments):]; the box of a segment
    is [[ymin, xmin, ymax, xmax]] on a 0-1000 scale. *)
Definition meta_of (width height : Z) (i : Z) (seg : segment) : option meta :=
  match seg_bbox seg with
  | None => None
  | Some (bbox0, bbox1, bbox2, bbox3) =>
      let b_ymin := (bbox0 / 1000 * inject_Z height)%Q in
      let b_xmin := (bbox1 / 1000 * inject_Z width)%Q in
      let b_ymax := (bbox2 / 1000 * inject_Z height)%Q in
      let b_xmax := (bbox3 / 1000 * inject_Z width)%Q in
      if Qle_bool b_xmax b_xmin || Qle_bool b_ymax b_ymin then None
      else
        Some {| m_idx := i;
                m_rect := (b_xmin, b_ymin, b_xmax, b_ymax);
                m_area := ((b_ymax - b_ymin) * (b_xmax - b_xmin))%Q;
                m_center := (((b_xmin + b_xmax) / 2)%Q,
                             ((b_ymin + b_ymax) / 2)%Q) |}
  end.

Fixpoint seg_meta_from (width height : Z) (i : Z) (segments : list segment)
  : list (option meta) :=
  match segments with
  | [] => []
  | seg :: rest =>
      meta_of width height i seg :: seg_meta_from width height (i + 1) rest
  end.

(** [gx = glyph['x'] + glyph['w'] / 2.0] and
    [gy = glyph['y'] + glyph['h'] // 2.0]: the vertical coordinate uses the
    floor division. *)
Definition glyph_gx (g : glyph) : Q :=
  (inject_Z (b_x g) + inject_Z (b_w g) / 2)%Q.

Definition glyph_gy (g : glyph) : Q :=
  (inject_Z (b_y g) + inject_Z (b_h g / 2))%Q.

(** [xmin <= gx <= xmax and ymin <= gy <= ymax] *)
Definition inside (gx gy : Q) (m : meta) : bool :=
  let '(xmin, ymin, xmax, ymax) := m_rect m in
  Qle_bool xmin gx && Qle_bool gx xmax && Qle_bool ymin gy && Qle_bool gy ymax.

(** The scan for the smallest containing box; [min_container_area = None]
    is [float('inf')] and [best_seg_idx] starts at [-1]. *)
Fixpoint smallest_container (gx gy : Q) (best_seg_idx : Z)
         (min_container_area : option Q) (seg_meta : list (option meta)) : Z :=
  match seg_meta with
  | [] => best_seg_idx
  | None :: rest =>
      smallest_container gx gy best_seg_idx min_container_area rest
  | Some m :: rest =>
      let smaller := match min_container_area with
                     | None => true
                     | Some a => Qltb (m_area m) a
                     end in
      if inside gx gy m && smaller
      then smallest_container gx gy (m_idx m) (Some (m_area m)) rest
      else smallest_container gx gy best_seg_idx min_container_area rest
  end.

(** The scan for the nearest box centre. The code compares the distances
    [((gx - cx)**2 + (gy - cy)**2) ** 0.5]; the model compares their
    squares, which orders them the same way. *)
Fixpoint nearest_center (gx gy : Q) (best_idx : Z) (min_dist : option Q)
         (valid_metas : list meta) : Z :=
  match valid_metas with
  | [] => best_idx
  | m :: rest =>
      let '(cx, cy) := m_center m in
      let dist := ((gx - cx) * (gx - cx) + (gy - cy) * (gy - cy))%Q in
      let closer := match min_dist with
                    | None => true
                    | Some d => Qltb dist d
                    end in
      if closer then nearest_center gx gy (m_idx m) (Some dist) rest
      else nearest_center gx gy best_idx min_dist rest
  end.

(** [segment_glyphs[i].append(glyph)] *)
Definition append_to (segment_glyphs : gmap Z (list glyph)) (i : Z)
           (g : glyph) : result (gmap Z (list glyph)) :=
  match segment_glyphs !! i with
  | Some l => Ok (<[i := l ++ [g]]> segment_glyphs)
  | None => Raise KeyError
  end.

(** [for glyph in glyphs: ...]: into the smallest containing box, or onto
    the list [unassigned]. *)
Fixpoint contain_loop (seg_meta : list (option meta)) (glyphs : list glyph)
         (segment_glyphs : gmap Z (list glyph)) (unassigned : list glyph)
  : result (gmap Z (list glyph) * list glyph) :=
  match glyphs with
  | [] => Ok (segment_glyphs, unassigned)
  | g :: rest =>
      let best_seg_idx :=
        smallest_container (glyph_gx g) (glyph_gy g) (-1) None
                           seg_meta in
      if best_seg_idx =? -1
      then contain_loop seg_meta rest segment_glyphs (unassigned ++ [g])
      else
        let* segment_glyphs := append_to segment_glyphs best_seg_idx g in
        contain_loop seg_meta rest segment_glyphs unassigned
  end.

(** [for glyph in unassigned: ...]: to the nearest box centre, or to
    segment 0 when no box is valid. *)
Fixpoint nearest_loop (seg_meta : list (option meta)) (unassigned : list glyph)
         (segment_glyphs : gmap Z (list glyph))
  : result (gmap Z (list glyph)) :=
  match unassigned with
  | [] => Ok segment_glyphs
  | g :: rest =>
      let valid_metas := omap (fun m => m) seg_meta in
      let target :=
        match valid_metas with
        | [] => 0
        | _ :: _ =>
            nearest_center (glyph_gx g) (glyph_gy g) 0 None valid_metas
        end in
      let* segment_glyphs := append_to segment_glyphs target g in
      nearest_loop seg_meta rest segment_glyphs
  end.

(** [{i: [] for i in range(len(segments))}] *)
Definition empty_bins (n : nat) : gmap Z (list glyph) :=
  list_to_map (map (fun i => (Z.of_nat i, [])) (seq 0 n)).

Definition _cluster_glyphs_by_bbox (glyphs : list glyph) (width height : Z)
           (segments : list segment) : result (gmap Z (list glyph)) :=
  match segments with
  | [] => Ok {[ 0 := glyphs ]}
  | _ :: _ =>
      let segment_glyphs := empty_bins (length segments) in
      let seg_meta := seg_meta_from width height 0 segments in
      let* contained := contain_loop seg_meta glyphs segment_glyphs [] in
      let '(segment_glyphs, unassigned) := contained in
      nearest_loop seg_meta unassigned segment_glyphs
  end.

(** The sort key [(g['y'] // 20, g['x'])]. *)
Definition lt_band_x (a b : glyph) : bool :=
  (b_y a / 20 <? b_y b / 20)
  || ((b_y a / 20 =? b_y b / 20) && (b_x a <? b_x b)).

Definition _sort_glyphs_in_segment (glyphs : list glyph) : list glyph :=
  match glyphs with
  | [] => []
  | _ :: _ => sorted lt_band_x glyphs
  end.

(** [len(self.segments) if self.segments else 1] *)
Definition num_segments_of (segments : list segment) : Z :=
  match segments with
  | [] => 1
  | _ :: _ => Z.of_nat (length segments)
  end.

(** [{'contours': shifted_contours, 'id': g['id']}] *)
Definition unit_of (x_offset y_offset : Z) (g : glyph) : V5.glyph_unit :=
  V5.GlyphUnit (map (V8.shift_contour x_offset y_offset) (b_contours g))
               (b_id g).

(** The body of [for i in range(num_segments):]. *)
Definition section_step (x_offset y_offset : Z)
           (segment_glyph_map : gmap Z (list glyph))
           (glyph_sections : gmap Z (list V5.glyph_unit)) (i : Z)
  : gmap Z (list V5.glyph_unit) :=
  let seg_glyphs := default [] (segment_glyph_map !! i) in
  let sorted_seg_glyphs := _sort_glyphs_in_segment seg_glyphs in
  let glyph_sections :=
    match glyph_sections !! i with
    | None => <[i := []]> glyph_sections
    | Some _ => glyph_sections
    end in
  fold_left (fun glyph_sections g =>
               <[i := default [] (glyph_sections !! i)
                      ++ [unit_of x_offset y_offset g]]> glyph_sections)
            sorted_seg_glyphs glyph_sections.

(** The [# 9. Timing Setup] block: the segments in the order given. *)
Definition segment_times_of (segments : list segment) : list seg_info :=
  match segments with
  | [] => []
  | _ :: _ => timing_loop 0%Q 0 segments
  end.

(** What [generate] has computed when [make_frame] is first called. *)
Record clip : Type := Clip {
  segments : list segment;
  is_dark_bg : bool;
  glyph_sections : gmap Z (list V5.glyph_unit);
  segment_times : list seg_info;
  full_canvas_ref : point -> color
}.

(** The body of [for seg_info in segment_times:] of V6. *)
Definition draw_segment (glyph_sections : gmap Z (list V5.glyph_unit)) (t : Q)
           (info : seg_info) : result (list paint) :=
  match default [] (glyph_sections !! section_idx info) with
  | [] => Ok []
  | glyphs_in_section =>
      if Qle_bool (seg_end info) t then Ok (V5.fill_units glyphs_in_section)
      else if Qle_bool (seg_start info) t then
        let* seg_progress :=
          py_div (t - seg_start info) (seg_end info - seg_start info) in
        let segs_to_show :=
          py_int (inject_Z (Z.of_nat (length glyphs_in_section)) * seg_progress) in
        Ok (V5.fill_units (py_prefix glyphs_in_section segs_to_show))
      else Ok []
  end.

(** The operations [make_frame(t)] applies to the zeroed [reveal_mask];
    without segments it applies none. *)
Definition reveal_mask (k : clip) (t : Q) : result (list paint) :=
  match segments k, segment_times k with
  | _ :: _, _ :: _ =>
      let* per_segment :=
        result_mapM (draw_segment (glyph_sections k) t) (segment_times k) in
      Ok (concat per_segment)
  | _, _ => Ok []
  end.

Section Frame.
Variable filled : list point -> point -> bool.
Variable stroke : list point -> Z -> point -> bool.

Definition make_frame (k : clip) (t : Q) : result (point -> color) :=
  let* ops := reveal_mask k t in
  Ok (fun p => reverse_channels
                 (composite filled stroke (V8.background (is_dark_bg k))
                            (full_canvas_ref k) ops p)).
End Frame.

Section Generate.
Context {image : Type} `{OpenCV image}.

Definition _get_cleaned_image (gray : image) : bool * image :=
  let mean_brightness := np_mean (gray_values gray) in
  let is_dark_bg := below_127 mean_brightness in
  let thresh_type := V8.thresh_type_of is_dark_bg in
  let binary_sketch := adaptiveThreshold gray 255 thresh_type 11 2 in
  (is_dark_bg, morph_open binary_sketch (2, 2)).

Definition glyph_of_row (ink_map : image) (row : stats_row) : option glyph :=
  if 10 <? st_area row then
    match findContours ink_map (st_label row) with
    | [] => None
    | contours =>
        Some {| b_id := st_label row;
                b_x := st_x row; b_y := st_y row;
                b_w := st_w row; b_h := st_h row;
                b_area := st_area row;
                b_contours := contours |}
    end
  else None.

(** [generate], from the resized image and its grayscale conversion up to
    the closure [make_frame] is built from. *)
Definition generate (segments : list segment)
           (original_resized : point -> color) (gray : image) : result clip :=
  let '(new_w, new_h) := shape gray in
  let y_offset := (height - new_h) / 2 in
  let x_offset := (width - new_w) / 2 in
  let '(is_dark_bg, ink_map) := _get_cleaned_image gray in
  let glyphs := omap (glyph_of_row ink_map)
                     (connectedComponentsWithStats ink_map) in
  let* segment_glyph_map :=
    _cluster_glyphs_by_bbox glyphs new_w new_h segments in
  let num_segments := num_segments_of segments in
  let glyph_sections :=
    fold_left (section_step x_offset y_offset segment_glyph_map)
              (py_range 0 num_segments) ∅ in
  let full_canvas_ref :=
    V8.canvas_of is_dark_bg new_w new_h x_offset y_offset ink_map
                 original_resized in
  Ok (Clip segments is_dark_bg glyph_sections (segment_times_of segments)
           full_canvas_ref).
End Generate.

End V6.

(** ** V8.1: segments that draw and segments that only talk *)

Module V8_1_engine.

(** *** Segments that draw and segments that only talk *)

(** A segment descriptor of V8.1: the keys it reads with [seg.get]. *)
Record segment : Type := Segment {
  seg_duration : option Q;
  seg_draw : option bool
}.

(** An entry of [segment_times]. *)
Record seg_info : Type := SegInfo {
  section_idx : Z;
  seg_start : Q;
  seg_end : Q;
  draw : bool
}.

(** [s.get('draw', True)] *)
Definition draws (s : segment) : bool := default true (seg_draw s).

(** [[i for i, s in enumerate(self.segments) if s.get('draw', True)]] *)
Fixpoint drawing_segments_from (i : Z) (segments : list segment) : list Z :=
  match segments with
  | [] => []
  | s :: rest =>
      if draws s then i :: drawing_segments_from (i + 1) rest
      else drawing_segments_from (i + 1) rest
  end.

(** [num_sections = len(drawing_segments)], 1 when there is none. *)
Definition num_sections_of (drawing_segments : list Z) : Z :=
  let num_sections := Z.of_nat (length drawing_segments) in
  if num_sections =? 0 then 1 else num_sections.

(** [for glyph in glyphs: ...]: the strip of the glyph picks the drawing
    segment that gets it. *)
Fixpoint assign_loop (section_width : Q) (num_sections : Z)
         (drawing_segments : list Z) (glyphs : list glyph)
         (glyph_sections : gmap Z (list glyph))
  : result (gmap Z (list glyph)) :=
  match glyphs with
  | [] => Ok glyph_sections
  | glyph :: rest =>
      let glyph_center_x :=
        (inject_Z (g_x glyph) + inject_Z (g_w glyph) / 2)%Q in
      let* q := py_div glyph_center_x section_width in
      let spatial_sec_idx := Z.min (py_int q) (num_sections - 1) in
      let* target_segment_idx := py_getitem drawing_segments spatial_sec_idx in
      let glyph_sections :=
        match glyph_sections !! target_segment_idx with
        | None => <[target_segment_idx := []]> glyph_sections
        | Some _ => glyph_sections
        end in
      let g_list := default [] (glyph_sections !! target_segment_idx) in
      assign_loop section_width num_sections drawing_segments rest
                  (<[target_segment_idx := g_list ++ [glyph]]> glyph_sections)
  end.

Definition assign_sections (new_w : Z) (segments : list segment)
           (glyphs : list glyph) : result (gmap Z (list glyph)) :=
  let drawing_segments := drawing_segments_from 0 segments in
  let num_sections := num_sections_of drawing_segments in
  let* section_width := py_div (inject_Z new_w) (inject_Z num_sections) in
  assign_loop section_width num_sections drawing_segments glyphs ∅.

(** [# 4. PROCESS EACH SECTION] *)
Definition process_section (entry : Z * list glyph)
  : result (Z * list glyph) :=
  let '(sec_idx, g_list) := entry in
  let merged_glyphs := V8_1._safely_merge_words g_list in
  let* sorted_glyphs := V8_1._sort_contours_by_path merged_glyphs in
  Ok (sec_idx, sorted_glyphs).

Definition process_sections (glyph_sections : gmap Z (list glyph))
  : result (gmap Z (list glyph)) :=
  let* processed := result_mapM process_section (map_to_list glyph_sections) in
  Ok (list_to_map processed).

(** The [# --- SEGMENT TIMING ---] block: the segments in the order given. *)
Fixpoint timing_loop (current_time : Q) (seq_idx : Z)
         (segments : list segment) : list seg_info :=
  match segments with
  | [] => []
  | seg :: rest =>
      let seg_duration := default 3%Q (seg_duration seg) in
      SegInfo seq_idx current_time (current_time + seg_duration)%Q (draws seg)
        :: timing_loop (current_time + seg_duration)%Q (seq_idx + 1) rest
  end.

Definition segment_times_of (segments : list segment) : list seg_info :=
  match segments with
  | [] => []
  | _ :: _ => timing_loop 0%Q 0 segments
  end.

(** *** The frame renderer *)

(** What [generate] has computed when [make_frame] is first called. *)
Record clip : Type := Clip {
  segments : list segment;
  is_dark_bg : bool;
  pps : Q;
  glyph_sections : gmap Z (list glyph);
  segment_times : list seg_info;
  full_canvas_ref : point -> color
}.

(** [for glyph in glyphs_in_section: ...]: the glyphs the target length
    covers are filled; the first one it does not cover is drawn in part,
    by the contour loop of V8 with a pen of 12, and the loop breaks. *)
Fixpoint draw_glyphs (target_len current_drawn_len : Q) (glyphs : list glyph)
  : result (list paint) :=
  match glyphs with
  | [] => Ok []
  | glyph :: rest =>
      let g_len := g_total_len glyph in
      if Qle_bool (current_drawn_len + g_len) target_len then
        let* ops := draw_glyphs target_len (current_drawn_len + g_len)%Q rest in
        Ok (map (fun c => DrawFilled (c_pts c)) (g_contours glyph) ++ ops)
      else
        let needed_for_glyph := (target_len - current_drawn_len)%Q in
        if Qltb 0 needed_for_glyph then
          let* glyph_ratio := py_div needed_for_glyph g_len in
          let target_glyph_len := (g_len * glyph_ratio)%Q in
          V8.draw_active 12 target_glyph_len 0%Q (g_contours glyph)
        else Ok []
  end.

(** The flags [draw_full] and [draw_partial], or [continue]. *)
Inductive mode : Type := DrawFull | DrawPartial | Future.

(** The body of [for seg_info in segment_times:]. *)
Definition draw_segment (pps : Q) (glyph_sections : gmap Z (list glyph))
           (t : Q) (info : seg_info) : result (list paint) :=
  let sec_idx := section_idx info in
  let seg_start := seg_start info in
  let seg_end := seg_end info in
  let is_drawing_segment := draw info in
  let* what :=
    if Qle_bool seg_end t then Ok DrawFull
    else if Qle_bool seg_start t then
      if is_drawing_segment then
        let* progress := py_div (t - seg_start) (seg_end - seg_start) in
        Ok DrawPartial
      else Ok DrawFull
    else Ok Future in
  match what with
  | Future => Ok []
  | DrawFull | DrawPartial =>
      match glyph_sections !! sec_idx with
      | None => Ok []
      | Some [] => Ok []
      | Some glyphs_in_section =>
          match what with
          | DrawFull => Ok (fill_glyphs glyphs_in_section)
          | _ =>
              let total_section_len := py_sum_Q g_total_len glyphs_in_section in
              let total_section_len :=
                if Qeq_bool total_section_len 0 then 1%Q
                else total_section_len in
              let time_elapsed := (t - seg_start)%Q in
              let target_len := py_min total_section_len (time_elapsed * pps) in
              draw_glyphs target_len 0%Q glyphs_in_section
          end
      end
  end.

(** The operations [make_frame(t)] applies to the zeroed [reveal_mask]. *)
Definition reveal_mask (k : clip) (t : Q) : result (list paint) :=
  match segments k, segment_times k with
  | _ :: _, _ :: _ =>
      let* per_segment :=
        result_mapM (draw_segment (pps k) (glyph_sections k) t)
                    (segment_times k) in
      Ok (concat per_segment)
  | _, _ => Ok [FillAll]
  end.

Section Frame.
Variable filled : list point -> point -> bool.
Variable stroke : list point -> Z -> point -> bool.

Definition make_frame (k : clip) (t : Q) : result (point -> color) :=
  let* ops := reveal_mask k t in
  Ok (fun p => reverse_channels
                 (composite filled stroke (V8.background (is_dark_bg k))
                            (full_canvas_ref k) ops p)).
End Frame.

Section Generate.
Context {image : Type} `{OpenCV image}.

(** [_get_cleaned_image(img_bgr)] of V8.1: Otsu for the solid style only. *)
Definition _get_cleaned_image (style : string) (gray : image) : bool * image :=
  let mean_brightness := np_mean (gray_values gray) in
  let is_dark_bg := below_127 mean_brightness in
  let thresh_type := V8.thresh_type_of is_dark_bg in
  if String.eqb style "solid" then
    let blurred := GaussianBlur gray (3, 3) 0 in
    (is_dark_bg, threshold_otsu blurred 0 255 thresh_type)
  else
    let binary_sketch := adaptiveThreshold gray 255 thresh_type 11 2 in
    (is_dark_bg, morph_open binary_sketch (2, 2)).

(** [generate], from the resized image and its grayscale conversion up to
    the closure [make_frame] is built from; the glyphs are extracted as in
    V8. *)
Definition generate (style : string) (pps : Q) (segments : list segment)
           (original_resized : point -> color) (gray : image) : result clip :=
  let '(new_w, new_h) := shape gray in
  let y_offset := (height - new_h) / 2 in
  let x_offset := (width - new_w) / 2 in
  let '(is_dark_bg, ink_map) := _get_cleaned_image style gray in
  let glyphs := omap (V8.glyph_of_row ink_map x_offset y_offset)
                     (connectedComponentsWithStats ink_map) in
  let* glyph_sections := assign_sections new_w segments glyphs in
  let* glyph_sections := process_sections glyph_sections in
  let full_canvas_ref :=
    V8.canvas_of is_dark_bg new_w new_h x_offset y_offset ink_map
                 original_resized in
  Ok (Clip segments is_dark_bg pps glyph_sections (segment_times_of segments)
           full_canvas_ref).
End Generate.

End V8_1_engine.

(** ** The callers: from the narration of a beat to the segments *)

(** [process_video_request] of [generate_topic_video_v8.py], blocks
    [# C. Generate Audio & Segments] and [# D. Combine Audio]. What the
    text-to-speech service and the file system give is an input: a part
    carries the duration of the [AudioFileClip] read from its file. *)
Module TopicVideoV8.

(** A part of a beat: the keys read with [part.get], and [ac.duration];
    [ac_duration] is [None] when [AudioFileClip(p_audio_path)] raises. *)
Record part : Type := Part {
  audio_script : option string;
  position : option Z;
  ac_duration : option Q
}.

(** [for p_idx, part in enumerate(parts):]; an audio clip is kept as its
    duration. *)
Fixpoint parts_loop (p_idx : Z) (parts : list part)
         (audio_clips : list Q) (segments : list segment)
  : list Q * list segment :=
  match parts with
  | [] => (audio_clips, segments)
  | part :: rest =>
      let p_script := default "" (audio_script part) in
      let p_position := default p_idx (position part) in
      if String.eqb p_script "" then
        parts_loop (p_idx + 1) rest audio_clips segments
      else
        match ac_duration part with
        | Some duration =>
            parts_loop (p_idx + 1) rest
                       (audio_clips ++ [duration])
                       (segments
                          ++ [Segment (Some p_position)
                                      (Some (duration + (3 # 10))%Q) None])
        | None => parts_loop (p_idx + 1) rest audio_clips segments
        end
  end.

(** [concatenate_audioclips(audio_clips).duration]: the clips play one
    after the other. *)
Definition concatenate_audioclips (audio_clips : list Q) : Q :=
  py_sum_Q (fun duration => duration) audio_clips.

(** The [segments] and the [duration] handed to [DoodleVideoGeneratorV8];
    [None] is the [continue] of a beat without audio. *)
Definition beat_timing (parts : list part) : option (list segment * Q) :=
  let '(audio_clips, segments) := parts_loop 0 parts [] [] in
  match audio_clips with
  | [] => None
  | _ :: _ =>
      let full_audio := concatenate_audioclips audio_clips in
      let total_duration := (full_audio + 1)%Q in
      Some (segments, total_duration)
  end.

End TopicVideoV8.

(** [process_video_request] of [generate_topic_video_v6.py], blocks
    [# C. Generate Audio & Build Segments] and [# D. Combine Audio];
    [bboxes] is the dict [get_bboxes_for_parts] returns, from the step ids
    as strings to the boxes. *)
Module TopicVideoV6.

(** A part of a beat: its [step_id] when it has one, and [ac.duration],
    [None] when [AudioFileClip(p_audio_path)] raises. *)
Record part : Type := Part {
  step_id : option Z;
  ac_duration : option Q
}.

(** [for p_idx, part in enumerate(parts):]; the box of a step is
    [bboxes.get(str(step_id)) or bboxes.get(step_id)], and the keys of
    [bboxes] are strings. *)
Fixpoint parts_loop (bboxes : gmap string (Q * Q * Q * Q)) (p_idx : Z)
         (parts : list part) (audio_clips : list Q) (segments : list segment)
  : list Q * list segment :=
  match parts with
  | [] => (audio_clips, segments)
  | part :: rest =>
      let step_id := default (p_idx + 1) (step_id part) in
      match ac_duration part with
      | Some duration =>
          let bbox := bboxes !! pretty step_id in
          parts_loop bboxes (p_idx + 1) rest
                     (audio_clips ++ [duration])
                     (segments
                        ++ [Segment None (Some (duration + (5 # 10))%Q) bbox])
      | None => parts_loop bboxes (p_idx + 1) rest audio_clips segments
      end
  end.

(** The [segments] and the [duration] handed to [DoodleVideoGeneratorV6];
    [None] is the [continue] of a beat without audio. *)
Definition beat_timing (bboxes : gmap string (Q * Q * Q * Q))
           (parts : list part) : option (list segment * Q) :=
  let '(audio_clips, segments) := parts_loop bboxes 0 parts [] [] in
  match audio_clips with
  | [] => None
  | _ :: _ =>
      let full_audio := TopicVideoV8.concatenate_audioclips audio_clips in
      let total_duration := (full_audio + 1)%Q in
      Some (segments, total_duration)
  end.

End TopicVideoV6.

(** * Vocabulary of the properties *)

(** ** Word merge *)


(** An axis-aligned box [(x, y, w, h)]. *)
Definition box : Type := Z * Z * Z * Z.

Definition bbox (g : glyph) : box := (g_x g, g_y g, g_w g, g_h g).

Definition box_inside (inner outer : box) : Prop :=
  let '(x1, y1, w1, h1) := inner in
  let '(x2, y2, w2, h2) := outer in
  x2 <= x1 /\ y2 <= y1 /\ x1 + w1 <= x2 + w2 /\ y1 + h1 <= y2 + h2.

(** [b] contains the boxes of all [members] and lies inside every box
    that does. *)
Definition minimal_box (b : box) (members : list glyph) : Prop :=
  Forall (fun g => box_inside (bbox g) b) members
  /\ forall b' : box,
      Forall (fun g => box_inside (bbox g) b') members -> box_inside b b'.

(** [unit] is what the merge makes of the glyphs [members]. *)
Definition absorbed (unit : glyph) (members : list glyph) : Prop :=
  members <> []
  /\ g_contours unit = concat (map g_contours members)
  /\ g_area unit = sum_Z g_area members
  /\ (g_total_len unit == sum_Q g_total_len members)%Q
  /\ minimal_box (bbox unit) members.

(** The glyphs each unit of the merge loop has absorbed: [merge_loop] run
    on the member lists. *)
Fixpoint group_loop (th : MergeWords.thresholds) (groups : list (list glyph))
         (current_meta : glyph) (members : list glyph) (rest : list glyph)
  : list (list glyph) :=
  match rest with
  | [] => groups ++ [members]
  | next_g :: rest' =>
      if MergeWords.vertical_match th current_meta next_g
         && MergeWords.horizontal_match th current_meta next_g
      then group_loop th groups (MergeWords.absorb current_meta next_g)
                      (members ++ [next_g]) rest'
      else group_loop th (groups ++ [members]) next_g [next_g] rest'
  end.

Definition word_groups (th : MergeWords.thresholds) (glyphs : list glyph)
  : list (list glyph) :=
  match sorted MergeWords.lt_yx (MergeWords.candidates_of th glyphs) with
  | [] => map (fun g => [g]) (MergeWords.bypass_of th glyphs)
  | c0 :: rest =>
      group_loop th [] c0 [c0] rest
      ++ map (fun g => [g]) (MergeWords.bypass_of th glyphs)
  end.


(** ** Section assignment *)

(** The strip a glyph falls in, as the design states it:
    [min(floor(center_x / (image_width / n)), n - 1)]. *)
Definition strip_index (image_width n : Z) (g : glyph) : Z :=
  let center_x := (inject_Z (g_x g) + inject_Z (g_w g) / 2)%Q in
  Z.min (Qfloor (center_x / (inject_Z image_width / inject_Z n))) (n - 1).

(** The glyphs of [glyphs] whose strip is [k], in their order. *)
Definition strip_members (image_width n k : Z) (glyphs : list glyph)
  : list glyph :=
  filter (fun g => strip_index image_width n g = k) glyphs.

(** ** The reveal mask *)

(** [total_glyphs * seg_progress] at time [t] in a segment from [s] to [e]
    holding [n] units. *)
Definition glyph_float (n : Z) (s e t : Q) : Q :=
  (inject_Z n * ((t - s) / (e - s)))%Q.

(** What [ops2] keeps of [ops1]: every fill, and of every traced prefix
    either a trace at least as long or the fill of its contour. *)
Definition ops_grow (ops1 ops2 : list paint) : Prop :=
  (forall pts, DrawFilled pts ∈ ops1 -> DrawFilled pts ∈ ops2)
  /\ (FillAll ∈ ops1 -> FillAll ∈ ops2)
  /\ (forall pts th, Polyline pts th ∈ ops1 ->
        exists full k,
          pts = py_prefix full k
          /\ (DrawFilled full ∈ ops2
              \/ exists k', k <= k' /\ Polyline (py_prefix full k') th ∈ ops2)).

(** [op] fills, or traces a prefix of, a contour of one of [units]. *)
Definition paints_unit_of (thickness : Z) (units : list glyph) (op : paint)
  : Prop :=
  exists g c, g ∈ units /\ c ∈ g_contours g
              /\ (op = DrawFilled (c_pts c)
                  \/ exists k, 0 < k
                       /\ op = Polyline (py_prefix (c_pts c) k) thickness).

(** The operations that fill: everything but the traced polylines. *)
Definition is_fill (op : paint) : bool :=
  match op with
  | Polyline _ _ => false
  | DrawFilled _ | FillAll => true
  end.

(** A reference rasteriser for the two drawing primitives, on integer
    pixel centres: a filled contour covers its boundary and its interior
    (even-odd rule), an open polyline of a given thickness covers the
    pixels within half the thickness of one of its segments. *)
Definition near_segment (thickness : Z) (a b p : point) : bool :=
  let dx := fst b - fst a in
  let dy := snd b - snd a in
  let vx := fst p - fst a in
  let vy := snd p - snd a in
  let wx := fst p - fst b in
  let wy := snd p - snd b in
  let dd := dx * dx + dy * dy in
  let dot := vx * dx + vy * dy in
  if dot <=? 0 then 4 * (vx * vx + vy * vy) <=? thickness * thickness
  else if dd <=? dot then 4 * (wx * wx + wy * wy) <=? thickness * thickness
  else let cross := vx * dy - vy * dx in
       4 * (cross * cross) <=? thickness * thickness * dd.

Fixpoint cv_stroke (pts : list point) (thickness : Z) (p : point) : bool :=
  match pts with
  | [] => false
  | a :: rest =>
      match rest with
      | [] => false
      | b :: _ => near_segment thickness a b p || cv_stroke rest thickness p
      end
  end.

Definition on_segment (a b p : point) : bool :=
  ((fst p - fst a) * (snd b - snd a) =? (snd p - snd a) * (fst b - fst a))
  && (Z.min (fst a) (fst b) <=? fst p) && (fst p <=? Z.max (fst a) (fst b))
  && (Z.min (snd a) (snd b) <=? snd p) && (snd p <=? Z.max (snd a) (snd b)).

(** The edge from [a] to [b] crosses the ray from [p] towards larger [x]. *)
Definition crosses_ray (a b p : point) : bool :=
  if (snd a <=? snd p) && (snd p <? snd b) then
    (fst p - fst a) * (snd b - snd a) <? (snd p - snd a) * (fst b - fst a)
  else if (snd b <=? snd p) && (snd p <? snd a) then
    (snd p - snd a) * (fst b - fst a) <? (fst p - fst a) * (snd b - snd a)
  else false.

Fixpoint edges_from (first : point) (pts : list point) : list (point * point) :=
  match pts with
  | [] => []
  | a :: rest =>
      match rest with
      | [] => [(a, first)]
      | b :: _ => (a, b) :: edges_from first rest
      end
  end.

Definition cv_filled (pts : list point) (p : point) : bool :=
  match pts with
  | [] => false
  | first :: _ =>
      let edges := edges_from first pts in
      existsb (fun e => on_segment (fst e) (snd e) p) edges
      || Nat.odd (length (List.filter (fun e => crosses_ray (fst e) (snd e) p)
                                      edges))
  end.

(** A clip of two 2s segments whose first section holds one 11 x 11
    square glyph. *)
Definition square : glyph :=
  {| g_id := 1; g_x := 10; g_y := 10; g_w := 11; g_h := 11; g_area := 121;
     g_contours := [Contour [(10, 10); (10, 20); (20, 20); (20, 10)] 40];
     g_total_len := 40;
     g_center := ((31 # 2)%Q, (31 # 2)%Q) |}.

Definition two_segments : list segment :=
  [Segment (Some 0) (Some 2%Q) None; Segment (Some 1) (Some 2%Q) None].

Definition square_clip : V8.clip :=
  V8.Clip "normal" two_segments false {[ 0 := [square] ]}
          (segment_times_of two_segments) (fun _ => white).

(** ** The ink extractor *)

(** The image library that records its calls: no image it returns has
    ink, and no component is ever labelled. *)
Definition recorded_values (c : cv_call) : list Z :=
  match c with
  | Source _ values => values
  | _ => []
  end.

#[export] Instance recorded_calls : OpenCV cv_call := {|
  shape := cv_call_shape;
  gray_values := recorded_values;
  nonzero := fun _ _ => false;
  GaussianBlur := CallGaussianBlur;
  threshold_otsu := CallThresholdOtsu;
  adaptiveThreshold := CallAdaptiveThreshold;
  morph_open := CallMorphOpen;
  connectedComponentsWithStats := fun _ => [];
  findContours := fun _ _ => [];
  arcLength := fun _ => 0%Q
|}.

(** A 100 x 100 all-white grayscale image. *)
Definition all_white : cv_call :=
  Source (100, 100) (replicate (Z.to_nat 10000) 255).

(** ** Bounding-box assignment *)




(** ** Timing *)

(** [seg.get('duration', 3.0)] and the sum of the durations of a list of
    segments. *)
Definition duration_of (seg : segment) : Q := default 3%Q (seg_duration seg).

Definition total_duration (segments : list segment) : Q :=
  sum_Q duration_of segments.

(** The fills of the sections [0 .. n - 1], in that order. *)
Definition all_sections_filled (glyph_sections : gmap Z (list glyph)) (n : nat)
  : list paint :=
  concat (map (fun i => fill_glyphs (default [] (glyph_sections !! Z.of_nat i)))
              (seq 0 n)).

(** ** The orders, the bins and the rows *)

(** The squared distance between the centres of two glyphs. *)
Definition dist2 (a b : glyph) : Q :=
  let '(cx, cy) := g_center a in
  let '(dcx, dcy) := g_center b in
  ((cx - dcx) * (cx - dcx) + (cy - dcy) * (cy - dcy))%Q.

(** The mean of the [y] of the glyphs of a line. *)
Definition mean_y (line : list glyph) : Q :=
  (inject_Z (sum_Z g_y line) / inject_Z (Z.of_nat (length line)))%Q.

(** Every glyph of a path is, among the glyphs from it on, one of the
    nearest to the glyph before it. *)
Fixpoint nearest_chain (current : glyph) (path : list glyph) : Prop :=
  match path with
  | [] => True
  | next :: rest =>
      Forall (fun c => (dist2 current next <= dist2 current c)%Q) (next :: rest)
      /\ nearest_chain next rest
  end.

(** [word] is what the merge makes of the run [members]: it absorbed them
    and keeps the id of the first. *)
Definition word_of (word : glyph) (members : list glyph) : Prop :=
  absorbed word members
  /\ exists first rest, members = first :: rest /\ g_id word = g_id first.

(** The lists of the bins [0 .. n - 1], one after the other. *)
Definition bins_in_order {A : Type} (n : nat) (bins : gmap Z (list A))
  : list A :=
  concat (map (fun i => default [] (bins !! Z.of_nat i)) (seq 0 n)).

(** The keys of the bins are [0 .. n - 1]. *)
Definition keys_upto {A : Type} (n : nat) (bins : gmap Z (list A)) : Prop :=
  forall i : Z, is_Some (bins !! i) <-> 0 <= i < Z.of_nat n.

(** The boxes the assignment works with: the valid ones, by segment. *)
Definition valid_boxes (width height : Z) (segments : list segment)
  : list V6.meta :=
  omap (fun m => m) (V6.seg_meta_from width height 0 segments).

(** The squared distance from a point to the centre of a box. *)
Definition centre_dist2 (gx gy : Q) (m : V6.meta) : Q :=
  let '(cx, cy) := V6.m_center m in
  ((gx - cx) * (gx - cx) + (gy - cy) * (gy - cy))%Q.

(** Segment [i] is where the point [(gx, gy)] belongs: its box is a
    smallest one among the boxes that hold the point; or no box holds the
    point and the centre of its box is a nearest one; or there is no box
    at all and [i] is 0. *)
Definition routed (boxes : list V6.meta) (gx gy : Q) (i : Z) : Prop :=
  (exists m, m ∈ boxes /\ V6.m_idx m = i /\ V6.inside gx gy m = true
             /\ Forall (fun m' => V6.inside gx gy m' = true ->
                                  (V6.m_area m <= V6.m_area m')%Q) boxes)
  \/ (Forall (fun m' => V6.inside gx gy m' = false) boxes
      /\ exists m, m ∈ boxes /\ V6.m_idx m = i
                   /\ Forall (fun m' => (centre_dist2 gx gy m
                                         <= centre_dist2 gx gy m')%Q) boxes)
  \/ (boxes = [] /\ i = 0).

(** No box holds the reference point of the glyph. *)
Definition outside_all (boxes : list V6.meta) (g : V6.glyph) : Prop :=
  Forall (fun m' => V6.inside (V6.glyph_gx g) (V6.glyph_gy g) m' = false) boxes.

(** The units V6 makes of the bin of segment [i]. *)
Definition units_of_bin (x_offset y_offset : Z)
           (segment_glyph_map : gmap Z (list V6.glyph)) (i : Z)
  : list V5.glyph_unit :=
  map (V6.unit_of x_offset y_offset)
      (V6._sort_glyphs_in_segment (default [] (segment_glyph_map !! i))).

(** The band of the grid a glyph of V5 falls in:
    [(y + h // 2) // row_height]. *)
Definition band_of (row_height : Z) (g : V5.glyph) : Z :=
  (V5.r_y g + V5.r_h g / 2) / row_height.

(** An image library with one picture: 100 x 100, bright, with one
    component, the square of [square]. *)
#[export] Instance one_square : OpenCV unit := {|
  shape := fun _ => (100, 100);
  gray_values := fun _ => [200];
  nonzero := fun _ p => cv_filled [(10, 10); (10, 20); (20, 20); (20, 10)] p;
  GaussianBlur := fun img _ _ => img;
  threshold_otsu := fun img _ _ _ => img;
  adaptiveThreshold := fun img _ _ _ _ => img;
  morph_open := fun img _ => img;
  connectedComponentsWithStats := fun _ => [StatsRow 1 10 10 11 11 121];
  findContours := fun _ _ => [[(10, 10); (10, 20); (20, 20); (20, 10)]];
  arcLength := fun _ => 40%Q
|}.

(** Every cached mask is the fill of the contours before its index. *)
Definition cache_ok (all_contours : list (list point))
           (cached_masks : gmap Z (list paint)) : Prop :=
  forall idx mask,
    cached_masks !! idx = Some mask ->
    0 <= idx <= Z.of_nat (length all_contours)
    /\ mask = map DrawFilled (take (Z.to_nat idx) all_contours).



(** ** The narration and the windows *)

(** Every segment lasts as long as its audio clip and a pause. *)
Definition paused (pause : Q) (audio_clips : list Q)
           (segments : list segment) : Prop :=
  Forall2 (fun duration seg => seg_duration seg = Some (duration + pause)%Q)
          audio_clips segments.

(** A beat of four narrated parts of two seconds each. *)
Definition four_parts : list TopicVideoV8.part :=
  [TopicVideoV8.Part (Some "one") (Some 0) (Some 2%Q);
   TopicVideoV8.Part (Some "two") (Some 1) (Some 2%Q);
   TopicVideoV8.Part (Some "three") (Some 2) (Some 2%Q);
   TopicVideoV8.Part (Some "four") (Some 3) (Some 2%Q)].


(** * Properties *)

(** ** Arithmetic of the primitives *)

Lemma Qltb_lt (a b : Q) : Qltb a b = true <-> (a < b)%Q.
Proof.
  unfold Qltb. rewrite negb_true_iff. split.
  - intros Hle. apply Qnot_le_lt. intros Hba.
    apply Qle_bool_iff in Hba. congruence.
  - intros Hlt. destruct (Qle_bool b a) eqn:E; [|reflexivity].
    apply Qle_bool_iff in E. exfalso. apply (Qlt_not_le _ _ Hlt E).
Qed.

Lemma Qltb_ge (a b : Q) : Qltb a b = false <-> (b <= a)%Q.
Proof.
  unfold Qltb. rewrite negb_false_iff. apply Qle_bool_iff.
Qed.

Lemma py_div_ok (a b : Q) : ~ (b == 0)%Q -> py_div a b = Ok (a / b)%Q.
Proof.
  intros Hb. unfold py_div. destruct (Qeq_bool b 0) eqn:E; [|reflexivity].
  apply Qeq_bool_iff in E. contradiction.
Qed.

(** ** The stable sort is a permutation *)

Section SortingFacts.
Context {A : Type} (lt : A -> A -> bool).

Lemma insert_sorted_perm (a : A) (l : list A) :
    insert_sorted lt a l ≡ₚ a :: l.
Proof.
    induction l as [|b l IH]; simpl; [reflexivity|].
    destruct (lt a b); [reflexivity|].
    rewrite IH. apply Permutation_swap.
Qed.

Lemma sorted_acc_perm (l acc : list A) :
    fold_left (fun acc a => insert_sorted lt a acc) l acc ≡ₚ acc ++ l.
Proof.
    revert acc. induction l as [|a l IH]; intros acc; simpl.
    - by rewrite app_nil_r.
    - rewrite IH, insert_sorted_perm.
      by rewrite (Permutation_middle acc l a).
Qed.

Lemma sorted_perm (l : list A) : sorted lt l ≡ₚ l.
Proof. unfold sorted. by rewrite sorted_acc_perm. Qed.

Lemma sorted_nil_inv (l : list A) : sorted lt l = [] -> l = [].
Proof.
    intros E. apply Permutation_nil. by rewrite <- E, sorted_perm.
Qed.
End SortingFacts.

(** ** Sums over permuted lists *)

Lemma sum_Z_app {A : Type} (f : A -> Z) (l1 l2 : list A) :
  sum_Z f (l1 ++ l2) = sum_Z f l1 + sum_Z f l2.
Proof. induction l1 as [|a l1 IH]; simpl; [reflexivity|]. rewrite IH. lia. Qed.

Lemma sum_Q_app {A : Type} (f : A -> Q) (l1 l2 : list A) :
  (sum_Q f (l1 ++ l2) == sum_Q f l1 + sum_Q f l2)%Q.
Proof. induction l1 as [|a l1 IH]; simpl; [ring|]. rewrite IH. ring. Qed.

Lemma sum_Z_perm {A : Type} (f : A -> Z) (l1 l2 : list A) :
  l1 ≡ₚ l2 -> sum_Z f l1 = sum_Z f l2.
Proof. induction 1; simpl; lia. Qed.

Lemma sum_Q_perm {A : Type} (f : A -> Q) (l1 l2 : list A) :
  l1 ≡ₚ l2 -> (sum_Q f l1 == sum_Q f l2)%Q.
Proof.
  induction 1 as [|a l1 l2 _ IH|a b l|l1 l2 l3 _ IH1 _ IH2]; simpl.
  - reflexivity.
  - by rewrite IH.
  - ring.
  - by rewrite IH1.
Qed.

Lemma sum_Z_concat {A B : Type} (f : B -> Z) (g : A -> list B) (l : list A) :
  sum_Z f (concat (map g l)) = sum_Z (fun a => sum_Z f (g a)) l.
Proof.
  induction l as [|a l IH]; simpl; [reflexivity|]. by rewrite sum_Z_app, IH.
Qed.

(** ** Word merge: what a unit has absorbed *)

Section MergeFacts.
Variable th : MergeWords.thresholds.

Lemma absorbed_singleton (g : glyph) : absorbed g [g].
Proof.
    unfold absorbed, minimal_box, bbox; simpl. repeat split.
    - discriminate.
    - by rewrite app_nil_r.
    - lia.
    - ring.
    - constructor; [simpl; lia | constructor].
    - intros [[[x' y'] w'] h'] Hall. by inversion Hall.
Qed.

Lemma absorbed_step (current_meta next_g : glyph) (members : list glyph) :
    absorbed current_meta members ->
    absorbed (MergeWords.absorb current_meta next_g) (members ++ [next_g]).
Proof.
    intros (Hne & Hc & Ha & Hl & Hin & Hmin).
    unfold absorbed, minimal_box, bbox in *; simpl. repeat split.
    - destruct members; discriminate.
    - rewrite map_app, concat_app, Hc. simpl. by rewrite app_nil_r.
    - rewrite sum_Z_app, Ha. simpl. lia.
    - rewrite sum_Q_app, Hl. simpl. ring.
    - apply Forall_app. split.
      + eapply Forall_impl; [exact Hin|]. intros g Hg. simpl in *. lia.
      + constructor; [simpl; lia | constructor].
    - intros [[[x' y'] w'] h'] Hall. apply Forall_app in Hall.
      destruct Hall as [Hm Hn]. specialize (Hmin (x', y', w', h') Hm).
      inversion Hn as [|? ? Hn1 _]; subst. simpl in *. lia.
Qed.

Lemma group_loop_absorbed (rest : list glyph) :
    forall merged groups current_meta members,
      Forall2 absorbed merged groups ->
      absorbed current_meta members ->
      Forall2 absorbed (MergeWords.merge_loop th merged current_meta rest)
              (group_loop th groups current_meta members rest).
Proof.
    induction rest as [|next_g rest IH]; intros merged groups cur members HF Hc;
      simpl.
    - apply Forall2_app; [exact HF|]. by constructor.
    - destruct (MergeWords.vertical_match th cur next_g
                && MergeWords.horizontal_match th cur next_g).
      + apply IH; [exact HF|]. by apply absorbed_step.
      + apply IH; [|apply absorbed_singleton].
        apply Forall2_app; [exact HF|]. by constructor.
Qed.

Lemma group_loop_concat (rest : list glyph) :
    forall groups current_meta members,
      concat (group_loop th groups current_meta members rest)
      = concat groups ++ members ++ rest.
Proof.
    induction rest as [|next_g rest IH]; intros groups cur members; simpl.
    - by rewrite concat_app; simpl; rewrite !app_nil_r.
    - destruct (MergeWords.vertical_match th cur next_g
                && MergeWords.horizontal_match th cur next_g).
      + rewrite IH. by rewrite <- app_assoc.
      + rewrite IH, concat_app. simpl. by rewrite app_nil_r, <- app_assoc.
Qed.

Lemma singletons_absorbed (l : list glyph) :
    Forall2 absorbed l (map (fun g => [g]) l).
Proof.
    induction l; simpl; constructor; [apply absorbed_singleton | assumption].
Qed.

Lemma concat_singletons (l : list glyph) : concat (map (fun g => [g]) l) = l.
Proof. induction l; simpl; congruence. Qed.

Lemma candidates_bypass_perm (glyphs : list glyph) :
    MergeWords.candidates_of th glyphs ++ MergeWords.bypass_of th glyphs
    ≡ₚ glyphs.
Proof. apply filter_app_complement. Qed.

Lemma word_groups_absorbed (glyphs : list glyph) :
    Forall2 absorbed (MergeWords._safely_merge_words th glyphs)
            (word_groups th glyphs).
Proof.
    unfold MergeWords._safely_merge_words, word_groups.
    destruct glyphs as [|g0 glyphs]; [simpl; constructor|].
    destruct (sorted MergeWords.lt_yx (MergeWords.candidates_of th (g0 :: glyphs)))
      as [|c0 rest].
    - apply singletons_absorbed.
    - apply Forall2_app; [|apply singletons_absorbed].
      apply group_loop_absorbed; [constructor | apply absorbed_singleton].
Qed.

Lemma word_groups_perm (glyphs : list glyph) :
    concat (word_groups th glyphs) ≡ₚ glyphs.
Proof.
    unfold word_groups.
    destruct (sorted MergeWords.lt_yx (MergeWords.candidates_of th glyphs))
      as [|c0 rest] eqn:E.
    - apply sorted_nil_inv in E. rewrite concat_singletons.
      rewrite <- (candidates_bypass_perm glyphs) at 2. by rewrite E.
    - rewrite concat_app, concat_singletons, group_loop_concat. simpl.
      etrans; [|apply candidates_bypass_perm].
      assert (c0 :: rest ≡ₚ MergeWords.candidates_of th glyphs) as <-
          by (rewrite <- E; apply sorted_perm).
      reflexivity.
Qed.

Lemma absorbed_contours (units : list glyph) (groups : list (list glyph)) :
    Forall2 absorbed units groups ->
    concat (map g_contours units) = concat (map g_contours (concat groups)).
Proof.
    induction 1 as [|u grp units groups (_ & Hc & _) _ IH]; simpl;
      [reflexivity|].
    by rewrite map_app, concat_app, IH, Hc.
Qed.

Lemma absorbed_area (units : list glyph) (groups : list (list glyph)) :
    Forall2 absorbed units groups ->
    sum_Z g_area units = sum_Z g_area (concat groups).
Proof.
    induction 1 as [|u grp units groups (_ & _ & Ha & _) _ IH]; simpl;
      [reflexivity|].
    rewrite sum_Z_app, IH, Ha. reflexivity.
Qed.

Lemma absorbed_total_len (units : list glyph) (groups : list (list glyph)) :
    Forall2 absorbed units groups ->
    (sum_Q g_total_len units == sum_Q g_total_len (concat groups))%Q.
Proof.
    induction 1 as [|u grp units groups (_ & _ & _ & Hl & _) _ IH]; simpl;
      [reflexivity|].
    rewrite sum_Q_app, IH, Hl. reflexivity.
Qed.
End MergeFacts.

Lemma concat_map_perm {A B : Type} (f : A -> list B) (l1 l2 : list A) :
  l1 ≡ₚ l2 -> concat (map f l1) ≡ₚ concat (map f l2).
Proof.
  induction 1 as [|a l1 l2 _ IH|a b l|l1 l2 l3 _ IH1 _ IH2]; simpl.
  - reflexivity.
  - by rewrite IH.
  - rewrite !app_assoc. apply Permutation_app_tail, Permutation_app_comm.
  - by rewrite IH1.
Qed.

(** C10. The word merge conserves ink: the merged list has the same total
    area, the same total contour length and the same contours as the input
    list, and every merged unit is the union of the glyphs it absorbed,
    with the smallest axis-aligned box around their boxes as its box. *)
Theorem merge_words_conserves_ink
        (th : MergeWords.thresholds) (glyphs : list glyph) :
  let merged := MergeWords._safely_merge_words th glyphs in
  sum_Z g_area merged = sum_Z g_area glyphs
  /\ (sum_Q g_total_len merged == sum_Q g_total_len glyphs)%Q
  /\ concat (map g_contours merged) ≡ₚ concat (map g_contours glyphs)
  /\ exists groups : list (list glyph),
      concat groups ≡ₚ glyphs /\ Forall2 absorbed merged groups.
Proof.
  intros merged.
  pose proof (word_groups_absorbed th glyphs) as HF. fold merged in HF.
  pose proof (word_groups_perm th glyphs) as HP.
  repeat split.
  - rewrite (absorbed_area _ _ HF). by apply sum_Z_perm.
  - rewrite (absorbed_total_len _ _ HF). by apply sum_Q_perm.
  - rewrite (absorbed_contours _ _ HF). by apply concat_map_perm.
  - exists (word_groups th glyphs). by split.
Qed.

(** ** Word merge: when the accumulator takes the next glyph *)



(** ** Popping and indexing *)

Lemma py_pop_perm {A : Type} (l : list A) (i : Z) (a : A) (r : list A) :
  py_pop l i = Ok (a, r) -> l ≡ₚ a :: r.
Proof.
  unfold py_pop.
  set (j := if i <? 0 then i + Z.of_nat (length l) else i).
  destruct ((j <? 0) || (Z.of_nat (length l) <=? j)); [discriminate|].
  destruct (l !! Z.to_nat j) as [b|] eqn:E; [|discriminate].
  intros [= <- <-]. rewrite <- (take_drop_middle l _ b E) at 1.
  symmetry. apply Permutation_middle.
Qed.

Lemma py_pop_length {A : Type} (l : list A) (i : Z) (a : A) (r : list A) :
  py_pop l i = Ok (a, r) -> length l = S (length r).
Proof.
  intros E. apply py_pop_perm in E. by rewrite E.
Qed.

Lemma py_pop_in_range {A : Type} (l : list A) (i : Z) :
  - Z.of_nat (length l) <= i < Z.of_nat (length l) ->
  exists a r, py_pop l i = Ok (a, r).
Proof.
  intros Hi. unfold py_pop.
  set (j := if i <? 0 then i + Z.of_nat (length l) else i).
  assert (0 <= j < Z.of_nat (length l)) as Hj
      by (subst j; destruct (Z.ltb_spec i 0); lia).
  destruct (Z.ltb_spec j 0); [lia|].
  destruct (Z.leb_spec (Z.of_nat (length l)) j); [lia|]. simpl.
  destruct (lookup_lt_is_Some_2 l (Z.to_nat j)) as [b ->]; [lia|]. eauto.
Qed.

Lemma py_index_in_range {A : Type} (l : list A) (i : nat) :
  (i < length l)%nat -> exists a, py_index l i = Ok a /\ l !! i = Some a.
Proof.
  intros Hi. unfold py_index.
  destruct (lookup_lt_is_Some_2 l i Hi) as [a Ha]. rewrite Ha. eauto.
Qed.

Lemma py_getitem_in_range {A : Type} (l : list A) (i : Z) :
  0 <= i < Z.of_nat (length l) ->
  exists a, py_getitem l i = Ok a /\ l !! Z.to_nat i = Some a.
Proof.
  intros Hi. unfold py_getitem.
  destruct (Z.ltb_spec i 0); [lia|].
  destruct (Z.ltb_spec i 0); [lia|].
  destruct (Z.leb_spec (Z.of_nat (length l)) i); [lia|]. cbn [orb].
  apply py_index_in_range. lia.
Qed.

(** ** Nearest-neighbour pen path (V7.3) *)

Lemma argmax_area_range (l : list glyph) :
  forall best_i best_v i,
    (best_i < i)%nat ->
    (V7_3.argmax_area best_i best_v i l < i + length l)%nat.
Proof.
  induction l as [|g l IH]; intros best_i best_v i Hb; simpl; [lia|].
  destruct (best_v <? g_area g).
  - specialize (IH i (g_area g) (S i)). lia.
  - specialize (IH best_i best_v (S i)). lia.
Qed.

Lemma closest_range (cx cy : Q) (unvisited : list glyph) :
  forall best_idx min_dist i,
    -1 <= best_idx < i ->
    -1 <= V7_3.closest cx cy best_idx min_dist i unvisited
    < i + Z.of_nat (length unvisited).
Proof.
  induction unvisited as [|cand rest IH]; intros best_idx min_dist i Hb;
    simpl; [lia|].
  destruct (g_center cand) as [dcx dcy].
  match goal with |- context [if ?c then _ else _] => destruct c end.
  - match goal with
    | |- context [V7_3.closest cx cy i ?m (i + 1) rest] =>
        specialize (IH i m (i + 1))
    end. lia.
  - specialize (IH best_idx min_dist (i + 1)). lia.
Qed.

Lemma greedy_perm (fuel : nat) :
  forall current unvisited ordered,
    (length unvisited <= fuel)%nat ->
    exists out, V7_3.greedy fuel current unvisited ordered = Ok out
                /\ out ≡ₚ ordered ++ unvisited.
Proof.
  induction fuel as [|fuel IH]; intros current unvisited ordered Hlen.
  - destruct unvisited; [|simpl in Hlen; lia].
    exists ordered. simpl. by rewrite app_nil_r.
  - destruct unvisited as [|u unvisited].
    { exists ordered. simpl. by rewrite app_nil_r. }
    cbn [V7_3.greedy]. destruct (g_center current) as [cx cy].
    set (best_idx := V7_3.closest cx cy (-1) None 0 (u :: unvisited)).
    pose proof (closest_range cx cy (u :: unvisited) (-1) None 0) as Hr.
    fold best_idx in Hr.
    destruct (py_pop_in_range (u :: unvisited) best_idx) as (a & r & E);
      [simpl length in *; lia|].
    rewrite E. cbn [rbind].
    pose proof (py_pop_length _ _ _ _ E) as Hl.
    destruct (IH a r (ordered ++ [a])) as (out & Eo & Hp);
      [simpl in Hl, Hlen; lia|].
    exists out. split; [exact Eo|].
    rewrite Hp, (py_pop_perm _ _ _ _ E), <- app_assoc. reflexivity.
Qed.

Lemma nearest_neighbour_perm (glyphs : list glyph) :
  exists ordered, V7_3._sort_contours_by_path glyphs = Ok ordered
                  /\ ordered ≡ₚ glyphs.
Proof.
  destruct glyphs as [|g0 rest]; [by exists []|].
  cbn [V7_3._sort_contours_by_path].
  set (start_idx := V7_3.argmax_area 0 (g_area g0) 1 rest).
  pose proof (argmax_area_range rest 0%nat (g_area g0) 1%nat) as Hr.
  fold start_idx in Hr.
  destruct (py_index_in_range (g0 :: rest) start_idx) as (start & Es & Hs);
    [simpl; lia|].
  rewrite Es. cbn [rbind].
  destruct (py_pop_in_range (g0 :: rest) (Z.of_nat start_idx))
    as (a & r & E); [simpl length; lia|].
  rewrite E. cbn [rbind snd].
  assert (a = start) as ->.
  { revert E. unfold py_pop.
    destruct (Z.of_nat start_idx <? 0) eqn:En; [lia|].
    destruct ((Z.of_nat start_idx <? 0)
              || (Z.of_nat (length (g0 :: rest)) <=? Z.of_nat start_idx));
      [discriminate|].
    rewrite Nat2Z.id, Hs. by intros [= <- _]. }
  destruct (greedy_perm (length r) start r [start]) as (out & Eo & Hp);
    [lia|].
  exists out. split; [exact Eo|].
  rewrite Hp. simpl. symmetry. by apply py_pop_perm in E.
Qed.

(** ** Reading-order line clustering (V8, V8.1) *)

Lemma result_mapM_Forall2 {A B : Type} (f : A -> result B) (R : A -> B -> Prop)
      (l : list A) :
  Forall (fun a => exists b, f a = Ok b /\ R a b) l ->
  exists bs, result_mapM f l = Ok bs /\ Forall2 R l bs.
Proof.
  induction 1 as [|a l (b & Eb & Hb) _ (bs & Ebs & Hbs)]; simpl.
  - exists []. split; [reflexivity | constructor].
  - rewrite Eb. cbn [rbind]. rewrite Ebs. cbn [rbind].
    exists (b :: bs). split; [reflexivity | by constructor].
Qed.

Lemma line_avg_Z_ok (f : glyph -> Z) (line : list glyph) :
  line <> [] -> exists q, line_avg_Z f line = Ok q.
Proof.
  intros Hne. unfold line_avg_Z. rewrite py_div_ok; [eauto|].
  destruct line; [done|]. unfold Qeq. simpl. lia.
Qed.

Lemma line_avg_Q_ok (f : glyph -> Q) (line : list glyph) :
  line <> [] -> exists q, line_avg_Q f line = Ok q.
Proof.
  intros Hne. unfold line_avg_Q. rewrite py_div_ok; [eauto|].
  destruct line; [done|]. unfold Qeq. simpl. lia.
Qed.

Section LineClusteringFacts.
Variable matches : glyph -> list glyph -> result bool.
Hypothesis matches_ok :
    forall g line, line <> [] -> exists b, matches g line = Ok b.

Lemma find_line_ok (g : glyph) (lines : list (list glyph)) :
    forall idx,
      Forall (fun line => line <> []) lines ->
      exists best, find_line matches g lines idx = Ok best
                   /\ forall i, best = Some i ->
                                (idx <= i < idx + length lines)%nat.
Proof.
    induction lines as [|line lines IH]; intros idx Hne; simpl.
    - exists None. split; [reflexivity | discriminate].
    - inversion Hne as [|? ? Hl Hls]; subst.
      destruct (matches_ok g line Hl) as [b ->]. cbn [rbind].
      destruct b.
      + exists (Some idx). split; [reflexivity|]. intros i [= <-]. lia.
      + destruct (IH (S idx) Hls) as (best & -> & Hb).
        exists best. split; [reflexivity|]. intros i Hi.
        specialize (Hb i Hi). lia.
Qed.

Lemma alter_append_concat (g : glyph) (lines : list (list glyph)) (i : nat) :
    (i < length lines)%nat ->
    concat (alter (fun line => line ++ [g]) i lines) ≡ₚ g :: concat lines.
Proof.
    revert i. induction lines as [|line lines IH]; intros i Hi; simpl in Hi;
      [lia|].
    destruct i as [|i]; simpl.
    - rewrite <- app_assoc. simpl. symmetry. apply Permutation_middle.
    - etrans; [apply Permutation_app_head, IH; lia|].
      symmetry. apply Permutation_middle.
Qed.

Lemma alter_append_nonempty (g : glyph) (lines : list (list glyph)) (i : nat) :
    Forall (fun line => line <> []) lines ->
    Forall (fun line => line <> []) (alter (fun line => line ++ [g]) i lines).
Proof.
    intros H. revert i. induction H as [|line lines Hl Hls IH]; intros i.
    - constructor.
    - destruct i as [|i]; simpl; constructor.
      + intros E. by apply app_eq_nil in E as [_ [=]].
      + assumption.
      + exact Hl.
      + apply IH.
Qed.

Lemma cluster_lines_ok (y_sorted : list glyph) :
    forall lines,
      Forall (fun line => line <> []) lines ->
      exists lines', cluster_lines matches y_sorted lines = Ok lines'
                     /\ Forall (fun line => line <> []) lines'
                     /\ concat lines' ≡ₚ concat lines ++ y_sorted.
Proof.
    induction y_sorted as [|g y_sorted IH]; intros lines Hne; simpl.
    - exists lines. rewrite app_nil_r. auto.
    - destruct (find_line_ok g lines 0%nat Hne) as (best & -> & Hb).
      cbn [rbind]. destruct best as [i|].
      + specialize (Hb i eq_refl).
        destruct (IH (alter (fun line => line ++ [g]) i lines))
          as (lines' & E & Hne' & Hp); [by apply alter_append_nonempty|].
        exists lines'. repeat split; [exact E | exact Hne' |].
        rewrite Hp, alter_append_concat by lia.
        simpl. apply Permutation_middle.
      + destruct (IH (lines ++ [[g]])) as (lines' & E & Hne' & Hp).
        { apply Forall_app. split; [exact Hne|]. by constructor. }
        exists lines'. repeat split; [exact E | exact Hne' |].
        rewrite Hp, concat_app. simpl. by rewrite <- app_assoc.
Qed.

Lemma sort_lines_ok (lines : list (list glyph)) :
    Forall (fun line => line <> []) lines ->
    exists lines', sort_lines lines = Ok lines' /\ lines' ≡ₚ lines.
Proof.
    intros Hne. unfold sort_lines.
    destruct (result_mapM_Forall2
                (fun line => let* k := line_avg_Z g_y line in Ok (k, line))
                (fun line kl => snd kl = line) lines) as (keyed & -> & HF).
    { eapply Forall_impl; [exact Hne|]. intros line Hl. simpl.
      destruct (line_avg_Z_ok g_y line Hl) as [q ->]. cbn [rbind]. eauto. }
    cbn [rbind]. eexists. split; [reflexivity|].
    rewrite sorted_perm.
    clear Hne. induction HF as [|line kl lines keyed Hs _ IH]; simpl;
      [reflexivity|].
    by rewrite Hs, IH.
Qed.

Lemma flatten_lines_perm (lines : list (list glyph)) :
    flatten_lines lines ≡ₚ concat lines.
Proof.
    unfold flatten_lines. induction lines as [|line lines IH]; simpl;
      [reflexivity|].
    by rewrite sorted_perm, IH.
Qed.

Lemma concat_perm (l1 l2 : list (list glyph)) :
    l1 ≡ₚ l2 -> concat l1 ≡ₚ concat l2.
Proof.
    intros Hp. rewrite <- (map_id l1), <- (map_id l2).
    by apply concat_map_perm.
Qed.

Lemma reading_order_perm (glyphs : list glyph) :
    exists ordered, reading_order matches glyphs = Ok ordered
                    /\ ordered ≡ₚ glyphs.
Proof.
    unfold reading_order.
    destruct (cluster_lines_ok (sorted lt_y glyphs) []) as (lines & -> & Hne & Hp);
      [constructor|].
    cbn [rbind].
    destruct (sort_lines_ok lines Hne) as (lines' & -> & Hp').
    cbn [rbind]. eexists. split; [reflexivity|].
    rewrite flatten_lines_perm, (concat_perm _ _ Hp'), Hp. simpl.
    apply sorted_perm.
Qed.
End LineClusteringFacts.

Lemma V8_matches_ok (g : glyph) (line : list glyph) :
  line <> [] -> exists b, V8.matches g line = Ok b.
Proof.
  intros Hne. unfold V8.matches.
  destruct (line_avg_Z_ok g_y line Hne) as [q1 ->].
  destruct (line_avg_Z_ok g_h line Hne) as [q2 ->].
  destruct (line_avg_Q_ok (fun item => snd (g_center item)) line Hne)
    as [q3 ->].
  cbn [rbind]. eauto.
Qed.

Lemma V8_1_matches_ok (g : glyph) (line : list glyph) :
  line <> [] -> exists b, V8_1.matches g line = Ok b.
Proof.
  intros Hne. unfold V8_1.matches.
  destruct (line_avg_Q_ok (fun item => snd (g_center item)) line Hne)
    as [q3 ->].
  cbn [rbind]. eauto.
Qed.

Lemma line_clustering_perm (glyphs : list glyph) :
  exists ordered, V8._sort_contours_by_path glyphs = Ok ordered
                  /\ ordered ≡ₚ glyphs.
Proof.
  destruct glyphs as [|g0 rest]; [by exists []|].
  apply reading_order_perm, V8_matches_ok.
Qed.

Lemma macro_micro_perm (glyphs : list glyph) :
  exists ordered, V8_1._sort_contours_by_path glyphs = Ok ordered
                  /\ ordered ≡ₚ glyphs.
Proof.
  destruct glyphs as [|g0 rest]; [by exists []|].
  cbn [V8_1._sort_contours_by_path].
  destruct (reading_order_perm V8_1.matches V8_1_matches_ok
              (filter (fun g => ~ V8_1.is_macro g) (g0 :: rest)))
    as (micro & -> & Hp).
  cbn [rbind]. eexists. split; [reflexivity|].
  rewrite sorted_perm, Hp. apply filter_app_complement.
Qed.

(** ** Section assignment by vertical strips (V8) *)

Lemma py_int_floor (q : Q) : (0 <= q)%Q -> py_int q = Qfloor q.
Proof.
  destruct q as [n d]. unfold Qle, py_int, Qfloor. simpl. intros Hn.
  apply Z.quot_div_nonneg; lia.
Qed.

Lemma Qdiv_nonneg (a b : Q) : (0 <= a)%Q -> (0 < b)%Q -> (0 <= a / b)%Q.
Proof.
  intros Ha Hb. unfold Qdiv. apply Qmult_le_0_compat; [exact Ha|].
  apply Qlt_le_weak, Qinv_lt_0_compat, Hb.
Qed.

Lemma inject_Z_pos (z : Z) : 0 < z -> (0 < inject_Z z)%Q.
Proof. intros Hz. unfold Qlt. simpl. lia. Qed.

Lemma inject_Z_nonneg (z : Z) : 0 <= z -> (0 <= inject_Z z)%Q.
Proof. intros Hz. unfold Qle. simpl. lia. Qed.

Lemma center_x_nonneg (g : glyph) :
  0 <= g_x g -> 0 <= g_w g ->
  (0 <= inject_Z (g_x g) + inject_Z (g_w g) / 2)%Q.
Proof.
  intros Hx Hw.
  pose proof (inject_Z_nonneg _ Hx). pose proof (inject_Z_nonneg _ Hw).
  assert (0 <= inject_Z (g_w g) / 2)%Q by (apply Qdiv_nonneg; [assumption|lra]).
  lra.
Qed.

Section StripFacts.
Variables (new_w n : Z).
Hypothesis new_w_pos : 0 < new_w.
Hypothesis n_pos : 0 < n.

Let section_width : Q := (inject_Z new_w / inject_Z n)%Q.

Lemma section_width_pos : (0 < inject_Z new_w / inject_Z n)%Q.
Proof.
    unfold Qdiv. apply Qmult_lt_0_compat; [by apply inject_Z_pos|].
    by apply Qinv_lt_0_compat, inject_Z_pos.
Qed.

Lemma section_of_strip (g : glyph) :
    0 <= g_x g -> 0 <= g_w g ->
    V8.section_of section_width n g = Ok (strip_index new_w n g).
Proof.
    intros Hx Hw. unfold V8.section_of, strip_index, section_width.
    pose proof section_width_pos as Hsw.
    rewrite py_div_ok by (intros E; rewrite E in Hsw; by apply Qlt_irrefl in Hsw).
    cbn [rbind]. rewrite py_int_floor; [reflexivity|].
    apply Qdiv_nonneg; [by apply center_x_nonneg | exact Hsw].
Qed.

Lemma strip_index_range (g : glyph) :
    0 <= g_x g -> 0 <= g_w g -> 0 <= strip_index new_w n g <= n - 1.
Proof.
    intros Hx Hw. unfold strip_index.
    assert (0 <= Qfloor ((inject_Z (g_x g) + inject_Z (g_w g) / 2)
                         / (inject_Z new_w / inject_Z n)))
      as Hf.
    { change 0 with (Qfloor 0). apply Qfloor_resp_le.
      apply Qdiv_nonneg; [by apply center_x_nonneg | apply section_width_pos]. }
    lia.
Qed.

Lemma assign_loop_lookup (glyphs : list glyph) :
    forall m : gmap Z (list glyph),
      Forall (fun g => 0 <= g_x g /\ 0 <= g_w g) glyphs ->
      exists m', V8.assign_loop section_width n glyphs m = Ok m'
                 /\ forall k,
                     m' !! k = match strip_members new_w n k glyphs with
                               | [] => m !! k
                               | l => Some (default [] (m !! k) ++ l)
                               end.
Proof.
    induction glyphs as [|g glyphs IH]; intros m Hwf.
    - exists m. split; [reflexivity|]. intros k. reflexivity.
    - inversion Hwf as [|? ? [Hx Hw] Hwf']; subst.
      cbn [V8.assign_loop]. rewrite (section_of_strip g Hx Hw). cbn [rbind].
      set (idx := strip_index new_w n g).
      set (m1 := match m !! idx with
                 | Some _ => m
                 | None => <[idx:=[]]> m
                 end).
      assert (default [] (m1 !! idx) = default [] (m !! idx)) as Hd.
      { subst m1. destruct (m !! idx) eqn:E; [by rewrite E|].
        by rewrite lookup_insert_eq. }
      rewrite Hd.
      destruct (IH (<[idx := default [] (m !! idx) ++ [g]]> m1) Hwf')
        as (m' & -> & Hm').
      exists m'. split; [reflexivity|]. intros k. rewrite Hm'.
      unfold strip_members. destruct (decide (idx = k)) as [<-|Hne].
      + rewrite lookup_insert_eq. rewrite filter_cons_True by done. simpl.
        destruct (filter _ glyphs) as [|g' l'].
        * reflexivity.
        * by rewrite <- app_assoc.
      + rewrite lookup_insert_ne by done. rewrite filter_cons_False by done.
        assert (m1 !! k = m !! k) as ->; [|reflexivity].
        subst m1. destruct (m !! idx); [reflexivity|].
        by rewrite lookup_insert_ne.
Qed.
End StripFacts.



(** ** Every section is merged, then sequenced (V8) *)

Lemma Forall2_perm_l {A B : Type} (R : A -> B -> Prop) (l1 l2 : list A) :
  l1 ≡ₚ l2 ->
  forall k1, Forall2 R l1 k1 -> exists k2, k1 ≡ₚ k2 /\ Forall2 R l2 k2.
Proof.
  induction 1 as [|a l1 l2 _ IH|a b l|l1 l2 l3 _ IH1 _ IH2]; intros k1 HF.
  - inversion HF; subst. exists []. split; [reflexivity | constructor].
  - inversion HF as [|? y ? k Hy Hk]; subst.
    destruct (IH k Hk) as (k2 & Hp & HF2).
    exists (y :: k2). split; [by constructor | by constructor].
  - inversion HF as [|? y ? k Hy Hk]; subst.
    inversion Hk as [|? z ? k' Hz Hk']; subst.
    exists (z :: y :: k'). split; [apply Permutation_swap|].
    by repeat constructor.
  - destruct (IH1 k1 HF) as (k2 & Hp2 & HF2).
    destruct (IH2 k2 HF2) as (k3 & Hp3 & HF3).
    exists k3. split; [by etrans | exact HF3].
Qed.

Lemma Forall2_fst_eq {A B : Type} (R : A -> B -> Prop)
      (l : list (Z * A)) (k : list (Z * B)) :
  Forall2 (fun a b => fst b = fst a /\ R (snd a) (snd b)) l k ->
  k.*1 = l.*1.
Proof.
  induction 1 as [|a b l k [Hf _] _ IH]; [reflexivity|].
  rewrite !fmap_cons. by rewrite Hf, IH.
Qed.

Lemma Forall2_elem_l {A B : Type} (R : A -> B -> Prop)
      (l : list A) (k : list B) (a : A) :
  Forall2 R l k -> a ∈ l -> exists b, b ∈ k /\ R a b.
Proof.
  induction 1 as [|a' b l k Hab _ IH]; intros Hin.
  - by apply elem_of_nil in Hin.
  - apply elem_of_cons in Hin as [->|Hin].
    + exists b. split; [left | exact Hab].
    + destruct (IH Hin) as (b' & Hb' & HR). exists b'. split; [by right | exact HR].
Qed.

Lemma process_sections_ok (glyph_sections : gmap Z (list glyph)) :
  exists drawn : gmap Z (list glyph),
    V8.process_sections glyph_sections = Ok drawn
    /\ forall k,
        match glyph_sections !! k with
        | Some g_list =>
            exists units, drawn !! k = Some units
                          /\ units ≡ₚ V8._safely_merge_words g_list
        | None => drawn !! k = None
        end.
Proof.
  unfold V8.process_sections.
  destruct (result_mapM_Forall2 V8.process_section
              (fun a b => fst b = fst a
                          /\ snd b ≡ₚ V8._safely_merge_words (snd a))
              (map_to_list glyph_sections)) as (processed & -> & HF).
  { apply Forall_forall. intros [k g_list] _. unfold V8.process_section.
    destruct (line_clustering_perm (V8._safely_merge_words g_list))
      as (o & -> & Hp).
    cbn [rbind]. exists (k, o). by repeat split. }
  cbn [rbind]. eexists. split; [reflexivity|]. intros k.
  pose proof (Forall2_fst_eq
                (fun l units => units ≡ₚ V8._safely_merge_words l) _ _ HF)
    as Hfst.
  destruct (glyph_sections !! k) as [g_list|] eqn:E.
  - apply elem_of_map_to_list in E.
    destruct (Forall2_elem_l _ _ _ _ HF E) as ([k' units] & Hin & Hk & Hp).
    simpl in Hk, Hp. subst k'. exists units. split; [|exact Hp].
    apply elem_of_list_to_map_1; [|exact Hin].
    rewrite Hfst. apply NoDup_fst_map_to_list.
  - apply not_elem_of_list_to_map_1. rewrite Hfst.
    intros Hin. apply list_elem_of_fmap in Hin as ([k' l] & Hk & Hin).
    simpl in Hk. subst k'. apply elem_of_map_to_list in Hin. congruence.
Qed.

(** C2. Each path-sequencing strategy (the line clustering of V8, the
    nearest-neighbour pen path of V7.3, the macro/micro split of V8.1)
    returns, for every input list, a permutation of that list; hence in
    every section the draw sequence consists of units that together have
    absorbed exactly the glyphs assigned to the section, each once. *)
Theorem sequencers_return_permutations :
  (forall glyphs, exists ordered,
        V8._sort_contours_by_path glyphs = Ok ordered /\ ordered ≡ₚ glyphs)
  /\ (forall glyphs, exists ordered,
        V7_3._sort_contours_by_path glyphs = Ok ordered /\ ordered ≡ₚ glyphs)
  /\ (forall glyphs, exists ordered,
        V8_1._sort_contours_by_path glyphs = Ok ordered /\ ordered ≡ₚ glyphs)
  /\ forall glyph_sections : gmap Z (list glyph),
      exists drawn : gmap Z (list glyph),
        V8.process_sections glyph_sections = Ok drawn
        /\ forall k,
            match glyph_sections !! k with
            | Some g_list =>
                exists units groups,
                  drawn !! k = Some units
                  /\ Forall2 absorbed units groups
                  /\ concat groups ≡ₚ g_list
            | None => drawn !! k = None
            end.
Proof.
  split; [exact line_clustering_perm|].
  split; [exact nearest_neighbour_perm|].
  split; [exact macro_micro_perm|].
  intros glyph_sections.
  destruct (process_sections_ok glyph_sections) as (drawn & E & Hk).
  exists drawn. split; [exact E|]. intros k. specialize (Hk k).
  destruct (glyph_sections !! k) as [g_list|]; [|exact Hk].
  destruct Hk as (units & Hu & Hp).
  destruct (Forall2_perm_l absorbed _ _ (symmetry Hp) _
              (word_groups_absorbed V8.relaxed g_list))
    as (groups & Hg & HF).
  exists units, groups. repeat split; [exact Hu | exact HF |].
  rewrite <- (concat_perm _ _ Hg). apply word_groups_perm.
Qed.

(** ** The active glyph: contours filled and traced *)

Lemma Qdiv_le_mono (a b c : Q) : (0 < c)%Q -> (a <= b)%Q -> (a / c <= b / c)%Q.
Proof.
  intros Hc Hab. unfold Qdiv. apply Qmult_le_compat_r; [exact Hab|].
  apply Qlt_le_weak, Qinv_lt_0_compat, Hc.
Qed.

Lemma py_int_mono (a b : Q) : (0 <= a)%Q -> (a <= b)%Q -> py_int a <= py_int b.
Proof.
  intros Ha Hab. rewrite (py_int_floor a Ha).
  rewrite (py_int_floor b (Qle_trans _ _ _ Ha Hab)).
  by apply Qfloor_resp_le.
Qed.

Lemma Qlt_not_eq0 (c : Q) : (0 < c)%Q -> ~ (c == 0)%Q.
Proof. intros Hc E. rewrite E in Hc. by apply Qlt_irrefl in Hc. Qed.

Lemma pts_to_draw_mono (needed1 needed2 c_len : Q) (num_pts : Z) :
  (0 < needed1)%Q -> (needed1 <= needed2)%Q -> (0 < c_len)%Q -> 0 <= num_pts ->
  py_int (needed1 / c_len * inject_Z num_pts)
  <= py_int (needed2 / c_len * inject_Z num_pts).
Proof.
  intros H1 H12 Hc Hn. pose proof (inject_Z_nonneg _ Hn) as Hq.
  apply py_int_mono.
  - apply Qmult_le_0_compat; [|exact Hq].
    apply Qdiv_nonneg; [by apply Qlt_le_weak | exact Hc].
  - apply Qmult_le_compat_r; [|exact Hq]. by apply Qdiv_le_mono.
Qed.

Section ActiveGlyph.
Variable thickness : Z.

  (** The contour loop never raises, and paints only contours of the
      glyph: filled, or traced over a non-empty prefix of their points. *)
Lemma draw_active_paints (target : Q) (contours : list contour) :
    forall current_len,
    exists ops,
      V8.draw_active thickness target current_len contours = Ok ops
      /\ forall op, op ∈ ops ->
           exists c, c ∈ contours
                     /\ (op = DrawFilled (c_pts c)
                         \/ exists k, 0 < k
                              /\ op = Polyline (py_prefix (c_pts c) k) thickness).
Proof.
    induction contours as [|c rest IH]; intros cur; cbn [V8.draw_active].
    - exists []. split; [reflexivity|]. intros op Hop.
      by apply elem_of_nil in Hop.
    - destruct (Qle_bool (cur + c_len c) target).
      + destruct (IH (cur + c_len c)%Q) as (ops & -> & Hops). cbn [rbind].
        eexists. split; [reflexivity|]. intros op Hop.
        apply elem_of_cons in Hop as [->|Hop].
        * exists c. split; [left | by left].
        * destruct (Hops op Hop) as (c' & Hc' & Hop').
          exists c'. split; [by right | exact Hop'].
      + destruct (Qltb 0 (target - cur) && Qltb 0 (c_len c)) eqn:E.
        * apply andb_true_iff in E as [_ Hc]. apply Qltb_lt in Hc.
          rewrite py_div_ok by by apply Qlt_not_eq0. cbn [rbind].
          destruct (Z.ltb_spec 0
                      (py_int ((target - cur) / c_len c
                               * inject_Z (Z.of_nat (length (c_pts c)))))).
          -- eexists. split; [reflexivity|]. intros op Hop.
             apply list_elem_of_singleton in Hop as ->.
             exists c. split; [left|]. right. eauto.
          -- exists []. split; [reflexivity|]. intros op Hop.
             by apply elem_of_nil in Hop.
        * exists []. split; [reflexivity|]. intros op Hop.
          by apply elem_of_nil in Hop.
Qed.

  (** A larger target length keeps every filled contour, and a traced
      contour is either traced at least as far or filled. *)
Lemma draw_active_mono (target1 target2 : Q) (contours : list contour) :
    (target1 <= target2)%Q ->
    forall current_len ops1 ops2,
      V8.draw_active thickness target1 current_len contours = Ok ops1 ->
      V8.draw_active thickness target2 current_len contours = Ok ops2 ->
      (forall pts, DrawFilled pts ∈ ops1 -> DrawFilled pts ∈ ops2)
      /\ (forall pts th, Polyline pts th ∈ ops1 ->
            exists c k, c ∈ contours /\ pts = py_prefix (c_pts c) k
                        /\ th = thickness
                        /\ (DrawFilled (c_pts c) ∈ ops2
                            \/ exists k', k <= k'
                                 /\ Polyline (py_prefix (c_pts c) k') thickness
                                      ∈ ops2)).
Proof.
    intros Ht. induction contours as [|c rest IH]; intros cur ops1 ops2;
      cbn [V8.draw_active].
    - intros [= <-] _. split; [intros pts Hin | intros pts th Hin];
        by apply elem_of_nil in Hin.
    - destruct (Qle_bool (cur + c_len c) target1) eqn:E1.
      + apply Qle_bool_iff in E1.
        assert (Qle_bool (cur + c_len c) target2 = true) as ->
            by (apply Qle_bool_iff; lra).
        destruct (V8.draw_active thickness target1 (cur + c_len c)%Q rest)
          as [r1|] eqn:R1; [|discriminate].
        destruct (V8.draw_active thickness target2 (cur + c_len c)%Q rest)
          as [r2|] eqn:R2; [|discriminate].
        cbn [rbind]. intros [= <-] [= <-].
        destruct (IH _ _ _ R1 R2) as [Hf Hp]. split.
        * intros pts Hin. apply elem_of_cons in Hin as [Heq|Hin];
            [rewrite Heq; left | right; by apply Hf].
        * intros pts th Hin. apply elem_of_cons in Hin as [Heq|Hin];
            [discriminate|].
          destruct (Hp pts th Hin) as (c' & k & Hc' & Hpts & Hth & Hor).
          exists c', k. repeat split; [by right | exact Hpts | exact Hth |].
          destruct Hor as [Hd|(k' & Hk & Hd)]; [left; by right|].
          right. exists k'. split; [exact Hk | by right].
      + intros H1 H2. split.
        * intros pts Hin. exfalso. revert H1 Hin.
          destruct (Qltb 0 (target1 - cur) && Qltb 0 (c_len c));
            [|intros [= <-] Hin; by apply elem_of_nil in Hin].
          destruct (py_div (target1 - cur) (c_len c)); [|discriminate].
          cbn [rbind].
          match goal with |- context [if ?b then _ else _] => destruct b end;
            intros [= <-] Hin.
          -- by apply list_elem_of_singleton in Hin.
          -- by apply elem_of_nil in Hin.
        * intros pts th Hin. revert H1 Hin.
          destruct (Qltb 0 (target1 - cur) && Qltb 0 (c_len c)) eqn:E;
            [|intros [= <-] Hin; by apply elem_of_nil in Hin].
          apply andb_true_iff in E as [Hn Hc].
          apply Qltb_lt in Hn. apply Qltb_lt in Hc.
          rewrite py_div_ok by by apply Qlt_not_eq0. cbn [rbind].
          set (num_pts := Z.of_nat (length (c_pts c))).
          set (k1 := py_int ((target1 - cur) / c_len c * inject_Z num_pts)).
          destruct (Z.ltb_spec 0 k1) as [Hk1|Hk1];
            [|intros [= <-] Hin; by apply elem_of_nil in Hin].
          intros [= <-] Hin. apply list_elem_of_singleton in Hin.
          injection Hin as -> ->.
          exists c, k1. repeat split; [left|].
          revert H2. destruct (Qle_bool (cur + c_len c) target2).
          -- destruct (V8.draw_active thickness target2 (cur + c_len c)%Q rest);
               [|discriminate].
             cbn [rbind]. intros [= <-]. left. left.
          -- assert (target1 - cur <= target2 - cur)%Q as Hle by lra.
             assert (0 < target2 - cur)%Q as Hn2 by lra.
             assert (Qltb 0 (target2 - cur) && Qltb 0 (c_len c) = true) as ->
                 by (apply andb_true_iff; split; by apply Qltb_lt).
             rewrite py_div_ok by by apply Qlt_not_eq0. cbn [rbind].
             fold num_pts.
             set (k2 := py_int ((target2 - cur) / c_len c * inject_Z num_pts)).
             assert (k1 <= k2) as Hk
                 by (apply pts_to_draw_mono; [assumption..|subst num_pts; lia]).
             destruct (Z.ltb_spec 0 k2); [|lia].
             intros [= <-]. right. exists k2. split; [exact Hk | left].
Qed.
End ActiveGlyph.

(** ** One segment at one time *)

Lemma fill_glyphs_elem (glyphs : list glyph) (op : paint) :
  op ∈ fill_glyphs glyphs <->
  exists g c, g ∈ glyphs /\ c ∈ g_contours g /\ op = DrawFilled (c_pts c).
Proof.
  unfold fill_glyphs. rewrite list_elem_of_In, in_concat. split.
  - intros (l & Hl & Hop). apply in_map_iff in Hl as (g & <- & Hg).
    apply in_map_iff in Hop as (c & <- & Hc).
    exists g, c. by rewrite !list_elem_of_In.
  - intros (g & c & Hg & Hc & ->).
    apply list_elem_of_In in Hg. apply list_elem_of_In in Hc.
    exists (map (fun c => DrawFilled (c_pts c)) (g_contours g)).
    split; apply in_map_iff; eauto.
Qed.

Lemma glyph_float_range (n : Z) (s e t : Q) :
  0 < n -> (s <= t)%Q -> (t < e)%Q ->
  (0 <= glyph_float n s e t)%Q /\ 0 <= Qfloor (glyph_float n s e t) < n.
Proof.
  intros Hn Hs He. unfold glyph_float.
  assert (0 < e - s)%Q as Hd by lra.
  assert (0 <= (t - s) / (e - s))%Q as Hp0 by (apply Qdiv_nonneg; lra).
  assert ((t - s) / (e - s) < 1)%Q as Hp1
      by (apply Qlt_shift_div_r; [exact Hd | lra]).
  pose proof (inject_Z_pos n Hn) as Hq.
  assert (0 <= inject_Z n * ((t - s) / (e - s)))%Q as Hf0
      by (apply Qmult_le_0_compat; [lra | exact Hp0]).
  assert (inject_Z n * ((t - s) / (e - s)) < inject_Z n)%Q as Hf1.
  { assert (inject_Z n * ((t - s) / (e - s)) < inject_Z n * 1)%Q as H
        by (by apply Qmult_lt_l).
    by rewrite Qmult_1_r in H. }
  split; [exact Hf0|]. split.
  - change 0 with (Qfloor 0). by apply Qfloor_resp_le.
  - rewrite Zlt_Qlt. eapply Qle_lt_trans; [apply Qfloor_le | exact Hf1].
Qed.

Section Segment.
Variables (style : string) (glyph_sections : gmap Z (list glyph)).

  (** What [draw_segment] returns, case by case; in particular it never
      raises. *)
Lemma draw_segment_cases (info : seg_info) (t : Q) :
    exists ops,
      V8.draw_segment style glyph_sections t info = Ok ops
      /\ match glyph_sections !! section_idx info with
         | None | Some [] => ops = []
         | Some units =>
             if Qltb t (seg_start info) then ops = []
             else if Qle_bool (seg_end info) t then ops = fill_glyphs units
             else
               let f := glyph_float (Z.of_nat (length units))
                                    (seg_start info) (seg_end info) t in
               let idx := Z.to_nat (Qfloor f) in
               exists g active,
                 units !! idx = Some g
                 /\ V8.draw_active (V8.thickness_of style)
                      (g_total_len g * (f - inject_Z (Qfloor f))) 0
                      (g_contours g) = Ok active
                 /\ ops = fill_glyphs (take idx units) ++ active
         end.
Proof.
    unfold V8.draw_segment.
    destruct (glyph_sections !! section_idx info) as [[|g0 units]|];
      [by exists [] | | by exists []].
    set (all := g0 :: units).
    destruct (Qltb t (seg_start info)) eqn:Es; [by exists []|].
    destruct (Qle_bool (seg_end info) t) eqn:Ee; [by eexists|].
    apply Qltb_ge in Es.
    assert (t < seg_end info)%Q as He.
    { apply Qnot_le_lt. intros H. apply Qle_bool_iff in H. congruence. }
    rewrite py_div_ok by (apply Qlt_not_eq0; lra). cbn [rbind].
    fold (glyph_float (Z.of_nat (length all)) (seg_start info) (seg_end info) t).
    set (f := glyph_float _ _ _ t).
    destruct (glyph_float_range (Z.of_nat (length all)) _ _ t
                ltac:(simpl; lia) Es He) as (Hf0 & Hi0 & Hi1).
    fold f in Hf0, Hi0, Hi1.
    rewrite (py_int_floor f Hf0).
    destruct (Z.ltb_spec (Qfloor f) (Z.of_nat (length all))); [|lia].
    destruct (py_getitem_in_range all (Qfloor f)) as (g & -> & Hg); [lia|].
    cbn [rbind].
    destruct (draw_active_paints (V8.thickness_of style)
                (g_total_len g * (f - inject_Z (Qfloor f))) (g_contours g) 0)
      as (active & Ea & _).
    rewrite Ea. cbn [rbind]. eexists. split; [reflexivity|].
    exists g, active. repeat split; [exact Hg | exact Ea |].
    f_equal. unfold py_prefix.
    destruct (Z.ltb_spec 0 (Qfloor f)).
    - by destruct (Z.ltb_spec (Qfloor f) 0); [lia|].
    - by replace (Qfloor f) with 0 by lia.
Qed.

Lemma draw_segment_total (info : seg_info) (t : Q) :
    exists ops, V8.draw_segment style glyph_sections t info = Ok ops.
Proof. destruct (draw_segment_cases info t) as (ops & E & _). eauto. Qed.
End Segment.

(** ** Segment timing *)

Section SegmentTiming.
Variables (style : string) (glyph_sections : gmap Z (list glyph)).
Variables (info : seg_info) (units : list glyph).
Hypothesis units_of_info : glyph_sections !! section_idx info = Some units.
Hypothesis units_nonempty : units <> [].

Lemma fill_paints_units (l : list glyph) :
    (forall g, g ∈ l -> g ∈ units) ->
    Forall (paints_unit_of (V8.thickness_of style) units) (fill_glyphs l).
Proof.
    intros Hsub. apply Forall_forall. intros op Hop.
    apply fill_glyphs_elem in Hop as (g & c & Hg & Hc & ->).
    exists g, c. repeat split; [by apply Hsub | exact Hc | by left].
Qed.



Lemma draw_segment_paints_units (t : Q) :
    exists ops,
      V8.draw_segment style glyph_sections t info = Ok ops
      /\ Forall (paints_unit_of (V8.thickness_of style) units) ops.
Proof.
    destruct (draw_segment_cases style glyph_sections info t) as (ops & E & H).
    exists ops. split; [exact E|].
    rewrite units_of_info in H.
    assert (exists g0 rest, units = g0 :: rest) as (g0 & rest & Eu)
        by (destruct units; [done | eauto]).
    rewrite Eu in H. rewrite <- Eu in H.
    destruct (Qltb t (seg_start info)); [subst ops; constructor|].
    destruct (Qle_bool (seg_end info) t);
      [subst ops; by apply fill_paints_units|].
    destruct H as (g & active & Hg & Ha & ->).
    apply Forall_app. split.
    - apply fill_paints_units. intros g' Hg'. by eapply subseteq_take.
    - destruct (draw_active_paints (V8.thickness_of style)
                  (g_total_len g
                   * (glyph_float (Z.of_nat (length units)) (seg_start info)
                                  (seg_end info) t
                      - inject_Z (Qfloor (glyph_float (Z.of_nat (length units))
                                            (seg_start info) (seg_end info) t))))
                  (g_contours g) 0) as (active' & Ea' & Hops).
      rewrite Ha in Ea'. injection Ea' as <-.
      apply Forall_forall. intros op Hop.
      destruct (Hops op Hop) as (c & Hc & Hor).
      exists g, c. repeat split; [|exact Hc | exact Hor].
      by eapply list_elem_of_lookup_2.
Qed.
End SegmentTiming.



(** ** The reveal over time *)

Lemma ops_grow_nil (ops : list paint) : ops_grow [] ops.
Proof.
  repeat split; [intros pts Hin | intros Hin | intros pts th Hin];
    by apply elem_of_nil in Hin.
Qed.

Lemma ops_grow_app (a1 b1 a2 b2 : list paint) :
  ops_grow a1 a2 -> ops_grow b1 b2 -> ops_grow (a1 ++ b1) (a2 ++ b2).
Proof.
  intros (Hf1 & Ha1 & Hp1) (Hf2 & Ha2 & Hp2). repeat split.
  - intros pts Hin. apply elem_of_app in Hin as [Hin|Hin];
      apply elem_of_app; [left; by apply Hf1 | right; by apply Hf2].
  - intros Hin. apply elem_of_app in Hin as [Hin|Hin];
      apply elem_of_app; [left; by apply Ha1 | right; by apply Ha2].
  - intros pts th Hin. apply elem_of_app in Hin as [Hin|Hin].
    + destruct (Hp1 pts th Hin) as (full & k & Hpts & Hor).
      exists full, k. split; [exact Hpts|].
      destruct Hor as [Hd|(k' & Hk & Hd)].
      * left. apply elem_of_app. by left.
      * right. exists k'. split; [exact Hk|]. apply elem_of_app. by left.
    + destruct (Hp2 pts th Hin) as (full & k & Hpts & Hor).
      exists full, k. split; [exact Hpts|].
      destruct Hor as [Hd|(k' & Hk & Hd)].
      * left. apply elem_of_app. by right.
      * right. exists k'. split; [exact Hk|]. apply elem_of_app. by right.
Qed.

Lemma ops_grow_concat (l1 l2 : list (list paint)) :
  Forall2 ops_grow l1 l2 -> ops_grow (concat l1) (concat l2).
Proof.
  induction 1; simpl; [apply ops_grow_nil | by apply ops_grow_app].
Qed.

(** Whatever paints only units of a segment is kept by the full fill of
    the segment. *)
Lemma ops_grow_full (thickness : Z) (units : list glyph) (ops : list paint) :
  Forall (paints_unit_of thickness units) ops ->
  ops_grow ops (fill_glyphs units).
Proof.
  intros HF. rewrite Forall_forall in HF. repeat split.
  - intros pts Hin. destruct (HF _ Hin) as (g & c & Hg & Hc & [E|(k & _ & E)]);
      [|discriminate].
    rewrite E. apply fill_glyphs_elem. eauto.
  - intros Hin. destruct (HF _ Hin) as (g & c & _ & _ & [E|(k & _ & E)]);
      discriminate.
  - intros pts th Hin.
    destruct (HF _ Hin) as (g & c & Hg & Hc & [E|(k & _ & E)]); [discriminate|].
    injection E as -> ->. exists (c_pts c), k. split; [reflexivity|].
    left. apply fill_glyphs_elem. eauto.
Qed.

Lemma fill_glyphs_take_mono (units : list glyph) (i j : nat) (op : paint) :
  (i <= j)%nat -> op ∈ fill_glyphs (take i units) ->
  op ∈ fill_glyphs (take j units).
Proof.
  intros Hij Hop. apply fill_glyphs_elem in Hop as (g & c & Hg & Hc & ->).
  apply fill_glyphs_elem. exists g, c. repeat split; [|exact Hc].
  apply elem_of_take in Hg as (n & Hn & Hlt).
  apply elem_of_take. exists n. split; [exact Hn | lia].
Qed.

Lemma glyph_float_mono (n : Z) (s e t1 t2 : Q) :
  0 < n -> (s < e)%Q -> (t1 <= t2)%Q ->
  (glyph_float n s e t1 <= glyph_float n s e t2)%Q.
Proof.
  intros Hn Hse Ht. unfold glyph_float.
  rewrite !(Qmult_comm (inject_Z n)).
  apply Qmult_le_compat_r; [|apply inject_Z_nonneg; lia].
  apply Qdiv_le_mono; lra.
Qed.

Section Reveal.
Variables (style : string) (glyph_sections : gmap Z (list glyph)).
Hypothesis total_len_nonneg :
    forall k units g,
      glyph_sections !! k = Some units -> g ∈ units -> (0 <= g_total_len g)%Q.

  (** One segment keeps at [t2 >= t1] what it had painted at [t1]. *)
Lemma draw_segment_grow (info : seg_info) (t1 t2 : Q) (ops1 ops2 : list paint) :
    (t1 <= t2)%Q ->
    V8.draw_segment style glyph_sections t1 info = Ok ops1 ->
    V8.draw_segment style glyph_sections t2 info = Ok ops2 ->
    ops_grow ops1 ops2.
Proof.
    intros Ht E1 E2.
    destruct (draw_segment_cases style glyph_sections info t1) as (o1 & E1' & H1).
    destruct (draw_segment_cases style glyph_sections info t2) as (o2 & E2' & H2).
    rewrite E1 in E1'. injection E1' as <-.
    rewrite E2 in E2'. injection E2' as <-.
    destruct (glyph_sections !! section_idx info) as [units|] eqn:Eu;
      [|subst ops1; apply ops_grow_nil].
    destruct units as [|g0 rest] eqn:Eunits; [subst ops1; apply ops_grow_nil|].
    rewrite <- Eunits in *.
    assert (units <> []) as Hne by (rewrite Eunits; discriminate).
    clear Eunits g0 rest.
    destruct (Qltb t1 (seg_start info)) eqn:Es1; [subst ops1; apply ops_grow_nil|].
    apply Qltb_ge in Es1.
    assert (Qltb t2 (seg_start info) = false) as Es2 by (apply Qltb_ge; lra).
    rewrite Es2 in H2.
    destruct (draw_segment_paints_units style glyph_sections info units Eu Hne t1)
      as (o1 & Eo1 & Hpaints).
    rewrite E1 in Eo1. injection Eo1 as <-.
    destruct (Qle_bool (seg_end info) t2) eqn:Ee2;
      [subst ops2; by eapply ops_grow_full|].
    assert (t2 < seg_end info)%Q as He2.
    { apply Qnot_le_lt. intros H. apply Qle_bool_iff in H. congruence. }
    assert (Qle_bool (seg_end info) t1 = false) as Ee1.
    { destruct (Qle_bool (seg_end info) t1) eqn:E; [|reflexivity].
      apply Qle_bool_iff in E. lra. }
    rewrite Ee1 in H1.
    set (n := Z.of_nat (length units)) in *.
    assert (0 < n) as Hn by (subst n; destruct units; [done | simpl; lia]).
    set (f1 := glyph_float n (seg_start info) (seg_end info) t1) in *.
    set (f2 := glyph_float n (seg_start info) (seg_end info) t2) in *.
    assert (f1 <= f2)%Q as Hf by (apply glyph_float_mono; [exact Hn | lra | exact Ht]).
    destruct (glyph_float_range n (seg_start info) (seg_end info) t1 Hn Es1)
      as (Hf1 & Hi1 & _); [lra|]. fold f1 in Hf1, Hi1.
    destruct (glyph_float_range n (seg_start info) (seg_end info) t2 Hn) as
      (Hf2 & Hi2 & _); [lra | exact He2 |]. fold f2 in Hf2, Hi2.
    pose proof (Qfloor_resp_le _ _ Hf) as Hidx.
    destruct H1 as (g1 & a1 & Hg1 & Ha1 & ->).
    destruct H2 as (g2 & a2 & Hg2 & Ha2 & ->).
    destruct (draw_active_paints (V8.thickness_of style)
                (g_total_len g1 * (f1 - inject_Z (Qfloor f1))) (g_contours g1) 0)
      as (a1' & Ea1' & Hops1).
    rewrite Ha1 in Ea1'. injection Ea1' as <-.
    destruct (decide (Qfloor f1 = Qfloor f2)) as [Heq|Hneq].
    - (* the same glyph is active at both times *)
      rewrite <- Heq in *. rewrite Hg1 in Hg2. injection Hg2 as <-.
      assert (g_total_len g1 * (f1 - inject_Z (Qfloor f1))
              <= g_total_len g1 * (f2 - inject_Z (Qfloor f1)))%Q as Htarget.
      { rewrite !(Qmult_comm (g_total_len g1)).
        apply Qmult_le_compat_r; [lra|].
        eapply total_len_nonneg; [exact Eu|]. by eapply list_elem_of_lookup_2. }
      destruct (draw_active_mono (V8.thickness_of style) _ _ (g_contours g1)
                  Htarget 0 a1 a2 Ha1 Ha2) as [Hfill Hpoly].
      apply ops_grow_app.
      + repeat split; [auto | auto |].
        intros pts th Hin.
        apply fill_glyphs_elem in Hin as (? & ? & _ & _ & [=]).
      + repeat split; [exact Hfill | |].
        * intros Hin. destruct (Hops1 _ Hin) as (c & _ & [E|(k & _ & E)]);
            discriminate.
        * intros pts th Hin.
          destruct (Hpoly pts th Hin) as (c & k & _ & Hpts & -> & Hor).
          exists (c_pts c), k. split; [exact Hpts | exact Hor].
    - (* the glyph active at [t1] is completed at [t2] *)
      assert (Z.to_nat (Qfloor f1) < Z.to_nat (Qfloor f2))%nat as Hlt by lia.
      assert (forall c, c ∈ g_contours g1 ->
                DrawFilled (c_pts c)
                  ∈ fill_glyphs (take (Z.to_nat (Qfloor f2)) units)) as Hdone.
      { intros c Hc. apply fill_glyphs_elem. exists g1, c.
        repeat split; [|exact Hc]. apply elem_of_take. eauto. }
      repeat split.
      + intros pts Hin. apply elem_of_app. left.
        apply elem_of_app in Hin as [Hin|Hin].
        * eapply fill_glyphs_take_mono; [|exact Hin]. lia.
        * destruct (Hops1 _ Hin) as (c & Hc & [E|(k & _ & E)]); [|discriminate].
          rewrite E. by apply Hdone.
      + intros Hin. apply elem_of_app in Hin as [Hin|Hin].
        * apply fill_glyphs_elem in Hin as (? & ? & _ & _ & [=]).
        * destruct (Hops1 _ Hin) as (c & _ & [E|(k & _ & E)]); discriminate.
      + intros pts th Hin. apply elem_of_app in Hin as [Hin|Hin].
        * apply fill_glyphs_elem in Hin as (? & ? & _ & _ & [=]).
        * destruct (Hops1 _ Hin) as (c & Hc & [E|(k & _ & E)]); [discriminate|].
          injection E as -> ->. exists (c_pts c), k. split; [reflexivity|].
          left. apply elem_of_app. left. by apply Hdone.
Qed.

Lemma draw_segments_grow (infos : list seg_info) (t1 t2 : Q) :
    (t1 <= t2)%Q ->
    exists r1 r2,
      result_mapM (V8.draw_segment style glyph_sections t1) infos = Ok r1
      /\ result_mapM (V8.draw_segment style glyph_sections t2) infos = Ok r2
      /\ Forall2 ops_grow r1 r2.
Proof.
    intros Ht. induction infos as [|info infos (r1 & r2 & E1 & E2 & HF)]; simpl.
    - exists [], []. repeat split; constructor.
    - destruct (draw_segment_total style glyph_sections info t1) as (o1 & Eo1).
      destruct (draw_segment_total style glyph_sections info t2) as (o2 & Eo2).
      rewrite Eo1, Eo2, E1, E2. cbn [rbind].
      exists (o1 :: r1), (o2 :: r2). repeat split.
      constructor; [by eapply draw_segment_grow | exact HF].
Qed.
End Reveal.

Lemma reveal_mask_grow (k : V8.clip) (t1 t2 : Q) :
  (t1 <= t2)%Q ->
  (forall sec units g,
      V8.glyph_sections k !! sec = Some units -> g ∈ units ->
      (0 <= g_total_len g)%Q) ->
  exists ops1 ops2,
    V8.reveal_mask k t1 = Ok ops1
    /\ V8.reveal_mask k t2 = Ok ops2
    /\ ops_grow ops1 ops2.
Proof.
  intros Ht Hlen. unfold V8.reveal_mask.
  assert (ops_grow [FillAll] [FillAll]) as Hall.
  { repeat split; [auto | auto |]. intros pts th Hin.
    by apply list_elem_of_singleton in Hin. }
  destruct (V8.segments k) as [|seg segs];
    [exists [FillAll], [FillAll]; by split; [|split]|].
  destruct (V8.segment_times k) as [|info infos] eqn:Et;
    [exists [FillAll], [FillAll]; by split; [|split]|].
  destruct (draw_segments_grow (V8.style k) (V8.glyph_sections k) Hlen
              (info :: infos) t1 t2 Ht) as (r1 & r2 & -> & -> & HF).
  cbn [rbind]. exists (concat r1), (concat r2).
  split; [reflexivity|]. split; [reflexivity|]. by apply ops_grow_concat.
Qed.

Lemma mask_bool_fills_kept (filled : list point -> point -> bool)
      (stroke : list point -> Z -> point -> bool)
      (ops1 ops2 : list paint) (p : point) :
  ops_grow ops1 ops2 ->
  mask_bool filled stroke (List.filter is_fill ops1) p = true ->
  mask_bool filled stroke ops2 p = true.
Proof.
  intros (Hf & Ha & _). unfold mask_bool. rewrite !andb_true_iff.
  intros [Hc Hex]. split; [exact Hc|].
  apply existsb_exists in Hex as (op & Hop & Hcov).
  apply filter_In in Hop as [Hop Hfill]. apply list_elem_of_In in Hop.
  apply existsb_exists. exists op. split; [|exact Hcov].
  apply list_elem_of_In.
  destruct op as [pts|pts th|]; [by apply Hf | discriminate | by apply Ha].
Qed.

(** C1, as the renderer has it. For times [t1 <= t2] and glyphs of
    non-negative stroke length, the renderer paints at both times, every
    contour filled at [t1] is filled at [t2], and a contour traced over a
    prefix at [t1] is at [t2] either traced at least as far or filled; so
    every pixel a fill reveals at [t1] is still revealed at [t2]. The
    pixels of a thick trace that lie outside the fill of its contour are
    not promised to stay. *)
Theorem reveal_keeps_filled_contours (k : V8.clip) (t1 t2 : Q) :
  (t1 <= t2)%Q ->
  (forall sec units g,
      V8.glyph_sections k !! sec = Some units -> g ∈ units ->
      (0 <= g_total_len g)%Q) ->
  exists ops1 ops2,
    V8.reveal_mask k t1 = Ok ops1
    /\ V8.reveal_mask k t2 = Ok ops2
    /\ ops_grow ops1 ops2
    /\ forall filled stroke p,
        mask_bool filled stroke (List.filter is_fill ops1) p = true ->
        mask_bool filled stroke ops2 p = true.
Proof.
  intros Ht Hlen.
  destruct (reveal_mask_grow k t1 t2 Ht Hlen) as (ops1 & ops2 & E1 & E2 & Hg).
  exists ops1, ops2.
  split; [exact E1|]. split; [exact E2|]. split; [exact Hg|].
  intros filled stroke p. by apply mask_bool_fills_kept.
Qed.

(** An instance: the clip [square_clip] at 1s and at 3s. *)
Lemma reveal_keeps_filled_contours_witness :
  exists ops1 ops2,
    V8.reveal_mask square_clip 1 = Ok ops1
    /\ V8.reveal_mask square_clip 3 = Ok ops2
    /\ ops_grow ops1 ops2
    /\ forall filled stroke p,
        mask_bool filled stroke (List.filter is_fill ops1) p = true ->
        mask_bool filled stroke ops2 p = true.
Proof.
  apply (reveal_keeps_filled_contours square_clip 1 3).
  - unfold Qle. simpl. lia.
  - intros sec units g Hu Hg. simpl in Hu.
    apply lookup_singleton_Some in Hu as [_ <-].
    apply list_elem_of_singleton in Hg as ->.
    unfold Qle. simpl. lia.
Defined.

(** The claim C1 as stated fails: in the clip [square_clip] the pixel
    [(5, 15)] lies within half the marker thickness of the traced left
    edge of the square at [t = 1], and outside the filled square at
    [t = 3]. *)
Lemma reveal_mask_loses_stroke_pixels :
  exists ops1 ops2,
    V8.reveal_mask square_clip 1 = Ok ops1
    /\ V8.reveal_mask square_clip 3 = Ok ops2
    /\ (1 < 3)%Q
    /\ mask_bool cv_filled cv_stroke ops1 (5, 15) = true
    /\ mask_bool cv_filled cv_stroke ops2 (5, 15) = false.
Proof.
  exists [Polyline [(10, 10); (10, 20)] 15],
         [DrawFilled [(10, 10); (10, 20); (20, 20); (20, 10)]].
  repeat split; vm_compute; reflexivity.
Qed.

(** ** The ink extractor *)

#[export] Instance recorded_calls_spec : OpenCVSpec cv_call.
Proof.
  split; try reflexivity. intros img row Hin. destruct Hin.
Qed.



(** C6, as the extractor has it. For the styles [solid] and [normal] the
    ink map is the global Otsu threshold of the 3x3-blurred image, with no
    opening after it; for every other style ([pencil]) it is the adaptive
    threshold followed by a morphological opening with a 2x2 rectangle;
    in every style the ink map has the size of the normalized image. *)
Theorem opening_follows_adaptive_threshold_only
        {image : Type} `{OpenCVSpec image} (style : string) (gray : image) :
  let dark := fst (V8._get_cleaned_image style gray) in
  let ink_map := snd (V8._get_cleaned_image style gray) in
  let polarity := V8.thresh_type_of dark in
  (if String.eqb style "solid" || String.eqb style "normal"
   then ink_map = threshold_otsu (GaussianBlur gray (3, 3) 0) 0 255 polarity
   else ink_map = morph_open (adaptiveThreshold gray 255 polarity 11 2) (2, 2))
  /\ shape ink_map = shape gray.
Proof.
  intros dark ink_map polarity. subst dark ink_map polarity.
  unfold V8._get_cleaned_image.
  destruct (String.eqb style "solid" || String.eqb style "normal"); simpl.
  - split; [reflexivity|]. by rewrite shape_threshold_otsu, shape_GaussianBlur.
  - split; [reflexivity|]. by rewrite shape_morph_open, shape_adaptiveThreshold.
Qed.

(** An instance: the pencil style on the all-white image, with the calls
    recorded. *)
Lemma opening_follows_adaptive_threshold_only_witness :
  let dark := fst (V8._get_cleaned_image "pencil" all_white) in
  let ink_map := snd (V8._get_cleaned_image "pencil" all_white) in
  let polarity := V8.thresh_type_of dark in
  (if String.eqb "pencil" "solid" || String.eqb "pencil" "normal"
   then ink_map = threshold_otsu (GaussianBlur all_white (3, 3) 0) 0 255 polarity
   else ink_map
        = morph_open (adaptiveThreshold all_white 255 polarity 11 2) (2, 2))
  /\ shape ink_map = shape all_white.
Proof.
  exact (opening_follows_adaptive_threshold_only
           (H0 := recorded_calls_spec) "pencil" all_white).
Defined.

(** The claim C6 as stated fails: for the style [normal] the ink map is
    the Otsu threshold itself, and no opening is applied to it. *)
Lemma normal_style_has_no_opening :
  snd (V8._get_cleaned_image "normal" all_white)
  = CallThresholdOtsu (CallGaussianBlur all_white (3, 3) 0) 0 255
                      THRESH_BINARY_INV
  /\ forall src ksize,
      snd (V8._get_cleaned_image "normal" all_white) <> CallMorphOpen src ksize.
Proof.
  split; [vm_compute; reflexivity|]. intros src ksize.
  unfold V8._get_cleaned_image. simpl. discriminate.
Qed.

(** ** An image without ink *)

Lemma result_mapM_all_nil {A B : Type} (f : A -> result (list B)) (l : list A) :
  (forall a, f a = Ok []) ->
  exists r, result_mapM f l = Ok r /\ concat r = [].
Proof.
  intros Hf. induction l as [|a l (r & E & Hc)]; simpl.
  - by exists [].
  - rewrite Hf, E. cbn [rbind]. exists ([] :: r). by split.
Qed.

Lemma composite_nil (filled : list point -> point -> bool)
      (stroke : list point -> Z -> point -> bool)
      (bg : color) (canvas : point -> color) (p : point) :
  composite filled stroke bg canvas [] p = bg.
Proof. unfold composite, mask_bool. simpl. by rewrite andb_false_r. Qed.

Lemma composite_blank_canvas (filled : list point -> point -> bool)
      (stroke : list point -> Z -> point -> bool)
      (bg : color) (canvas : point -> color) (ops : list paint) (p : point) :
  (forall q, canvas q = bg) -> composite filled stroke bg canvas ops p = bg.
Proof. intros Hc. unfold composite. by destruct (mask_bool _ _ _ _). Qed.

Lemma reverse_background (dark : bool) :
  reverse_channels (V8.background dark) = V8.background dark.
Proof. by destruct dark. Qed.

Lemma num_sections_nonzero (segments : list segment) :
  ~ (inject_Z (V8.num_sections_of segments) == 0)%Q.
Proof.
  apply Qlt_not_eq0, inject_Z_pos. destruct segments; simpl; lia.
Qed.

Section BlankClips.
Variables (filled : list point -> point -> bool)
            (stroke : list point -> Z -> point -> bool).

  (** A V8 clip without glyphs on a blank canvas renders the background. *)
Lemma V8_blank_clip_frame (k : V8.clip) (t : Q) :
    V8.glyph_sections k = ∅ ->
    (forall p, V8.full_canvas_ref k p = V8.background (V8.is_dark_bg k)) ->
    exists frame,
      V8.make_frame filled stroke k t = Ok frame
      /\ forall p, frame p = V8.background (V8.is_dark_bg k).
Proof.
    intros Hs Hc. unfold V8.make_frame.
    assert (exists ops, V8.reveal_mask k t = Ok ops
                        /\ (ops = [] \/ ops = [FillAll])) as (ops & -> & Hops).
    { unfold V8.reveal_mask.
      destruct (V8.segments k) as [|seg segs]; [eauto|].
      destruct (V8.segment_times k) as [|info infos]; [eauto|].
      destruct (result_mapM_all_nil
                  (V8.draw_segment (V8.style k) (V8.glyph_sections k) t)
                  (info :: infos)) as (r & -> & Hr).
      { intros a. unfold V8.draw_segment. by rewrite Hs, lookup_empty. }
      cbn [rbind]. rewrite Hr. eauto. }
    cbn [rbind]. eexists. split; [reflexivity|]. intros p. cbn beta.
    rewrite composite_blank_canvas by exact Hc. apply reverse_background.
Qed.

Lemma V5_linear_reveal_empty (k : V5.clip) (t : Q) :
    V5.all_contours k = [] ->
    V5.cumulative_perimeters k = [] ->
    V5.cache_interval k = 1 ->
    V5.cached_masks k !! 0 = Some [] ->
    V5.linear_reveal k t = Ok [].
Proof.
    intros Ha Hc Hi Hm. unfold V5.linear_reveal.
    assert (exists progress,
               (if Qle_bool (V5.drawing_time k) 0 then Ok 1%Q
                else let* ratio := py_div t (V5.drawing_time k) in
                     Ok (py_min 1 ratio)) = Ok progress) as [progress ->].
    { destruct (Qle_bool (V5.drawing_time k) 0) eqn:E; [eauto|].
      rewrite py_div_ok; [cbn [rbind]; eauto|].
      intros E0. rewrite E0 in E. discriminate. }
    cbn [rbind]. rewrite Hc. simpl.
    rewrite Hi. simpl. change (0 `div` 1 * 1) with 0. rewrite Hm.
    unfold V5.draw_range, V5.draw_partial. rewrite Ha. reflexivity.
Qed.

  (** A V5 clip without contours on a blank canvas renders the
      background. *)
Lemma V5_blank_clip_frame (k : V5.clip) (t : Q) :
    V5.all_contours k = [] ->
    V5.cumulative_perimeters k = [] ->
    V5.cache_interval k = 1 ->
    V5.cached_masks k !! 0 = Some [] ->
    V5.glyph_sections k = ∅ ->
    exists frame,
      V5.make_frame filled stroke k t = Ok frame
      /\ forall p, frame p = V8.background (V5.is_dark_bg k).
Proof.
    intros Ha Hc Hi Hm Hs. unfold V5.make_frame.
    assert (V5.reveal_mask k t = Ok []) as ->.
    { unfold V5.reveal_mask.
      destruct (V5.segments k) as [|seg segs];
        [by apply V5_linear_reveal_empty|].
      destruct (V5.segment_times k) as [|info infos];
        [by apply V5_linear_reveal_empty|].
      destruct (result_mapM_all_nil (V5.draw_segment (V5.glyph_sections k) t)
                  (info :: infos)) as (r & -> & Hr).
      { intros a. unfold V5.draw_segment. by rewrite Hs, lookup_empty. }
      cbn [rbind]. by rewrite Hr. }
    cbn [rbind]. eexists. split; [reflexivity|]. intros p. cbn beta.
    rewrite composite_nil. apply reverse_background.
Qed.
End BlankClips.

Section NoInk.
Context {image : Type} `{OpenCVSpec image}.

Lemma no_ink_no_components (ink_map : image) :
    (forall p, nonzero ink_map p = false) ->
    connectedComponentsWithStats ink_map = [].
Proof.
    intros Hz.
    destruct (connectedComponentsWithStats ink_map) as [|row rows] eqn:E;
      [reflexivity|].
    destruct (component_has_ink ink_map row) as [p Hp];
      [rewrite E; by left|].
    rewrite Hz in Hp. discriminate.
Qed.

Lemma no_ink_canvas (dark : bool) (new_w new_h x_offset y_offset : Z)
        (ink_map : image) (original_resized : point -> color) (p : point) :
    (forall q, nonzero ink_map q = false) ->
    V8.canvas_of dark new_w new_h x_offset y_offset ink_map original_resized p
    = V8.background dark.
Proof.
    intros Hz. unfold V8.canvas_of. rewrite Hz. by rewrite andb_false_r.
Qed.

Lemma V8_generate_no_ink (style : string) (segments : list segment)
        (original_resized : point -> color) (gray : image) :
    (forall p, nonzero (snd (V8._get_cleaned_image style gray)) p = false) ->
    exists k,
      V8.generate style segments original_resized gray = Ok k
      /\ V8.glyph_sections k = ∅
      /\ V8.is_dark_bg k = fst (V8._get_cleaned_image style gray)
      /\ forall p, V8.full_canvas_ref k p = V8.background (V8.is_dark_bg k).
Proof.
    intros Hz. unfold V8.generate.
    destruct (shape gray) as [new_w new_h].
    destruct (V8._get_cleaned_image style gray) as [dark ink_map].
    cbn [fst snd] in *.
    rewrite (no_ink_no_components ink_map Hz). cbn [omap list_omap].
    unfold V8.assign_sections.
    rewrite py_div_ok by apply num_sections_nonzero.
    cbn [rbind V8.assign_loop]. unfold V8.process_sections.
    rewrite map_to_list_empty. cbn [result_mapM rbind].
    eexists. split; [reflexivity|]. split; [reflexivity|].
    split; [reflexivity|]. intros p. by apply no_ink_canvas.
Qed.

Lemma V5_generate_no_ink (segments : list segment) (duration : Q)
        (original_resized : point -> color) (gray : image) :
    (forall p, nonzero (snd (V5._get_cleaned_image gray)) p = false) ->
    exists k,
      V5.generate segments duration original_resized gray = Ok k
      /\ V5.total_perimeter k = 0%Q
      /\ V5.all_contours k = []
      /\ V5.cumulative_perimeters k = []
      /\ V5.cache_interval k = 1
      /\ V5.cached_masks k !! 0 = Some []
      /\ V5.glyph_sections k = ∅
      /\ V5.is_dark_bg k = fst (V5._get_cleaned_image gray).
Proof.
    intros Hz. unfold V5.generate.
    destruct (shape gray) as [new_w new_h].
    destruct (V5._get_cleaned_image gray) as [dark ink_map].
    cbn [fst snd] in *.
    rewrite (no_ink_no_components ink_map Hz).
    cbn [omap list_omap V5._cluster_into_grid_rows rbind concat map length].
    change (py_floordiv (Z.of_nat 0) 20) with (@Ok Z 0).
    cbn [rbind].
    change (V5.cache_loop [] (Z.max 1 0) ∅
              (py_range_step (Z.of_nat 0 + 1) (Z.max 1 0)))
      with (@Ok (gmap Z (list paint)) (<[0 := []]> ∅)).
    cbn [rbind].
    rewrite py_div_ok by apply num_sections_nonzero.
    cbn [rbind V5.assign_loop]. eexists. split; [reflexivity|].
    repeat split; apply lookup_insert_eq.
Qed.
End NoInk.

(** C4. An image whose ink map has no foreground pixel yields no glyph and
    a total perimeter of 0, and neither engine raises (no division by zero
    in particular): at every time [t] the frame of V8 and the frame of V5
    are the solid background colour, white for a light background. *)
Theorem blank_image_renders_solid_background
        {image : Type} `{OpenCVSpec image}
        (filled : list point -> point -> bool)
        (stroke : list point -> Z -> point -> bool)
        (style : string) (segments : list segment) (duration : Q)
        (original_resized : point -> color) (gray : image) (t : Q) :
  (forall p, nonzero (snd (V8._get_cleaned_image style gray)) p = false) ->
  (forall p, nonzero (snd (V5._get_cleaned_image gray)) p = false) ->
  (exists k frame,
      V8.generate style segments original_resized gray = Ok k
      /\ V8.glyph_sections k = ∅
      /\ V8.make_frame filled stroke k t = Ok frame
      /\ forall p,
          frame p = (if fst (V8._get_cleaned_image style gray)
                     then black else white))
  /\ (exists k frame,
         V5.generate segments duration original_resized gray = Ok k
         /\ V5.total_perimeter k = 0%Q
         /\ V5.make_frame filled stroke k t = Ok frame
         /\ forall p,
             frame p = (if fst (V5._get_cleaned_image gray)
                        then black else white)).
Proof.
  intros Hz8 Hz5. split.
  - destruct (V8_generate_no_ink style segments original_resized gray Hz8)
      as (k & Ek & Hs & Hd & Hc).
    destruct (V8_blank_clip_frame filled stroke k t Hs Hc) as (frame & Ef & Hf).
    exists k, frame. repeat split; [exact Ek | exact Hs | exact Ef |].
    intros p. rewrite Hf, Hd. reflexivity.
  - destruct (V5_generate_no_ink segments duration original_resized gray Hz5)
      as (k & Ek & Hp & Ha & Hc & Hi & Hm & Hs & Hd).
    destruct (V5_blank_clip_frame filled stroke k t Ha Hc Hi Hm Hs)
      as (frame & Ef & Hf).
    exists k, frame. repeat split; [exact Ek | exact Hp | exact Ef |].
    intros p. rewrite Hf, Hd. reflexivity.
Qed.

(** An instance (scenario 1): the 100 x 100 all-white image, no
    segments, at 1s: both frames are solid white. *)
Lemma blank_image_renders_solid_background_witness :
  fst (V8._get_cleaned_image "normal" all_white) = false
  /\ fst (V5._get_cleaned_image all_white) = false
  /\ (exists k frame,
      V8.generate "normal" [] (fun _ => white) all_white = Ok k
      /\ V8.glyph_sections k = ∅
      /\ V8.make_frame cv_filled cv_stroke k 1 = Ok frame
      /\ forall p,
          frame p = (if fst (V8._get_cleaned_image "normal" all_white)
                     then black else white))
  /\ (exists k frame,
         V5.generate [] 5 (fun _ => white) all_white = Ok k
         /\ V5.total_perimeter k = 0%Q
         /\ V5.make_frame cv_filled cv_stroke k 1 = Ok frame
         /\ forall p,
             frame p = (if fst (V5._get_cleaned_image all_white)
                        then black else white)).
Proof.
  split; [vm_compute; reflexivity|]. split; [vm_compute; reflexivity|].
  apply (blank_image_renders_solid_background
           (H0 := recorded_calls_spec) cv_filled cv_stroke
           "normal" [] 5 (fun _ => white) all_white 1).
  - intros p. reflexivity.
  - intros p. reflexivity.
Defined.

(** ** Bounding-box assignment (V6) *)


(** * Further properties of the engines *)

(** ** The timeline of the segments *)

Lemma timing_loop_length (sorted_segments : list segment) :
  forall current_time seq_idx,
    length (timing_loop current_time seq_idx sorted_segments)
    = length sorted_segments.
Proof.
  induction sorted_segments as [|seg rest IH]; intros c i; simpl;
    [reflexivity|]. by rewrite IH.
Qed.

Lemma timing_loop_lookup (sorted_segments : list segment) :
  forall current_time seq_idx i info,
    timing_loop current_time seq_idx sorted_segments !! i = Some info ->
    exists seg,
      sorted_segments !! i = Some seg
      /\ section_idx info = seq_idx + Z.of_nat i
      /\ seg_end info = (seg_start info + duration_of seg)%Q
      /\ (seg_start info
          == current_time + total_duration (take i sorted_segments))%Q.
Proof.
  induction sorted_segments as [|seg rest IH]; intros c idx i info Hi;
    [by destruct i|].
  destruct i as [|i]; simpl in Hi.
  - injection Hi as <-. exists seg. simpl. repeat split; [lia|].
    unfold total_duration. simpl. ring.
  - destruct (IH _ _ _ _ Hi) as (seg' & Hs & Hx & He & Hst).
    exists seg'. repeat split; [exact Hs | lia | exact He |].
    rewrite Hst. unfold total_duration, duration_of. simpl. ring.
Qed.

Lemma timing_loop_consecutive (sorted_segments : list segment) :
  forall current_time seq_idx i a b,
    timing_loop current_time seq_idx sorted_segments !! i = Some a ->
    timing_loop current_time seq_idx sorted_segments !! S i = Some b ->
    seg_start b = seg_end a.
Proof.
  induction sorted_segments as [|seg rest IH]; intros c idx i a b Ha Hb;
    [by destruct i|].
  destruct i as [|i]; simpl in Ha, Hb.
  - injection Ha as <-. destruct rest as [|seg' rest']; [discriminate|].
    simpl in Hb. by injection Hb as <-.
  - by eapply IH.
Qed.

(** X1. The timeline of [n] segments has [n] windows, taken in the order of
    the segments' positions; the window of rank [i] is for section [i],
    lasts the duration of its segment (3 seconds when none is given),
    starts at the sum of the durations before it (0 for the first), and
    every window starts where the one before it ends. *)
Theorem segment_windows_are_contiguous (segments : list segment) :
  let windows := segment_times_of segments in
  let ordered := sorted lt_position segments in
  length windows = length segments
  /\ ordered ≡ₚ segments
  /\ (forall i info,
         windows !! i = Some info ->
         exists seg,
           ordered !! i = Some seg
           /\ section_idx info = Z.of_nat i
           /\ seg_end info = (seg_start info + duration_of seg)%Q
           /\ (seg_start info == total_duration (take i ordered))%Q)
  /\ (forall i a b,
         windows !! i = Some a -> windows !! S i = Some b ->
         seg_start b = seg_end a).
Proof.
  intros windows ordered. subst windows ordered.
  pose proof (sorted_perm lt_position segments) as Hp.
  split.
  { destruct segments as [|seg rest]; [reflexivity|].
    cbn [segment_times_of]. rewrite timing_loop_length. by rewrite Hp. }
  split; [exact Hp|].
  split.
  - intros i info Hi. destruct segments as [|seg rest]; [by destruct i|].
    cbn [segment_times_of] in Hi.
    destruct (timing_loop_lookup _ _ _ _ _ Hi) as (seg' & Hs & Hx & He & Hst).
    exists seg'. repeat split; [exact Hs | lia | exact He |].
    rewrite Hst. ring.
  - intros i a b Ha Hb. destruct segments as [|seg rest]; [by destruct i|].
    cbn [segment_times_of] in Ha, Hb. by eapply timing_loop_consecutive.
Qed.

(** ** The renderer never raises *)

Lemma result_mapM_total {A B : Type} (f : A -> result B) (l : list A) :
  (forall a, exists b, f a = Ok b) -> exists bs, result_mapM f l = Ok bs.
Proof.
  intros Hf. induction l as [|a l [bs E]]; simpl; [eauto|].
  destruct (Hf a) as [b ->]. rewrite E. cbn [rbind]. eauto.
Qed.

(** X2. For every clip and every time, the V8 renderer returns a frame: the
    two divisions of the progress arithmetic are never by zero and the
    active glyph is always within the section. *)
Theorem make_frame_never_raises
        (filled : list point -> point -> bool)
        (stroke : list point -> Z -> point -> bool) (k : V8.clip) (t : Q) :
  exists ops frame,
    V8.reveal_mask k t = Ok ops
    /\ V8.make_frame filled stroke k t = Ok frame.
Proof.
  assert (exists ops, V8.reveal_mask k t = Ok ops) as [ops E].
  { unfold V8.reveal_mask.
    destruct (V8.segments k); [eauto|].
    destruct (V8.segment_times k) as [|info infos]; [eauto|].
    destruct (result_mapM_total
                (V8.draw_segment (V8.style k) (V8.glyph_sections k) t)
                (info :: infos)) as [r ->]; [|cbn [rbind]; eauto].
    intros a. apply draw_segment_total. }
  unfold V8.make_frame. rewrite E. cbn [rbind]. eauto.
Qed.

(** ** The shape of what the active glyph paints *)

(** X3. The contour loop of the active glyph paints a run of filled
    contours, the leading ones whose cumulated length stays within the
    target, and after them at most one open polyline, a non-empty prefix
    of the first contour that does not fit; it never raises. *)
Theorem active_glyph_fills_then_one_trace
        (thickness : Z) (target : Q) (contours : list contour) (start : Q) :
  exists (n : nat) (tail : list paint),
    V8.draw_active thickness target start contours
    = Ok (map (fun c => DrawFilled (c_pts c)) (take n contours) ++ tail)
    /\ (n <= length contours)%nat
    /\ (forall i, (i < n)%nat ->
          (start + sum_Q c_len (take (S i) contours) <= target)%Q)
    /\ ((n < length contours)%nat ->
        ~ (start + sum_Q c_len (take (S n) contours) <= target)%Q)
    /\ (tail = []
        \/ exists c k,
            contours !! n = Some c /\ 0 < k
            /\ tail = [Polyline (py_prefix (c_pts c) k) thickness]).
Proof.
  revert start. induction contours as [|c rest IH]; intros cur.
  - exists 0%nat, []. simpl. repeat split; [lia | intros; lia | lia | by left].
  - cbn [V8.draw_active].
    destruct (Qle_bool (cur + c_len c) target) eqn:E.
    + apply Qle_bool_iff in E.
      destruct (IH (cur + c_len c)%Q) as (n & tail & -> & Hn & Hle & Hgt & Ht).
      cbn [rbind]. exists (S n), tail. simpl. repeat split.
      * lia.
      * intros i Hi. destruct i as [|i]; simpl; [lra|].
        specialize (Hle i ltac:(lia)). simpl in Hle. lra.
      * intros Hlt Hc. apply Hgt; [lia|]. simpl in Hc. lra.
      * exact Ht.
    + assert (~ (cur + c_len c <= target)%Q) as Hn.
      { intros H. apply Qle_bool_iff in H. congruence. }
      assert (~ (cur + sum_Q c_len (take 1 (c :: rest)) <= target)%Q) as Hn'.
      { simpl. intros H. apply Hn. lra. }
      destruct (Qltb 0 (target - cur) && Qltb 0 (c_len c)) eqn:E2.
      * apply andb_true_iff in E2 as [_ Hc]. apply Qltb_lt in Hc.
        rewrite py_div_ok by by apply Qlt_not_eq0. cbn [rbind].
        destruct (Z.ltb_spec 0
                    (py_int ((target - cur) / c_len c
                             * inject_Z (Z.of_nat (length (c_pts c)))))).
        -- exists 0%nat. eexists. split; [reflexivity|].
           repeat split; [simpl; lia | intros; lia | done |].
           right. eauto.
        -- exists 0%nat, []. repeat split;
             [simpl; lia | intros; lia | done | by left].
      * exists 0%nat, []. repeat split;
          [simpl; lia | intros; lia | done | by left].
Qed.

(** ** After the last window *)

Lemma sum_Q_nonneg {A : Type} (f : A -> Q) (l : list A) :
  Forall (fun a => (0 <= f a)%Q) l -> (0 <= sum_Q f l)%Q.
Proof.
  induction 1 as [|a l Ha _ IH]; simpl; [apply Qle_refl | lra].
Qed.

Lemma draw_segment_done (style : string) (glyph_sections : gmap Z (list glyph))
      (info : seg_info) (t : Q) :
  (seg_start info <= t)%Q -> (seg_end info <= t)%Q ->
  V8.draw_segment style glyph_sections t info
  = Ok (fill_glyphs (default [] (glyph_sections !! section_idx info))).
Proof.
  intros Hs He. unfold V8.draw_segment.
  destruct (glyph_sections !! section_idx info) as [[|g0 units]|];
    [reflexivity | | reflexivity].
  apply Qltb_ge in Hs. rewrite Hs. apply Qle_bool_iff in He. by rewrite He.
Qed.

Lemma timing_loop_done (style : string) (glyph_sections : gmap Z (list glyph))
      (t : Q) (sorted_segments : list segment) :
  forall current_time seq_idx,
    Forall (fun seg => (0 <= duration_of seg)%Q) sorted_segments ->
    (0 <= current_time)%Q ->
    (current_time + total_duration sorted_segments <= t)%Q ->
    result_mapM (V8.draw_segment style glyph_sections t)
                (timing_loop current_time seq_idx sorted_segments)
    = Ok (map (fun i => fill_glyphs
                          (default [] (glyph_sections !! (seq_idx + Z.of_nat i))))
              (seq 0 (length sorted_segments))).
Proof.
  induction sorted_segments as [|seg rest IH]; intros c idx Hd Hc Ht;
    [reflexivity|].
  inversion Hd as [|? ? Hseg Hrest]; subst.
  pose proof (sum_Q_nonneg _ _ Hrest) as Hsum.
  unfold total_duration in Ht. simpl in Ht.
  cbn [timing_loop result_mapM]. fold (duration_of seg).
  rewrite draw_segment_done; cbn [seg_start seg_end section_idx];
    [|lra | fold (total_duration rest) in *; lra].
  cbn [rbind].
  rewrite (IH (c + duration_of seg)%Q (idx + 1));
    [|exact Hrest | lra | unfold total_duration; lra].
  cbn [rbind length seq map]. rewrite Z.add_0_r. do 2 f_equal.
  rewrite <- seq_shift, map_map. apply map_ext. intros i.
  do 3 f_equal. lia.
Qed.

(** X4. Once the time has reached the sum of the durations of the segments
    (none of them negative), the V8 renderer paints every contour of every
    unit of the sections [0 .. n - 1], in the order of the sections, and
    nothing else. *)
Theorem everything_is_drawn_after_the_last_window
        (style : string) (segments : list segment) (is_dark_bg : bool)
        (glyph_sections : gmap Z (list glyph))
        (full_canvas_ref : point -> color) (t : Q) :
  segments <> [] ->
  Forall (fun seg => (0 <= duration_of seg)%Q) segments ->
  (total_duration segments <= t)%Q ->
  V8.reveal_mask
    (V8.Clip style segments is_dark_bg glyph_sections
             (segment_times_of segments) full_canvas_ref) t
  = Ok (all_sections_filled glyph_sections (length segments)).
Proof.
  intros Hne Hd Ht. unfold V8.reveal_mask.
  cbn [V8.segments V8.segment_times V8.style V8.glyph_sections].
  destruct segments as [|seg rest] eqn:Es; [done|]. rewrite <- Es in *.
  assert (segment_times_of segments
          = timing_loop 0 0 (sorted lt_position segments)) as Htimes
      by (rewrite Es; reflexivity).
  rewrite Htimes.
  pose proof (sorted_perm lt_position segments) as Hp.
  assert (exists info infos,
             timing_loop 0 0 (sorted lt_position segments) = info :: infos)
    as (info & infos & Hcons).
  { destruct (timing_loop 0 0 (sorted lt_position segments)) eqn:E; [|eauto].
    apply (f_equal length) in E. rewrite timing_loop_length, Hp, Es in E.
    discriminate. }
  rewrite Hcons, <- Hcons.
  rewrite (timing_loop_done style glyph_sections t).
  - cbn [rbind]. unfold all_sections_filled. rewrite Hp. do 2 f_equal.
  - by rewrite Hp.
  - apply Qle_refl.
  - unfold total_duration in *. rewrite (sum_Q_perm _ _ _ Hp). lra.
Qed.

(** An instance: the clip of the square, two segments of 2s, at 5s. *)
Lemma everything_is_drawn_after_the_last_window_witness :
  V8.reveal_mask
    (V8.Clip "normal" two_segments false {[ 0 := [square] ]}
             (segment_times_of two_segments) (fun _ => white)) 5
  = Ok (all_sections_filled {[ 0 := [square] ]} (length two_segments)).
Proof.
  apply (everything_is_drawn_after_the_last_window
           "normal" two_segments false {[ 0 := [square] ]} (fun _ => white) 5).
  - discriminate.
  - repeat constructor; vm_compute; discriminate.
  - vm_compute. discriminate.
Defined.

(** ** V5: a segment reveals whole glyphs *)

Lemma V5_draw_segment_prefix (glyph_sections : gmap Z (list V5.glyph_unit))
      (info : seg_info) (t : Q) :
  let units := default [] (glyph_sections !! section_idx info) in
  exists k : nat,
    V5.draw_segment glyph_sections t info = Ok (V5.fill_units (take k units))
    /\ (k <= length units)%nat
    /\ (Qltb t (seg_start info) = true -> k = 0%nat)
    /\ (Qltb t (seg_start info) = false -> Qle_bool (seg_end info) t = true ->
        k = length units)
    /\ (Qltb t (seg_start info) = false -> Qle_bool (seg_end info) t = false ->
        units <> [] ->
        Z.of_nat k
        = Qfloor (glyph_float (Z.of_nat (length units)) (seg_start info)
                              (seg_end info) t) + 1).
Proof.
  intros units. subst units. unfold V5.draw_segment.
  destruct (glyph_sections !! section_idx info) as [[|u0 units]|]; cbn [default].
  - exists 0%nat. repeat split; try done; intros; reflexivity.
  - set (all := u0 :: units).
    destruct (Qltb t (seg_start info)) eqn:Es.
    { exists 0%nat. repeat split; try done; simpl; lia. }
    destruct (Qle_bool (seg_end info) t) eqn:Ee.
    { exists (length all). rewrite firstn_all. repeat split; try done. }
    apply Qltb_ge in Es.
    assert (t < seg_end info)%Q as He.
    { apply Qnot_le_lt. intros H. apply Qle_bool_iff in H. congruence. }
    rewrite py_div_ok by (apply Qlt_not_eq0; lra). cbn [rbind].
    fold (glyph_float (Z.of_nat (length all)) (seg_start info) (seg_end info) t).
    set (f := glyph_float _ _ _ t).
    destruct (glyph_float_range (Z.of_nat (length all)) _ _ t
                ltac:(simpl; lia) Es He) as (Hf0 & Hi0 & Hi1).
    fold f in Hf0, Hi0, Hi1.
    rewrite (py_int_floor f Hf0).
    exists (Z.to_nat (Qfloor f + 1)). unfold py_prefix.
    destruct (Z.ltb_spec (Qfloor f + 1) 0); [lia|].
    split; [reflexivity|].
    split; [unfold all in *; simpl length in *; lia|]. split.
    { intros Hlt. discriminate. }
    split; [intros _ Hle; discriminate|].
    intros _ _ _. unfold all in *; simpl length in *; lia.
  - exists 0%nat. repeat split; try done; intros; reflexivity.
Qed.

(** X5. In V5 a segment never shows a partial stroke: at every time it
    fills the contours of the first [k] glyph units of its section, [k]
    never decreases with time, and inside its window a non-empty section
    shows at least its first glyph. The division of the progress is never
    by zero. *)
Theorem V5_segment_reveals_whole_glyphs
        (glyph_sections : gmap Z (list V5.glyph_unit)) (info : seg_info)
        (t1 t2 : Q) :
  (t1 <= t2)%Q ->
  let units := default [] (glyph_sections !! section_idx info) in
  exists k1 k2 : nat,
    (k1 <= k2 <= length units)%nat
    /\ V5.draw_segment glyph_sections t1 info
       = Ok (V5.fill_units (take k1 units))
    /\ V5.draw_segment glyph_sections t2 info
       = Ok (V5.fill_units (take k2 units))
    /\ ((seg_start info <= t1)%Q -> (t1 < seg_end info)%Q -> units <> [] ->
        (1 <= k1)%nat).
Proof.
  intros Ht units.
  destruct (V5_draw_segment_prefix glyph_sections info t1)
    as (k1 & E1 & Hk1 & Hb1 & Ha1 & Hp1).
  destruct (V5_draw_segment_prefix glyph_sections info t2)
    as (k2 & E2 & Hk2 & Hb2 & Ha2 & Hp2).
  fold units in E1, E2, Hk1, Hk2, Ha1, Ha2, Hp1, Hp2.
  assert (forall t, (t < seg_end info)%Q -> Qle_bool (seg_end info) t = false)
    as Hbefore.
  { intros t Hlt. destruct (Qle_bool (seg_end info) t) eqn:E; [|reflexivity].
    apply Qle_bool_iff in E. lra. }
  assert (length units <> 0%nat -> units <> []) as Hlen
      by (intros Hl Hn; by rewrite Hn in Hl).
  exists k1, k2. split; [|split; [exact E1|split; [exact E2|]]].
  - split; [|exact Hk2].
    destruct (Qlt_le_dec t1 (seg_start info)) as [Hs1|Hs1].
    { rewrite Hb1; [lia | by apply Qltb_lt]. }
    assert (Qltb t1 (seg_start info) = false) as Es1 by (by apply Qltb_ge).
    assert (Qltb t2 (seg_start info) = false) as Es2 by (apply Qltb_ge; lra).
    destruct (Qlt_le_dec t2 (seg_end info)) as [He2|He2].
    2: { rewrite (Ha2 Es2); [exact Hk1 | by apply Qle_bool_iff]. }
    destruct (length units) as [|n] eqn:El; [lia|].
    rewrite <- El in *.
    assert (units <> []) as Hne by (apply Hlen; lia).
    specialize (Hp1 Es1 (Hbefore t1 ltac:(lra)) Hne).
    specialize (Hp2 Es2 (Hbefore t2 He2) Hne).
    pose proof (Qfloor_resp_le _ _
                  (glyph_float_mono (Z.of_nat (length units)) (seg_start info)
                     (seg_end info) t1 t2 ltac:(lia) ltac:(lra) Ht)).
    lia.
  - intros Hs He Hne.
    assert (Qltb t1 (seg_start info) = false) as Es1 by (by apply Qltb_ge).
    specialize (Hp1 Es1 (Hbefore t1 He) Hne).
    assert (0 < Z.of_nat (length units))
      by (destruct (length units) eqn:El;
          [exfalso; apply Hne; by apply length_zero_iff_nil | lia]).
    destruct (glyph_float_range (Z.of_nat (length units)) (seg_start info)
                (seg_end info) t1 ltac:(assumption) Hs He) as (_ & H0 & _).
    lia.
Qed.

(** An instance: one unit in a window from 0s to 2s, at 1s and at 3s. *)
Lemma V5_segment_reveals_whole_glyphs_witness :
  let sections : gmap Z (list V5.glyph_unit) :=
    {[ 0 := [V5.GlyphUnit [[(10, 10); (10, 20); (20, 20); (20, 10)]] 1] ]} in
  let info := SegInfo 0 0 2 in
  let units := default [] (sections !! section_idx info) in
  exists k1 k2 : nat,
    (k1 <= k2 <= length units)%nat
    /\ V5.draw_segment sections 1 info = Ok (V5.fill_units (take k1 units))
    /\ V5.draw_segment sections 3 info = Ok (V5.fill_units (take k2 units))
    /\ ((seg_start info <= 1)%Q -> (1 < seg_end info)%Q -> units <> [] ->
        (1 <= k1)%nat).
Proof.
  apply (V5_segment_reveals_whole_glyphs
           {[ 0 := [V5.GlyphUnit [[(10, 10); (10, 20); (20, 20); (20, 10)]] 1] ]}
           (SegInfo 0 0 2) 1 3).
  vm_compute. discriminate.
Defined.

(** ** V5: the binary search over the cumulated perimeters *)

Lemma V5_bisect_spec (cumulative : list Q) (target : Q) :
  (forall i j a b, (i <= j)%nat -> cumulative !! i = Some a ->
                   cumulative !! j = Some b -> (a <= b)%Q) ->
  forall (fuel : nat) (left right : Z),
    0 <= left <= right -> right <= Z.of_nat (length cumulative) ->
    right - left <= Z.of_nat fuel ->
    (forall i a, cumulative !! i = Some a -> Z.of_nat i < left ->
                 (a <= target)%Q) ->
    (forall i a, cumulative !! i = Some a -> right <= Z.of_nat i ->
                 (target < a)%Q) ->
    exists found,
      V5.bisect fuel cumulative target left right = Ok found
      /\ left <= found <= right
      /\ (forall i a, cumulative !! i = Some a -> Z.of_nat i < found ->
                      (a <= target)%Q)
      /\ (forall i a, cumulative !! i = Some a -> found <= Z.of_nat i ->
                      (target < a)%Q).
Proof.
  intros Hmono fuel. induction fuel as [|fuel IH]; intros l r Hlr Hr Hf Hlo Hhi.
  - assert (l = r) as -> by lia. exists r. cbn [V5.bisect].
    rewrite Z.ltb_irrefl. repeat split; [lia | lia | exact Hlo | exact Hhi].
  - cbn [V5.bisect]. destruct (Z.ltb_spec l r) as [Hlt|Hge].
    + set (mid := (l + r) / 2).
      assert (l <= mid < r) as Hmid
          by (subst mid; split;
              [apply Z.div_le_lower_bound | apply Z.div_lt_upper_bound]; lia).
      destruct (py_getitem_in_range cumulative mid) as (at_mid & -> & Hat);
        [lia|].
      cbn [rbind]. destruct (Qle_bool at_mid target) eqn:E.
      * apply Qle_bool_iff in E.
        destruct (IH (mid + 1) r) as (found & -> & Hfr & Hflo & Hfhi);
          [lia | lia | lia | | exact Hhi |].
        { intros i a Hi Hlti.
          eapply Qle_trans; [|exact E].
          eapply (Hmono i (Z.to_nat mid)); [lia | exact Hi | exact Hat]. }
        exists found. repeat split; [lia | lia | exact Hflo | exact Hfhi].
      * assert (target < at_mid)%Q as Hgt.
        { apply Qnot_le_lt. intros H. apply Qle_bool_iff in H. congruence. }
        destruct (IH l mid) as (found & -> & Hfr & Hflo & Hfhi);
          [lia | lia | lia | exact Hlo | |].
        { intros i a Hi Hgei.
          eapply Qlt_le_trans; [exact Hgt|].
          eapply (Hmono (Z.to_nat mid) i); [lia | exact Hat | exact Hi]. }
        exists found. repeat split; [lia | lia | exact Hflo | exact Hfhi].
    + assert (l = r) as -> by lia. exists r.
      repeat split; [lia | lia | exact Hlo | exact Hhi].
Qed.

(** X6. On a non-decreasing table of cumulated perimeters the binary search
    of V5 ends without raising and returns the number of entries that do
    not exceed the target: every entry before the returned index is at most
    the target and every entry from it on is above the target. *)
Theorem V5_bisect_counts_completed_contours
        (cumulative_perimeters : list Q) (target_len : Q) :
  (forall i j a b, (i <= j)%nat -> cumulative_perimeters !! i = Some a ->
                   cumulative_perimeters !! j = Some b -> (a <= b)%Q) ->
  exists left,
    V5.bisect (S (length cumulative_perimeters)) cumulative_perimeters
              target_len 0 (Z.of_nat (length cumulative_perimeters))
    = Ok left
    /\ 0 <= left <= Z.of_nat (length cumulative_perimeters)
    /\ (forall i a, cumulative_perimeters !! i = Some a -> Z.of_nat i < left ->
                    (a <= target_len)%Q)
    /\ (forall i a, cumulative_perimeters !! i = Some a -> left <= Z.of_nat i ->
                    (target_len < a)%Q).
Proof.
  intros Hmono.
  apply (V5_bisect_spec cumulative_perimeters target_len Hmono); try lia.
  intros i a Hi Hge. apply lookup_lt_Some in Hi. exfalso. lia.
Qed.

(** An instance: the table [10; 30; 60] and the target 30. *)
Lemma V5_bisect_counts_completed_contours_witness :
  let table := [10%Q; 30%Q; 60%Q] in
  exists left,
    V5.bisect (S (length table)) table 30 0 (Z.of_nat (length table)) = Ok left
    /\ 0 <= left <= Z.of_nat (length table)
    /\ (forall i a, table !! i = Some a -> Z.of_nat i < left -> (a <= 30)%Q)
    /\ (forall i a, table !! i = Some a -> left <= Z.of_nat i -> (30 < a)%Q).
Proof.
  apply (V5_bisect_counts_completed_contours [10%Q; 30%Q; 60%Q] 30).
  intros i j a b Hij Hi Hj.
  destruct i as [|[|[|i]]]; destruct j as [|[|[|j]]]; simpl in Hi, Hj;
    try discriminate; try lia;
    injection Hi as <-; injection Hj as <-; vm_compute; discriminate.
Defined.

(** ** The order a sort leaves *)

Section SortedOrder.
Context {A : Type} (lt : A -> A -> bool).
Hypothesis lt_asym : forall a b, lt a b = true -> lt b a = false.
Hypothesis lt_trans :
  forall a b c, lt a b = true -> lt b c = true -> lt a c = true.

Lemma insert_sorted_ordered (a : A) (l : list A) :
  StronglySorted (fun x y => lt y x = false) l ->
  StronglySorted (fun x y => lt y x = false) (insert_sorted lt a l).
Proof.
  induction 1 as [|b l Hs IH Hb]; simpl; [repeat constructor|].
  destruct (lt a b) eqn:E.
  - constructor; [by constructor|]. constructor; [by apply lt_asym|].
    eapply Forall_impl; [exact Hb|]. intros c Hc. simpl in Hc.
    destruct (lt c a) eqn:Eca; [|reflexivity].
    rewrite (lt_trans c a b Eca E) in Hc. discriminate.
  - constructor; [exact IH|].
    rewrite (insert_sorted_perm lt a l). by constructor.
Qed.

Lemma sorted_acc_ordered (l acc : list A) :
  StronglySorted (fun x y => lt y x = false) acc ->
  StronglySorted (fun x y => lt y x = false)
                 (fold_left (fun acc a => insert_sorted lt a acc) l acc).
Proof.
  revert acc. induction l as [|a l IH]; intros acc Hs; simpl; [exact Hs|].
  by apply IH, insert_sorted_ordered.
Qed.

Lemma sorted_ordered (l : list A) :
  StronglySorted (fun x y => lt y x = false) (sorted lt l).
Proof. apply sorted_acc_ordered. constructor. Qed.
End SortedOrder.

Lemma StronglySorted_impl {A : Type} (R1 R2 : A -> A -> Prop) (l : list A) :
  (forall a b, R1 a b -> R2 a b) -> StronglySorted R1 l -> StronglySorted R2 l.
Proof.
  intros HR. induction 1 as [|a l _ IH Ha]; constructor; [exact IH|].
  eapply Forall_impl; [exact Ha|]. intros b. apply HR.
Qed.

Lemma StronglySorted_map {A B : Type} (R1 : A -> A -> Prop)
      (R2 : B -> B -> Prop) (f : A -> B) (l : list A) :
  (forall a b, R1 a b -> R2 (f a) (f b)) ->
  StronglySorted R1 l -> StronglySorted R2 (map f l).
Proof.
  intros HR. induction 1 as [|a l _ IH Ha]; simpl; constructor; [exact IH|].
  apply Forall_map. eapply Forall_impl; [exact Ha|]. intros b. apply HR.
Qed.

Lemma StronglySorted_lookup {A : Type} (R : A -> A -> Prop) (l : list A) :
  StronglySorted R l ->
  forall i j a b, (i < j)%nat -> l !! i = Some a -> l !! j = Some b -> R a b.
Proof.
  induction 1 as [|x l _ IH Hx]; intros i j a b Hij Hi Hj; [by destruct i|].
  destruct j as [|j]; [lia|]. simpl in Hj.
  destruct i as [|i]; simpl in Hi.
  - injection Hi as <-. rewrite Forall_forall in Hx. apply Hx.
    by eapply list_elem_of_lookup_2.
  - eapply (IH i j); [lia | exact Hi | exact Hj].
Qed.

Lemma sorted_by_x (line : list glyph) :
  StronglySorted (fun a b => g_x a <= g_x b) (sorted lt_x line).
Proof.
  eapply StronglySorted_impl; [|apply (sorted_ordered lt_x)].
  - unfold lt_x. intros a b H. lia.
  - unfold lt_x. intros a b H. lia.
  - unfold lt_x. intros a b c H1 H2. lia.
Qed.

Lemma sorted_by_area_desc (l : list glyph) :
  StronglySorted (fun a b => g_area b <= g_area a) (sorted V8_1.gt_area l).
Proof.
  eapply StronglySorted_impl; [|apply (sorted_ordered V8_1.gt_area)].
  - unfold V8_1.gt_area. intros a b H. lia.
  - unfold V8_1.gt_area. intros a b H. lia.
  - unfold V8_1.gt_area. intros a b c H1 H2. lia.
Qed.

Lemma py_sum_Z_acc {A : Type} (f : A -> Z) (l : list A) (acc : Z) :
  fold_left (fun acc a => acc + f a) l acc = acc + sum_Z f l.
Proof.
  revert acc. induction l as [|a l IH]; intros acc; simpl; [lia|].
  rewrite IH. unfold sum_Z. lia.
Qed.

Lemma py_sum_Z_sum {A : Type} (f : A -> Z) (l : list A) :
  py_sum_Z f l = sum_Z f l.
Proof. unfold py_sum_Z. by rewrite py_sum_Z_acc. Qed.

Lemma line_avg_Z_mean_y (line : list glyph) :
  line <> [] -> line_avg_Z g_y line = Ok (mean_y line).
Proof.
  intros Hne. unfold line_avg_Z, mean_y. rewrite py_sum_Z_sum.
  apply py_div_ok. destruct line; [done|]. unfold Qeq. simpl. lia.
Qed.

Lemma mean_y_perm (l1 l2 : list glyph) : l1 ≡ₚ l2 -> mean_y l1 = mean_y l2.
Proof.
  intros Hp. unfold mean_y. by rewrite (sum_Z_perm _ _ _ Hp), Hp.
Qed.

Section ReadingOrderRows.
Variable matches : glyph -> list glyph -> result bool.
Hypothesis matches_ok :
  forall g line, line <> [] -> exists b, matches g line = Ok b.

Lemma sort_lines_rows (lines : list (list glyph)) :
  Forall (fun line => line <> []) lines ->
  exists lines',
    sort_lines lines = Ok lines'
    /\ lines' ≡ₚ lines
    /\ StronglySorted (fun r1 r2 => (mean_y r1 <= mean_y r2)%Q) lines'.
Proof.
  intros Hne. unfold sort_lines.
  destruct (result_mapM_Forall2
              (fun line => let* k := line_avg_Z g_y line in Ok (k, line))
              (fun line kl => kl = (mean_y line, line)) lines)
    as (keyed & -> & HF).
  { eapply Forall_impl; [exact Hne|]. intros line Hl. simpl.
    rewrite (line_avg_Z_mean_y line Hl). cbn [rbind]. eauto. }
  cbn [rbind]. eexists. split; [reflexivity|].
  assert (keyed = map (fun line => (mean_y line, line)) lines) as ->.
  { clear Hne. induction HF as [|line kl lines keyed Hs _ IH]; simpl;
      [reflexivity|]. by rewrite Hs, IH. }
  set (ltk := fun a b : Q * list glyph => Qltb (fst a) (fst b)).
  split.
  { rewrite sorted_perm, map_map. simpl. by rewrite map_id. }
  assert (Forall (fun kl => fst kl = mean_y (snd kl))
                 (sorted ltk (map (fun line => (mean_y line, line)) lines)))
    as Hkey.
  { rewrite sorted_perm. apply Forall_map. by apply Forall_true. }
  pose proof (sorted_ordered ltk) as Hs.
  specialize (Hs ltac:(unfold ltk; intros a b H; apply Qltb_lt in H;
                       apply Qltb_ge; lra)
                 ltac:(unfold ltk; intros a b c H1 H2; apply Qltb_lt in H1, H2;
                       apply Qltb_lt; lra)
                 (map (fun line => (mean_y line, line)) lines)).
  revert Hs Hkey.
  generalize (sorted ltk (map (fun line => (mean_y line, line)) lines)).
  intros l Hs. induction Hs as [|kl l _ IH Hkl]; intros Hkey; simpl;
    constructor.
  - apply IH. by inversion Hkey.
  - inversion Hkey as [|? ? Hk Hks]; subst. apply Forall_map.
    rewrite Forall_forall in Hkl, Hks. apply Forall_forall. intros kl' Hin.
    specialize (Hkl kl' Hin). specialize (Hks kl' Hin). simpl.
    unfold ltk in Hkl. apply Qltb_ge in Hkl. by rewrite <- Hk, <- Hks.
Qed.

Lemma reading_order_rows (glyphs : list glyph) :
  exists rows,
    reading_order matches glyphs = Ok (concat rows)
    /\ concat rows ≡ₚ glyphs
    /\ Forall (fun row => row <> []) rows
    /\ Forall (StronglySorted (fun a b => g_x a <= g_x b)) rows
    /\ StronglySorted (fun r1 r2 => (mean_y r1 <= mean_y r2)%Q) rows.
Proof.
  unfold reading_order.
  destruct (cluster_lines_ok matches matches_ok (sorted lt_y glyphs) [])
    as (lines & -> & Hne & Hp); [constructor|].
  cbn [rbind].
  destruct (sort_lines_rows lines Hne) as (lines' & -> & Hp' & Hs).
  cbn [rbind]. exists (map (sorted lt_x) lines').
  split; [reflexivity|]. split.
  { fold (flatten_lines lines').
    rewrite flatten_lines_perm, (concat_perm _ _ Hp'), Hp. simpl.
    apply sorted_perm. }
  split.
  { apply Forall_map. rewrite Hp'. eapply Forall_impl; [exact Hne|].
    intros line Hl E. apply Hl. by apply (sorted_nil_inv lt_x). }
  split.
  { apply Forall_map, Forall_true. intros line. apply sorted_by_x. }
  eapply StronglySorted_map; [|exact Hs]. intros r1 r2 H. simpl in H |- *.
  by rewrite (mean_y_perm _ _ (sorted_perm lt_x r1)),
             (mean_y_perm _ _ (sorted_perm lt_x r2)).
Qed.
End ReadingOrderRows.

(** X7. The reading order of V8 is a sequence of rows: the output is the
    concatenation of non-empty rows that hold the input glyphs, the glyphs
    of a row come by non-decreasing [x], and the rows come by
    non-decreasing mean [y] of their glyphs. *)
Theorem reading_order_is_rows_left_to_right (glyphs : list glyph) :
  exists rows : list (list glyph),
    V8._sort_contours_by_path glyphs = Ok (concat rows)
    /\ concat rows ≡ₚ glyphs
    /\ Forall (fun row => row <> []) rows
    /\ Forall (StronglySorted (fun a b => g_x a <= g_x b)) rows
    /\ StronglySorted (fun r1 r2 => (mean_y r1 <= mean_y r2)%Q) rows.
Proof.
  destruct glyphs as [|g0 rest].
  - exists []. simpl. repeat split; constructor.
  - apply (reading_order_rows V8.matches V8_matches_ok).
Qed.

(** X8. The V8.1 order puts the macro objects first: the output is the
    glyphs of area at least 5000, by non-increasing area, followed by the
    glyphs of area below 5000, and these come in rows (non-decreasing [x]
    in a row, rows by non-decreasing mean [y]). *)
Theorem macro_objects_first_largest_first (glyphs : list glyph) :
  exists (macro : list glyph) (rows : list (list glyph)),
    V8_1._sort_contours_by_path glyphs = Ok (macro ++ concat rows)
    /\ macro ≡ₚ filter (fun g => 5000 <= g_area g) glyphs
    /\ concat rows ≡ₚ filter (fun g => ~ 5000 <= g_area g) glyphs
    /\ StronglySorted (fun a b => g_area b <= g_area a) macro
    /\ Forall (fun row => row <> []) rows
    /\ Forall (StronglySorted (fun a b => g_x a <= g_x b)) rows
    /\ StronglySorted (fun r1 r2 => (mean_y r1 <= mean_y r2)%Q) rows.
Proof.
  destruct glyphs as [|g0 rest].
  - exists [], []. simpl. repeat split; constructor.
  - cbn [V8_1._sort_contours_by_path].
    destruct (reading_order_rows V8_1.matches V8_1_matches_ok
                (filter (fun g => ~ V8_1.is_macro g) (g0 :: rest)))
      as (rows & -> & Hp & Hne & Hx & Hy).
    cbn [rbind]. eexists _, rows. split; [reflexivity|].
    split; [apply sorted_perm|]. split; [exact Hp|].
    split; [apply sorted_by_area_desc|]. by split; [|split].
Qed.

(** ** The greedy pen path (V7.3) *)

Lemma argmax_area_spec (l : list glyph) :
  forall (pre : list glyph) (best_i : nat) (best : glyph),
    pre !! best_i = Some best ->
    Forall (fun g => g_area g <= g_area best) pre ->
    exists top,
      (pre ++ l) !! V7_3.argmax_area best_i (g_area best) (length pre) l
      = Some top
      /\ Forall (fun g => g_area g <= g_area top) (pre ++ l).
Proof.
  induction l as [|g l IH]; intros pre best_i best Hb Hpre; simpl.
  - exists best. rewrite app_nil_r. by split.
  - replace (pre ++ g :: l) with ((pre ++ [g]) ++ l)
      by (by rewrite <- app_assoc).
    replace (S (length pre)) with (length (pre ++ [g]))
      by (rewrite length_app; simpl; lia).
    destruct (Z.ltb_spec (g_area best) (g_area g)) as [Hlt|Hge].
    + apply (IH (pre ++ [g]) (length pre) g).
      * by rewrite lookup_app_r, Nat.sub_diag by lia.
      * apply Forall_app. split; [|by repeat constructor].
        eapply Forall_impl; [exact Hpre|]. intros c Hc. simpl in Hc. lia.
    + apply (IH (pre ++ [g]) best_i best).
      * by apply lookup_app_l_Some.
      * apply Forall_app. split; [exact Hpre|]. by repeat constructor.
Qed.

Lemma closest_spec (current : glyph) (rest : list glyph) :
  forall (pre : list glyph) (best_idx : Z) (min_dist : option Q),
    (pre = [] /\ min_dist = None
     \/ exists b, 0 <= best_idx
                  /\ pre !! Z.to_nat best_idx = Some b
                  /\ min_dist = Some (dist2 current b)
                  /\ Forall (fun c => (dist2 current b <= dist2 current c)%Q)
                            pre) ->
    pre ++ rest <> [] ->
    exists b,
      0 <= V7_3.closest (fst (g_center current)) (snd (g_center current))
                        best_idx min_dist (Z.of_nat (length pre)) rest
      /\ (pre ++ rest)
           !! Z.to_nat (V7_3.closest (fst (g_center current))
                                     (snd (g_center current)) best_idx min_dist
                                     (Z.of_nat (length pre)) rest)
         = Some b
      /\ Forall (fun c => (dist2 current b <= dist2 current c)%Q) (pre ++ rest).
Proof.
  induction rest as [|cand rest IH]; intros pre best_idx min_dist Hinv Hne.
  - rewrite app_nil_r in *. simpl.
    destruct Hinv as [[-> _]|(b & H0 & Hb & _ & Hall)]; [done|].
    exists b. by split; [|split].
  - replace (pre ++ cand :: rest) with ((pre ++ [cand]) ++ rest)
      by (by rewrite <- app_assoc).
    assert (Z.of_nat (length pre) + 1 = Z.of_nat (length (pre ++ [cand])))
      as Hlen by (rewrite length_app; simpl; lia).
    assert (dist2 current cand
            = let '(dcx, dcy) := g_center cand in
              ((fst (g_center current) - dcx) * (fst (g_center current) - dcx)
               + (snd (g_center current) - dcy)
                 * (snd (g_center current) - dcy))%Q) as Hd.
    { unfold dist2. by destruct (g_center current), (g_center cand). }
    cbn [V7_3.closest]. destruct (g_center cand) as [dcx dcy] eqn:Ec.
    rewrite <- Hd, Hlen.
    assert ((pre ++ [cand]) !! Z.to_nat (Z.of_nat (length pre)) = Some cand)
      as Hcand by (by rewrite Nat2Z.id, lookup_app_r, Nat.sub_diag by lia).
    destruct Hinv as [[-> ->]|(b & H0 & Hb & -> & Hall)].
    + apply IH; [|by destruct rest].
      right. exists cand. simpl.
      split; [lia|]. split; [reflexivity|]. split; [reflexivity|].
      repeat constructor. apply Qle_refl.
    + destruct (Qltb (dist2 current cand) (dist2 current b)) eqn:E.
      * apply Qltb_lt in E. apply IH; [|by destruct pre].
        right. exists cand.
        split; [lia|]. split; [exact Hcand|]. split; [reflexivity|].
        apply Forall_app. split; [|repeat constructor; apply Qle_refl].
        eapply Forall_impl; [exact Hall|]. intros c Hc. simpl in Hc. lra.
      * apply Qltb_ge in E. apply IH; [|by destruct pre].
        right. exists b.
        split; [exact H0|]. split; [by apply lookup_app_l_Some|].
        split; [reflexivity|].
        apply Forall_app. split; [exact Hall|]. by repeat constructor.
Qed.

Lemma py_pop_lookup {A : Type} (l : list A) (i : Z) (a b : A) (r : list A) :
  0 <= i -> l !! Z.to_nat i = Some b -> py_pop l i = Ok (a, r) -> a = b.
Proof.
  intros Hi Hb. unfold py_pop.
  destruct (Z.ltb_spec i 0); [lia|].
  destruct ((i <? 0) || (Z.of_nat (length l) <=? i)); [discriminate|].
  rewrite Hb. by intros [= <- _].
Qed.

Lemma greedy_chain (fuel : nat) :
  forall current unvisited ordered,
    (length unvisited <= fuel)%nat ->
    exists path,
      V7_3.greedy fuel current unvisited ordered = Ok (ordered ++ path)
      /\ path ≡ₚ unvisited
      /\ nearest_chain current path.
Proof.
  induction fuel as [|fuel IH]; intros current unvisited ordered Hlen.
  - destruct unvisited; [|simpl in Hlen; lia].
    exists []. simpl. by rewrite app_nil_r.
  - destruct unvisited as [|u unvisited].
    { exists []. simpl. by rewrite app_nil_r. }
    cbn [V7_3.greedy].
    destruct (closest_spec current (u :: unvisited) [] (-1) None)
      as (b & H0 & Hb & Hall); [by left | done |].
    simpl length in H0, Hb. change (Z.of_nat 0) with 0 in H0, Hb.
    rewrite app_nil_l in Hb, Hall.
    destruct (g_center current) as [cx cy] eqn:Ec. cbn [fst snd] in H0, Hb.
    set (best_idx := V7_3.closest cx cy (-1) None 0 (u :: unvisited)) in *.
    pose proof (closest_range cx cy (u :: unvisited) (-1) None 0) as Hr.
    fold best_idx in Hr.
    destruct (py_pop_in_range (u :: unvisited) best_idx) as (a & r & E);
      [simpl length in *; lia|].
    rewrite E. cbn [rbind].
    assert (a = b) as -> by (by eapply py_pop_lookup).
    pose proof (py_pop_length _ _ _ _ E) as Hl.
    pose proof (py_pop_perm _ _ _ _ E) as Hp.
    destruct (IH b r (ordered ++ [b])) as (path & Eo & Hpp & Hch);
      [simpl in Hl, Hlen; lia|].
    exists (b :: path). rewrite Eo, <- app_assoc. split; [reflexivity|].
    split; [by rewrite Hpp, Hp|]. simpl. split; [|exact Hch].
    rewrite Hpp, <- Hp. exact Hall.
Qed.

Lemma nearest_chain_lookup (path : list glyph) :
  forall current i j a b c,
    (i < j)%nat ->
    (current :: path) !! i = Some a -> (current :: path) !! S i = Some b ->
    (current :: path) !! j = Some c ->
    nearest_chain current path ->
    (dist2 a b <= dist2 a c)%Q.
Proof.
  induction path as [|next rest IH]; intros current i j a b c Hij Hi Hs Hj Hch.
  - destruct i; simpl in Hs; [discriminate | by destruct i].
  - destruct Hch as [Hall Hch]. destruct i as [|i].
    + simpl in Hi, Hs. injection Hi as <-. injection Hs as <-.
      destruct j as [|j]; [lia|]. simpl in Hj.
      rewrite Forall_forall in Hall. apply Hall.
      by eapply list_elem_of_lookup_2.
    + destruct j as [|j]; [lia|].
      apply (IH next i j a b c); [lia | exact Hi | exact Hs | exact Hj | exact Hch].
Qed.

(** X9. The pen path of V7.3 holds the input glyphs, starts at a glyph of
    the largest area, and is greedy: each next glyph is, among all the
    glyphs that come after the current one, one whose centre is nearest to
    the centre of the current one. *)
Theorem pen_path_starts_largest_then_nearest (glyphs : list glyph) :
  exists ordered,
    V7_3._sort_contours_by_path glyphs = Ok ordered
    /\ ordered ≡ₚ glyphs
    /\ (forall start g, ordered !! 0%nat = Some start -> g ∈ glyphs ->
                        g_area g <= g_area start)
    /\ (forall i j a b c,
           (i < j)%nat ->
           ordered !! i = Some a -> ordered !! S i = Some b ->
           ordered !! j = Some c ->
           (dist2 a b <= dist2 a c)%Q).
Proof.
  destruct glyphs as [|g0 rest].
  - exists []. simpl. repeat split; [done | | ]; intros; discriminate.
  - cbn [V7_3._sort_contours_by_path].
    destruct (argmax_area_spec rest [g0] 0%nat g0) as (top & Htop & Hmax);
      [reflexivity | by repeat constructor |].
    simpl length in Htop. simpl app in Htop, Hmax.
    set (start_idx := V7_3.argmax_area 0 (g_area g0) 1 rest) in *.
    unfold py_index. rewrite Htop. cbn [rbind].
    pose proof (argmax_area_range rest 0%nat (g_area g0) 1%nat) as Hr.
    fold start_idx in Hr.
    destruct (py_pop_in_range (g0 :: rest) (Z.of_nat start_idx))
      as (a & r & E); [simpl length; lia|].
    rewrite E. cbn [rbind snd].
    assert (a = top) as ->.
    { eapply py_pop_lookup; [|by rewrite Nat2Z.id|exact E]. lia. }
    pose proof (py_pop_perm _ _ _ _ E) as Hp.
    destruct (greedy_chain (length r) top r [top]) as (path & -> & Hpp & Hch);
      [lia|].
    exists (top :: path). split; [reflexivity|].
    split; [by rewrite Hpp, Hp|]. split.
    + intros start g [= <-] Hg. rewrite Forall_forall in Hmax. by apply Hmax.
    + intros i j a b c Hij Hi Hs Hj.
      by apply (nearest_chain_lookup path top i j a b c).
Qed.

(** ** Word merge: large glyphs and runs *)

Section MergeRuns.
Variable th : MergeWords.thresholds.

Lemma group_loop_word_of (rest : list glyph) :
  forall merged groups current_meta members,
    Forall2 word_of merged groups ->
    word_of current_meta members ->
    Forall2 word_of (MergeWords.merge_loop th merged current_meta rest)
            (group_loop th groups current_meta members rest).
Proof.
  induction rest as [|next_g rest IH]; intros merged groups cur members HF Hc;
    simpl.
  - apply Forall2_app; [exact HF|]. by constructor.
  - destruct (MergeWords.vertical_match th cur next_g
              && MergeWords.horizontal_match th cur next_g).
    + apply IH; [exact HF|]. destruct Hc as (Ha & first & tl & -> & Hid).
      split; [by apply absorbed_step|]. exists first, (tl ++ [next_g]).
      by split.
    + apply IH.
      * apply Forall2_app; [exact HF|]. by constructor.
      * split; [apply absorbed_singleton|]. by exists next_g, [].
Qed.

Lemma merge_loop_length (rest : list glyph) :
  forall merged current_meta,
    (length (MergeWords.merge_loop th merged current_meta rest)
     <= length merged + S (length rest))%nat.
Proof.
  induction rest as [|next_g rest IH]; intros merged cur; simpl.
  - rewrite length_app. simpl. lia.
  - destruct (MergeWords.vertical_match th cur next_g
              && MergeWords.horizontal_match th cur next_g).
    + specialize (IH merged (MergeWords.absorb cur next_g)). lia.
    + specialize (IH (merged ++ [cur]) next_g). rewrite length_app in IH.
      simpl in IH. lia.
Qed.
End MergeRuns.

Lemma sorted_by_yx (l : list glyph) :
  StronglySorted (fun a b => g_y a < g_y b \/ g_y a = g_y b /\ g_x a <= g_x b)
                 (sorted MergeWords.lt_yx l).
Proof.
  eapply StronglySorted_impl; [|apply (sorted_ordered MergeWords.lt_yx)].
  - unfold MergeWords.lt_yx. intros a b H. lia.
  - unfold MergeWords.lt_yx. intros a b H. lia.
  - unfold MergeWords.lt_yx. intros a b c H1 H2. lia.
Qed.

(** X10. The word merge never touches a glyph whose area reaches the
    limit: the output ends with exactly these glyphs, unchanged and in their
    input order. Before them come the words: each word absorbed a run of
    consecutive glyphs of the smaller ones taken by rows ([y], then [x]),
    the runs follow each other in that order and cover all of them, and a
    word keeps the id of the first glyph of its run. *)
Theorem large_glyphs_bypass_the_merge
        (th : MergeWords.thresholds) (glyphs : list glyph) :
  exists (words : list glyph) (runs : list (list glyph)),
    MergeWords._safely_merge_words th glyphs
    = words ++ filter (fun g => ~ g_area g < MergeWords.area_limit th) glyphs
    /\ Forall2 word_of words runs
    /\ concat runs
       = sorted MergeWords.lt_yx
                (filter (fun g => g_area g < MergeWords.area_limit th) glyphs)
    /\ StronglySorted
         (fun a b => g_y a < g_y b \/ g_y a = g_y b /\ g_x a <= g_x b)
         (concat runs)
    /\ (length (MergeWords._safely_merge_words th glyphs) <= length glyphs)%nat.
Proof.
  pose proof (candidates_bypass_perm th glyphs) as Hcb.
  apply Permutation_length in Hcb. rewrite length_app in Hcb.
  unfold MergeWords._safely_merge_words.
  fold (MergeWords.is_candidate th).
  change (filter (fun g => ~ MergeWords.is_candidate th g) glyphs)
    with (MergeWords.bypass_of th glyphs).
  change (filter (MergeWords.is_candidate th) glyphs)
    with (MergeWords.candidates_of th glyphs).
  destruct glyphs as [|g0 glyphs].
  { exists [], []. simpl. repeat split; constructor. }
  pose proof (sorted_perm MergeWords.lt_yx
                          (MergeWords.candidates_of th (g0 :: glyphs))) as Hsp.
  apply Permutation_length in Hsp.
  destruct (sorted MergeWords.lt_yx (MergeWords.candidates_of th (g0 :: glyphs)))
    as [|c0 rest] eqn:E.
  - exists [], []. simpl.
    split; [reflexivity|]. split; [constructor|]. split; [reflexivity|].
    split; [constructor|]. simpl in Hcb. lia.
  - exists (MergeWords.merge_loop th [] c0 rest),
           (group_loop th [] c0 [c0] rest).
    split; [reflexivity|].
    assert (Forall2 word_of (MergeWords.merge_loop th [] c0 rest)
                    (group_loop th [] c0 [c0] rest)) as HF.
    { apply group_loop_word_of; [constructor|].
      split; [apply absorbed_singleton|]. by exists c0, []. }
    split; [exact HF|].
    assert (concat (group_loop th [] c0 [c0] rest) = c0 :: rest) as Hc
        by (by rewrite group_loop_concat).
    split; [exact Hc|]. split.
    + rewrite Hc, <- E. apply sorted_by_yx.
    + rewrite length_app.
      pose proof (merge_loop_length th rest [] c0) as Hm.
      simpl in Hm, Hsp. lia.
Qed.

(** ** V6: the bins of the bounding boxes *)

Lemma seg_meta_from_boxes (width height : Z) (segments : list segment) :
  forall i0 m,
    m ∈ omap (fun m => m) (V6.seg_meta_from width height i0 segments) ->
    exists (k : nat) seg,
      segments !! k = Some seg
      /\ V6.m_idx m = i0 + Z.of_nat k
      /\ V6.meta_of width height (i0 + Z.of_nat k) seg = Some m.
Proof.
  induction segments as [|seg rest IH]; intros i0 m Hm; simpl in Hm.
  - by apply elem_of_nil in Hm.
  - destruct (V6.meta_of width height i0 seg) as [m0|] eqn:E; simpl in Hm.
    + apply elem_of_cons in Hm as [->|Hm].
      * exists 0%nat, seg. rewrite Z.add_0_r.
        split; [reflexivity|]. split; [|exact E].
        unfold V6.meta_of in E. destruct (seg_bbox seg) as [[[[? ?] ?] ?]|];
          [|discriminate].
        destruct (_ || _); [discriminate|]. by injection E as <-.
      * destruct (IH _ _ Hm) as (k & seg' & Hk & Hi & Hmeta).
        exists (S k), seg'. replace (i0 + Z.of_nat (S k)) with (i0 + 1 + Z.of_nat k)
          by lia. by repeat split.
    + destruct (IH _ _ Hm) as (k & seg' & Hk & Hi & Hmeta).
      exists (S k), seg'. replace (i0 + Z.of_nat (S k)) with (i0 + 1 + Z.of_nat k)
        by lia. by repeat split.
Qed.

Lemma valid_boxes_idx (width height : Z) (segments : list segment) (m : V6.meta) :
  m ∈ valid_boxes width height segments ->
  0 <= V6.m_idx m < Z.of_nat (length segments).
Proof.
  intros Hm. apply seg_meta_from_boxes in Hm as (k & seg & Hk & Hi & _).
  apply lookup_lt_Some in Hk. lia.
Qed.

Section Routing.
Variables (gx gy : Q).

Lemma smallest_container_spec (rest : list (option V6.meta)) :
  forall (seen : list V6.meta) (best_seg_idx : Z) (min_container_area : option Q),
    (best_seg_idx = -1 /\ min_container_area = None
     /\ Forall (fun m' => V6.inside gx gy m' = false) seen
     \/ exists m, m ∈ seen /\ V6.m_idx m = best_seg_idx
                  /\ min_container_area = Some (V6.m_area m)
                  /\ V6.inside gx gy m = true
                  /\ Forall (fun m' => V6.inside gx gy m' = true ->
                                       (V6.m_area m <= V6.m_area m')%Q) seen) ->
    (V6.smallest_container gx gy best_seg_idx min_container_area rest = -1
     /\ Forall (fun m' => V6.inside gx gy m' = false)
               (seen ++ omap (fun m => m) rest))
    \/ exists m,
        m ∈ seen ++ omap (fun m => m) rest
        /\ V6.m_idx m
           = V6.smallest_container gx gy best_seg_idx min_container_area rest
        /\ V6.inside gx gy m = true
        /\ Forall (fun m' => V6.inside gx gy m' = true ->
                             (V6.m_area m <= V6.m_area m')%Q)
                  (seen ++ omap (fun m => m) rest).
Proof.
  induction rest as [|[m|] rest IH]; intros seen best mn Hinv;
    cbn [V6.smallest_container].
  - change (omap (fun m => m) []) with (@nil V6.meta). rewrite app_nil_r.
    destruct Hinv as [(-> & _ & Hall)|(m & Hm & Hi & _ & Hin & Hall)];
      [by left | right; by exists m].
  - change (omap (fun m => m) (Some m :: rest))
      with (m :: omap (fun m => m) rest).
    replace (seen ++ m :: omap (fun m => m) rest)
      with ((seen ++ [m]) ++ omap (fun m => m) rest)
      by (by rewrite <- app_assoc).
    destruct (V6.inside gx gy m) eqn:Ein; cbn [andb].
    + destruct Hinv as [(-> & -> & Hall)|(m0 & Hm0 & Hi & -> & Hin & Hall)].
      * apply IH. right. exists m.
        split; [apply elem_of_app; right; apply list_elem_of_singleton; done|].
        split; [reflexivity|]. split; [reflexivity|]. split; [exact Ein|].
        apply Forall_app. split.
        -- eapply Forall_impl; [exact Hall|]. intros m' H1 H2. simpl in H1.
           congruence.
        -- repeat constructor. intros _. apply Qle_refl.
      * destruct (Qltb (V6.m_area m) (V6.m_area m0)) eqn:Elt.
        -- apply Qltb_lt in Elt. apply IH. right. exists m.
           split; [apply elem_of_app; right; apply list_elem_of_singleton; done|].
           split; [reflexivity|]. split; [reflexivity|]. split; [exact Ein|].
           apply Forall_app. split.
           ++ eapply Forall_impl; [exact Hall|]. intros m' H1 H2. simpl in H1.
              specialize (H1 H2). lra.
           ++ repeat constructor. intros _. apply Qle_refl.
        -- apply Qltb_ge in Elt. apply IH. right. exists m0.
           split; [apply elem_of_app; by left|].
           split; [exact Hi|]. split; [reflexivity|]. split; [exact Hin|].
           apply Forall_app. split; [exact Hall|]. by repeat constructor.
    + apply IH.
      destruct Hinv as [(-> & -> & Hall)|(m0 & Hm0 & Hi & -> & Hin & Hall)].
      * left. split; [reflexivity|]. split; [reflexivity|].
        apply Forall_app. split; [exact Hall|]. by repeat constructor.
      * right. exists m0. split; [apply elem_of_app; by left|].
        split; [exact Hi|]. split; [reflexivity|]. split; [exact Hin|].
        apply Forall_app. split; [exact Hall|]. repeat constructor.
        intros H. congruence.
  - change (omap (fun m => m) (None :: rest)) with (omap (fun m => m) rest).
    by apply IH.
Qed.

Lemma nearest_center_spec (rest : list V6.meta) :
  forall (seen : list V6.meta) (best_idx : Z) (min_dist : option Q),
    (seen = [] /\ min_dist = None
     \/ exists m, m ∈ seen /\ V6.m_idx m = best_idx
                  /\ min_dist = Some (centre_dist2 gx gy m)
                  /\ Forall (fun m' => (centre_dist2 gx gy m
                                        <= centre_dist2 gx gy m')%Q) seen) ->
    seen ++ rest <> [] ->
    exists m, m ∈ seen ++ rest
              /\ V6.m_idx m = V6.nearest_center gx gy best_idx min_dist rest
              /\ Forall (fun m' => (centre_dist2 gx gy m
                                    <= centre_dist2 gx gy m')%Q) (seen ++ rest).
Proof.
  induction rest as [|m rest IH]; intros seen best mn Hinv Hne; simpl.
  - rewrite app_nil_r in *.
    destruct Hinv as [[-> _]|(m & Hm & Hi & _ & Hall)]; [done|]. by exists m.
  - replace (seen ++ m :: rest) with ((seen ++ [m]) ++ rest)
      by (by rewrite <- app_assoc).
    assert (centre_dist2 gx gy m
            = let '(cx, cy) := V6.m_center m in
              ((gx - cx) * (gx - cx) + (gy - cy) * (gy - cy))%Q) as Hd
        by reflexivity.
    destruct (V6.m_center m) as [cx cy]. rewrite <- Hd.
    destruct Hinv as [[-> ->]|(m0 & Hm0 & Hi & -> & Hall)].
    + apply IH; [|by destruct rest]. right. exists m.
      split; [apply list_elem_of_singleton; done|].
      split; [reflexivity|]. split; [reflexivity|].
      repeat constructor. apply Qle_refl.
    + destruct (Qltb (centre_dist2 gx gy m) (centre_dist2 gx gy m0)) eqn:E.
      * apply Qltb_lt in E. apply IH; [|by destruct seen]. right. exists m.
        split; [apply elem_of_app; right; apply list_elem_of_singleton; done|].
        split; [reflexivity|]. split; [reflexivity|].
        apply Forall_app. split; [|repeat constructor; apply Qle_refl].
        eapply Forall_impl; [exact Hall|]. intros m' H1. simpl in H1. lra.
      * apply Qltb_ge in E. apply IH; [|by destruct seen]. right. exists m0.
        split; [apply elem_of_app; by left|].
        split; [exact Hi|]. split; [reflexivity|].
        apply Forall_app. split; [exact Hall|]. by repeat constructor.
Qed.
End Routing.

(** *** Bins as lists *)

Lemma bins_in_order_ext {A : Type} (bins1 bins2 : gmap Z (list A)) (s n : nat) :
  (forall k, (s <= k < s + n)%nat -> bins1 !! Z.of_nat k = bins2 !! Z.of_nat k) ->
  concat (map (fun i => default [] (bins1 !! Z.of_nat i)) (seq s n))
  = concat (map (fun i => default [] (bins2 !! Z.of_nat i)) (seq s n)).
Proof.
  intros Hk. f_equal. apply map_ext_in. intros k Hin.
  apply in_seq in Hin. by rewrite Hk.
Qed.

Lemma bins_in_order_append {A : Type} (n : nat) (bins : gmap Z (list A))
      (i : Z) (l : list A) (a : A) :
  0 <= i < Z.of_nat n -> bins !! i = Some l ->
  bins_in_order n (<[i := l ++ [a]]> bins) ≡ₚ a :: bins_in_order n bins.
Proof.
  intros Hi Hl. unfold bins_in_order.
  replace n with (Z.to_nat i + S (n - S (Z.to_nat i)))%nat by lia.
  rewrite seq_app, !map_app, !concat_app. cbn [seq map concat Nat.add].
  rewrite (bins_in_order_ext (<[i := l ++ [a]]> bins) bins 0 (Z.to_nat i))
    by (intros k Hk; apply lookup_insert_ne; lia).
  rewrite (bins_in_order_ext (<[i := l ++ [a]]> bins) bins (S (Z.to_nat i)))
    by (intros k Hk; apply lookup_insert_ne; lia).
  rewrite Z2Nat.id by lia. rewrite lookup_insert_eq, Hl. cbn [default id].
  rewrite <- !app_assoc. cbn [app]. symmetry.
  etrans; [apply Permutation_middle|]. apply Permutation_app_head.
  apply Permutation_middle.
Qed.

Lemma keys_upto_insert {A : Type} (n : nat) (bins : gmap Z (list A))
      (i : Z) (l : list A) :
  0 <= i < Z.of_nat n -> keys_upto n bins -> keys_upto n (<[i := l]> bins).
Proof.
  intros Hi Hk j. destruct (decide (i = j)) as [<-|Hne].
  - rewrite lookup_insert_eq. split; [done | by eexists].
  - rewrite lookup_insert_ne by done. apply Hk.
Qed.

Lemma empty_bins_lookup (n : nat) :
  forall (s : nat) (i : Z),
    (list_to_map (map (fun k => (Z.of_nat k, [])) (seq s n))
     : gmap Z (list V6.glyph)) !! i
    = if decide (Z.of_nat s <= i < Z.of_nat (s + n)) then Some [] else None.
Proof.
  induction n as [|n IH]; intros s i; simpl.
  - rewrite lookup_empty. destruct (decide _); [lia | done].
  - destruct (decide (Z.of_nat s = i)) as [<-|Hne].
    + rewrite lookup_insert_eq. destruct (decide _); [done | lia].
    + rewrite lookup_insert_ne by done. rewrite IH.
      repeat destruct (decide _); try done; lia.
Qed.

Lemma empty_bins_keys (n : nat) : keys_upto n (V6.empty_bins n).
Proof.
  intros i. unfold V6.empty_bins. rewrite empty_bins_lookup.
  destruct (decide _) as [H|H]; simpl in H.
  - split; [lia | by eexists].
  - split; [intros [? [=]] | lia].
Qed.

Lemma empty_bins_in_order (n : nat) : bins_in_order n (V6.empty_bins n) = [].
Proof.
  unfold bins_in_order. apply concat_nil_Forall, Forall_map, Forall_forall.
  intros k Hk. unfold V6.empty_bins. rewrite empty_bins_lookup.
  by destruct (decide _).
Qed.

Lemma empty_bins_default (n : nat) (i : Z) :
  default [] (V6.empty_bins n !! i) = [].
Proof.
  unfold V6.empty_bins. rewrite empty_bins_lookup. by destruct (decide _).
Qed.

Section Bins.
Variables (n : nat) (seg_meta : list (option V6.meta)) (boxes : list V6.meta).
Hypothesis boxes_valid : boxes = omap (fun m => m) seg_meta.
Hypothesis boxes_idx : forall m, m ∈ boxes -> 0 <= V6.m_idx m < Z.of_nat n.

Lemma append_to_ok (bins : gmap Z (list V6.glyph)) (i : Z) (g : V6.glyph) :
  keys_upto n bins -> 0 <= i < Z.of_nat n ->
  exists bins',
    V6.append_to bins i g = Ok bins'
    /\ keys_upto n bins'
    /\ bins_in_order n bins' ≡ₚ g :: bins_in_order n bins
    /\ (forall j h, h ∈ default [] (bins' !! j) ->
                    h ∈ default [] (bins !! j) \/ h = g /\ j = i).
Proof.
  intros Hk Hi. unfold V6.append_to.
  destruct (bins !! i) as [l|] eqn:El.
  2: { apply Hk in Hi. rewrite El in Hi. by destruct Hi. }
  eexists. split; [reflexivity|].
  split; [by apply keys_upto_insert|].
  split; [by apply bins_in_order_append|].
  intros j h Hh. destruct (decide (i = j)) as [<-|Hne].
  - rewrite lookup_insert_eq in Hh. simpl in Hh.
    apply elem_of_app in Hh as [Hh|Hh].
    + left. by rewrite El.
    + right. by apply list_elem_of_singleton in Hh.
  - rewrite lookup_insert_ne in Hh by done. by left.
Qed.

Lemma contain_loop_ok (glyphs : list V6.glyph) :
  forall (bins : gmap Z (list V6.glyph)) (unassigned : list V6.glyph),
    keys_upto n bins ->
    exists bins' unassigned',
      V6.contain_loop seg_meta glyphs bins unassigned = Ok (bins', unassigned')
      /\ keys_upto n bins'
      /\ bins_in_order n bins' ++ unassigned'
         ≡ₚ bins_in_order n bins ++ unassigned ++ glyphs
      /\ (forall j h, h ∈ default [] (bins' !! j) ->
                      h ∈ default [] (bins !! j) \/ routed boxes (V6.glyph_gx h) (V6.glyph_gy h) j)
      /\ (forall h, h ∈ unassigned' ->
                    h ∈ unassigned \/ outside_all boxes h).
Proof.
  induction glyphs as [|g glyphs IH]; intros bins unassigned Hk.
  - exists bins, unassigned. rewrite app_nil_r.
    split; [reflexivity|]. split; [exact Hk|]. split; [reflexivity|].
    split; intros; by left.
  - cbn [V6.contain_loop].
    pose proof (smallest_container_spec (V6.glyph_gx g) (V6.glyph_gy g)
                  seg_meta [] (-1) None) as Hs.
    specialize (Hs ltac:(left; by repeat split)).
    rewrite app_nil_l in Hs.
    rewrite <- boxes_valid in Hs.
    set (r := V6.smallest_container (V6.glyph_gx g) (V6.glyph_gy g) (-1) None
                                    seg_meta) in *.
    destruct Hs as [[Hr Hnone]|(m & Hm & Hi & Hin & Hmin)].
    + rewrite Hr. cbn [Z.eqb Pos.eqb].
      destruct (IH bins (unassigned ++ [g]) Hk)
        as (bins' & un' & -> & Hk' & Hp & Hb & Hu).
      exists bins', un'. split; [reflexivity|]. split; [exact Hk'|].
      split; [by rewrite Hp, <- !app_assoc|]. split; [exact Hb|].
      intros h Hh. destruct (Hu h Hh) as [H1|H1]; [|by right].
      apply elem_of_app in H1 as [H1|H1]; [by left|].
      apply list_elem_of_singleton in H1 as ->. by right.
    + pose proof (boxes_idx _ Hm) as Hrange. rewrite Hi in Hrange.
      destruct (Z.eqb_spec r (-1)) as [E|_]; [lia|].
      destruct (append_to_ok bins r g Hk Hrange) as (b1 & -> & Hk1 & Hp1 & Hb1).
      cbn [rbind].
      destruct (IH b1 unassigned Hk1) as (bins' & un' & -> & Hk' & Hp & Hb & Hu).
      exists bins', un'. split; [reflexivity|]. split; [exact Hk'|].
      split.
      { rewrite Hp, Hp1. simpl. by rewrite <- !Permutation_middle. }
      split; [|exact Hu].
      intros j h Hh. destruct (Hb j h Hh) as [H1|H1]; [|by right].
      destruct (Hb1 j h H1) as [H2|[-> ->]]; [by left|].
      right. left. by exists m.
Qed.

Lemma nearest_loop_ok (unassigned : list V6.glyph) :
  forall bins : gmap Z (list V6.glyph),
    (0 < n)%nat -> keys_upto n bins ->
    Forall (outside_all boxes) unassigned ->
    exists bins',
      V6.nearest_loop seg_meta unassigned bins = Ok bins'
      /\ keys_upto n bins'
      /\ bins_in_order n bins' ≡ₚ bins_in_order n bins ++ unassigned
      /\ (forall j h, h ∈ default [] (bins' !! j) ->
                      h ∈ default [] (bins !! j) \/ routed boxes (V6.glyph_gx h) (V6.glyph_gy h) j).
Proof.
  induction unassigned as [|g rest IH]; intros bins Hn Hk Hout.
  - exists bins. rewrite app_nil_r.
    split; [reflexivity|]. split; [exact Hk|]. split; [reflexivity|].
    intros; by left.
  - apply Forall_cons in Hout as [Hg Hrest].
    cbn [V6.nearest_loop].
    rewrite <- boxes_valid.
    set (target := match boxes with
                   | [] => 0
                   | _ :: _ => V6.nearest_center (V6.glyph_gx g) (V6.glyph_gy g)
                                                 0 None boxes
                   end).
    assert (0 <= target < Z.of_nat n /\ routed boxes (V6.glyph_gx g) (V6.glyph_gy g) target) as [Ht Hroute].
    { subst target. clear IH boxes_valid. destruct boxes as [|m0 ms].
      - split; [lia|]. right. right. by split.
      - destruct (nearest_center_spec (V6.glyph_gx g) (V6.glyph_gy g)
                    (m0 :: ms) [] 0 None) as (m & Hm & Hi & Hmin);
          [by left | done |].
        rewrite app_nil_l in Hm, Hmin. rewrite <- Hi. split.
        + by apply boxes_idx.
        + right. left. split; [exact Hg|]. by exists m. }
    destruct (append_to_ok bins target g Hk Ht) as (b1 & E1 & Hk1 & Hp1 & Hb1).
    rewrite E1. cbn [rbind].
    destruct (IH b1 Hn Hk1 Hrest) as (bins' & -> & Hk' & Hp & Hb).
    exists bins'. split; [reflexivity|]. split; [exact Hk'|]. split.
    { rewrite Hp, Hp1. simpl. apply Permutation_middle. }
    intros j h Hh. destruct (Hb j h Hh) as [H1|H1]; [|by right].
    destruct (Hb1 j h H1) as [H2|[-> ->]]; [by left | by right].
Qed.
End Bins.

Lemma cluster_glyphs_by_bbox_ok
      (glyphs : list V6.glyph) (width height : Z) (segments : list segment) :
  exists bins,
    V6._cluster_glyphs_by_bbox glyphs width height segments = Ok bins
    /\ keys_upto (Nat.max 1 (length segments)) bins
    /\ bins_in_order (Nat.max 1 (length segments)) bins ≡ₚ glyphs
    /\ forall (i : Z) (g : V6.glyph),
        g ∈ default [] (bins !! i) ->
        routed (valid_boxes width height segments)
               (V6.glyph_gx g) (V6.glyph_gy g) i.
Proof.
  destruct segments as [|seg rest] eqn:Es.
  - exists {[ 0 := glyphs ]}. split; [reflexivity|]. split; [|split].
    + intros i. simpl. destruct (decide (i = 0)) as [->|Hne].
      * rewrite lookup_singleton_eq. split; [lia | by eexists].
      * rewrite lookup_singleton_ne by done. split; [intros [? [=]] | lia].
    + unfold bins_in_order. simpl. rewrite lookup_singleton_eq. simpl.
      by rewrite app_nil_r.
    + intros i g Hg. right. right. split; [reflexivity|].
      destruct (decide (i = 0)) as [->|Hne]; [reflexivity|].
      rewrite lookup_singleton_ne in Hg by done. by apply elem_of_nil in Hg.
  - rewrite <- Es. assert (0 < length segments)%nat as Hn by (subst; simpl; lia).
    replace (Nat.max 1 (length segments)) with (length segments) by lia.
    assert (V6._cluster_glyphs_by_bbox glyphs width height segments
            = let* contained :=
                V6.contain_loop (V6.seg_meta_from width height 0 segments)
                                glyphs (V6.empty_bins (length segments)) [] in
              let '(segment_glyphs, unassigned) := contained in
              V6.nearest_loop (V6.seg_meta_from width height 0 segments)
                              unassigned segment_glyphs) as ->
        by (rewrite Es; reflexivity).
    destruct (contain_loop_ok (length segments)
                (V6.seg_meta_from width height 0 segments)
                (valid_boxes width height segments) eq_refl
                (valid_boxes_idx width height segments) glyphs
                (V6.empty_bins (length segments)) [] (empty_bins_keys _))
      as (b1 & un & -> & Hk1 & Hp1 & Hb1 & Hu).
    cbn [rbind].
    destruct (nearest_loop_ok (length segments)
                (V6.seg_meta_from width height 0 segments)
                (valid_boxes width height segments) eq_refl
                (valid_boxes_idx width height segments) un b1 Hn Hk1)
      as (bins & -> & Hk & Hp & Hb).
    { apply Forall_forall. intros h Hh. destruct (Hu h Hh) as [H|H]; [|exact H].
      by apply elem_of_nil in H. }
    exists bins. split; [reflexivity|]. split; [exact Hk|]. split.
    + rewrite Hp, Hp1, empty_bins_in_order. reflexivity.
    + intros i g Hg. destruct (Hb i g Hg) as [H1|H1]; [|exact H1].
      destruct (Hb1 i g H1) as [H2|H2]; [|exact H2].
      rewrite empty_bins_default in H2. by apply elem_of_nil in H2.
Qed.




(** ** V6: the order inside a segment *)

Lemma sort_glyphs_in_segment_perm (glyphs : list V6.glyph) :
  V6._sort_glyphs_in_segment glyphs ≡ₚ glyphs.
Proof. destruct glyphs; [reflexivity | apply sorted_perm]. Qed.

(** X13. Inside a segment V6 draws in raster order by bands of 20 pixels:
    the sort keeps the glyphs, a glyph whose top lies in a higher band
    comes before one in a lower band, and within a band the glyphs come by
    non-decreasing [x]. *)
Theorem segment_glyphs_in_raster_order (glyphs : list V6.glyph) :
  V6._sort_glyphs_in_segment glyphs ≡ₚ glyphs
  /\ StronglySorted
       (fun a b => V6.b_y a / 20 < V6.b_y b / 20
                   \/ V6.b_y a / 20 = V6.b_y b / 20 /\ V6.b_x a <= V6.b_x b)
       (V6._sort_glyphs_in_segment glyphs).
Proof.
  split; [apply sort_glyphs_in_segment_perm|].
  destruct glyphs as [|g0 rest]; [constructor|].
  cbn [V6._sort_glyphs_in_segment].
  eapply StronglySorted_impl; [|apply (sorted_ordered V6.lt_band_x)].
  - unfold V6.lt_band_x. intros a b H. lia.
  - unfold V6.lt_band_x. intros a b H. lia.
  - unfold V6.lt_band_x. intros a b c H1 H2. lia.
Qed.

(** ** V6: from the bins to the sections *)

Section Sections.
Variables (x_offset y_offset : Z) (segment_glyph_map : gmap Z (list V6.glyph)).

Lemma append_units (i : Z) (l : list V6.glyph) :
  forall (glyph_sections : gmap Z (list V5.glyph_unit)) (acc : list V5.glyph_unit),
    glyph_sections !! i = Some acc ->
    fold_left (fun glyph_sections g =>
                 <[i := default [] (glyph_sections !! i)
                        ++ [V6.unit_of x_offset y_offset g]]> glyph_sections)
              l glyph_sections
    = <[i := acc ++ map (V6.unit_of x_offset y_offset) l]> glyph_sections.
Proof.
  induction l as [|g l IH]; intros gs acc Hacc; simpl.
  - rewrite app_nil_r. symmetry. by apply insert_id.
  - rewrite (IH _ (acc ++ [V6.unit_of x_offset y_offset g])).
    + rewrite insert_insert_eq. by rewrite <- app_assoc.
    + rewrite lookup_insert_eq, Hacc. reflexivity.
Qed.

Lemma section_step_fresh (glyph_sections : gmap Z (list V5.glyph_unit)) (i : Z) :
  glyph_sections !! i = None ->
  V6.section_step x_offset y_offset segment_glyph_map glyph_sections i
  = <[i := units_of_bin x_offset y_offset segment_glyph_map i]> glyph_sections.
Proof.
  intros Hi. unfold V6.section_step. rewrite Hi.
  rewrite (append_units i _ _ []) by apply lookup_insert_eq.
  by rewrite insert_insert_eq.
Qed.

Lemma sections_lookup (indices : list Z) :
  forall glyph_sections : gmap Z (list V5.glyph_unit),
    NoDup indices ->
    (forall i, i ∈ indices -> glyph_sections !! i = None) ->
    forall j,
      fold_left (V6.section_step x_offset y_offset segment_glyph_map)
                indices glyph_sections !! j
      = if decide (j ∈ indices)
        then Some (units_of_bin x_offset y_offset segment_glyph_map j)
        else glyph_sections !! j.
Proof.
  induction indices as [|i rest IH]; intros gs Hnd Hfresh j;
    cbn [fold_left].
  - destruct (decide (j ∈ [])) as [H|_];
      [by apply elem_of_nil in H | reflexivity].
  - apply NoDup_cons in Hnd as [Hi Hnd].
    rewrite section_step_fresh by (apply Hfresh; by left).
    rewrite IH; [|exact Hnd|].
    2: { intros k Hk. rewrite lookup_insert_ne by (intros ->; done).
         apply Hfresh. by right. }
    destruct (decide (j = i)) as [->|Hne].
    + destruct (decide (i ∈ rest)); [done|].
      rewrite lookup_insert_eq.
      destruct (decide (i ∈ i :: rest)) as [_|H]; [reflexivity|].
      exfalso. apply H. by left.
    + rewrite lookup_insert_ne by done.
      destruct (decide (j ∈ rest)) as [H|H];
        destruct (decide (j ∈ i :: rest)) as [H'|H']; try reflexivity.
      * exfalso. apply H'. by right.
      * apply elem_of_cons in H' as [->|H']; done.
Qed.
End Sections.

Lemma py_range_NoDup (n : Z) : NoDup (py_range 0 n).
Proof.
  unfold py_range. apply NoDup_fmap_2; [|apply NoDup_seq].
  intros a b Hab. lia.
Qed.

Lemma py_range_elem (n i : Z) : i ∈ py_range 0 n <-> 0 <= i < n.
Proof.
  unfold py_range. rewrite list_elem_of_fmap. split.
  - intros (k & -> & Hk). apply elem_of_seq in Hk. lia.
  - intros Hi. exists (Z.to_nat i). split; [lia|]. apply elem_of_seq. lia.
Qed.

Lemma units_in_order (x_offset y_offset : Z)
      (bins : gmap Z (list V6.glyph)) (sections : gmap Z (list V5.glyph_unit))
      (n : nat) :
  (forall i, 0 <= i < Z.of_nat n ->
             sections !! i = Some (units_of_bin x_offset y_offset bins i)) ->
  bins_in_order n sections
  ≡ₚ map (V6.unit_of x_offset y_offset) (bins_in_order n bins).
Proof.
  intros Hs. unfold bins_in_order.
  assert (forall s m, (s + m <= n)%nat ->
             concat (map (fun i => default [] (sections !! Z.of_nat i)) (seq s m))
             ≡ₚ map (V6.unit_of x_offset y_offset)
                  (concat (map (fun i => default [] (bins !! Z.of_nat i))
                               (seq s m)))) as H.
  { intros s m. revert s. induction m as [|m IH]; intros s Hsm; simpl;
      [reflexivity|].
    rewrite map_app, IH by lia. rewrite Hs by lia. simpl.
    apply Permutation_app_tail. unfold units_of_bin.
    apply Permutation_map, sort_glyphs_in_segment_perm. }
  apply H. lia.
Qed.

Section V6Generate.
Context {image : Type} `{OpenCV image}.

Lemma V6_generate_ok
      (segments : list segment) (original_resized : point -> color)
      (gray : image) :
  let ink_map := snd (V6._get_cleaned_image gray) in
  let glyphs := omap (V6.glyph_of_row ink_map)
                     (connectedComponentsWithStats ink_map) in
  let x_offset := (width - fst (shape gray)) / 2 in
  let y_offset := (height - snd (shape gray)) / 2 in
  let n := Nat.max 1 (length segments) in
  exists k,
    V6.generate segments original_resized gray = Ok k
    /\ V6.segments k = segments
    /\ V6.segment_times k = V6.segment_times_of segments
    /\ V6.is_dark_bg k = fst (V6._get_cleaned_image gray)
    /\ keys_upto n (V6.glyph_sections k)
    /\ bins_in_order n (V6.glyph_sections k)
       ≡ₚ map (V6.unit_of x_offset y_offset) glyphs.
Proof.
  intros ink_map glyphs x_offset y_offset n. subst ink_map x_offset y_offset.
  unfold V6.generate. destruct (shape gray) as [new_w new_h]. cbn [fst snd].
  destruct (V6._get_cleaned_image gray) as [dark ink_map] eqn:Ec.
  cbn [fst snd] in *. fold glyphs.
  destruct (cluster_glyphs_by_bbox_ok glyphs new_w new_h segments)
    as (bins & -> & Hk & Hp & _).
  cbn [rbind]. eexists. split; [reflexivity|].
  cbn [V6.segments V6.glyph_sections V6.segment_times V6.is_dark_bg].
  assert (V6.num_segments_of segments = Z.of_nat n) as Hn
      by (subst n; destruct segments; simpl; lia).
  rewrite Hn.
  assert (forall j,
             fold_left (V6.section_step ((width - new_w) / 2)
                                         ((height - new_h) / 2) bins)
                       (py_range 0 (Z.of_nat n)) ∅ !! j
             = if decide (0 <= j < Z.of_nat n)
               then Some (units_of_bin ((width - new_w) / 2)
                                       ((height - new_h) / 2) bins j)
               else None) as Hl.
  { intros j. rewrite sections_lookup;
      [|apply py_range_NoDup | intros; apply lookup_empty].
    rewrite lookup_empty.
    destruct (decide (j ∈ py_range 0 (Z.of_nat n))) as [Hj|Hj];
      destruct (decide (0 <= j < Z.of_nat n)) as [Hr|Hr]; try reflexivity;
      rewrite py_range_elem in Hj; lia. }
  split; [reflexivity|]. split; [reflexivity|]. split; [reflexivity|]. split.
  - intros i. rewrite Hl. destruct (decide (0 <= i < Z.of_nat n)) as [Hi|Hi].
    + split; [done | by eexists].
    + split; [intros [? [=]] | done].
  - rewrite (units_in_order ((width - new_w) / 2) ((height - new_h) / 2) bins).
    + subst n. by rewrite Hp.
    + intros i Hi. rewrite Hl. by destruct (decide (0 <= i < Z.of_nat n)).
Qed.


(** X15. Without segments V6 draws nothing: whatever the image, the clip
    is built and every frame of it is the solid background at every time
    and pixel, white unless the mean of the image is below 127. *)
Theorem V6_without_segments_draws_nothing
        (filled : list point -> point -> bool)
        (stroke : list point -> Z -> point -> bool)
        (original_resized : point -> color) (gray : image) (t : Q) :
  exists k frame,
    V6.generate [] original_resized gray = Ok k
    /\ V6.make_frame filled stroke k t = Ok frame
    /\ forall p,
        frame p
        = if below_127 (np_mean (gray_values gray)) then black else white.
Proof.
  destruct (V6_generate_ok [] original_resized gray)
    as (k & E & Hs & _ & Hd & _).
  exists k. unfold V6.make_frame, V6.reveal_mask. rewrite Hs, Hd. cbn [rbind].
  eexists. split; [exact E|]. split; [reflexivity|].
  intros p. cbn beta. by rewrite composite_nil, reverse_background.
Qed.
End V6Generate.

(** ** V6: a segment reveals whole glyphs *)

Lemma py_int_zero (q : Q) : (q == 0)%Q -> py_int q = 0.
Proof.
  intros Hq. unfold py_int. unfold Qeq in Hq. simpl in Hq.
  assert (Qnum q = 0) as -> by lia. reflexivity.
Qed.

Lemma V6_draw_segment_prefix (glyph_sections : gmap Z (list V5.glyph_unit))
      (info : seg_info) (t : Q) :
  let units := default [] (glyph_sections !! section_idx info) in
  exists k : nat,
    V6.draw_segment glyph_sections t info
    = Ok (V5.fill_units (take k units))
    /\ (k <= length units)%nat
    /\ ((seg_end info <= t)%Q -> k = length units)
    /\ ((t < seg_end info)%Q -> (t < seg_start info)%Q -> k = 0%nat)
    /\ ((t < seg_end info)%Q -> (seg_start info <= t)%Q ->
        Z.of_nat k
        = Qfloor (glyph_float (Z.of_nat (length units)) (seg_start info)
                              (seg_end info) t)).
Proof.
  intros units. unfold V6.draw_segment. fold units.
  destruct units as [|u0 rest] eqn:Eu.
  { exists 0%nat. simpl. split; [reflexivity|]. split; [lia|].
    split; [done|]. split; [done|]. intros He Hs. reflexivity. }
  rewrite <- Eu. assert (0 < Z.of_nat (length units)) as Hpos
      by (rewrite Eu; simpl; lia).
  destruct (Qle_bool (seg_end info) t) eqn:Ee.
  { apply Qle_bool_iff in Ee. exists (length units). rewrite firstn_all.
    split; [reflexivity|]. split; [lia|]. split; [done|].
    split; intros; lra. }
  assert (t < seg_end info)%Q as He.
  { apply Qnot_le_lt. intros Hle. apply Qle_bool_iff in Hle. congruence. }
  destruct (Qle_bool (seg_start info) t) eqn:Es.
  2: { assert (t < seg_start info)%Q as Hs.
       { apply Qnot_le_lt. intros Hle. apply Qle_bool_iff in Hle. congruence. }
       exists 0%nat. simpl. split; [reflexivity|]. split; [lia|].
       split; [intros; lra|]. split; [done|]. intros; lra. }
  apply Qle_bool_iff in Es.
  rewrite py_div_ok by (apply Qlt_not_eq0; lra). cbn [rbind].
  fold (glyph_float (Z.of_nat (length units)) (seg_start info) (seg_end info) t).
  destruct (glyph_float_range (Z.of_nat (length units)) _ _ t Hpos Es He)
    as (Hf0 & Hi0 & Hi1).
  rewrite (py_int_floor _ Hf0).
  set (f := Qfloor _) in *.
  exists (Z.to_nat f). unfold py_prefix.
  destruct (Z.ltb_spec f 0); [lia|].
  split; [reflexivity|]. split; [lia|]. split; [intros; lra|].
  split; [intros; lra|]. intros _ _. lia.
Qed.

(** X16. In V6 a segment shows whole glyphs only: at every time it fills
    the contours of the first [k] units of its section, [k] never decreases
    with time, it is 0 until the window opens and still 0 at the very
    instant it opens, and it is the whole section from the end of the
    window on. The division of the progress is never by zero. *)
Theorem V6_segment_reveals_whole_glyphs
        (glyph_sections : gmap Z (list V5.glyph_unit)) (info : seg_info)
        (t1 t2 : Q) :
  (t1 <= t2)%Q ->
  let units := default [] (glyph_sections !! section_idx info) in
  exists k1 k2 : nat,
    (k1 <= k2 <= length units)%nat
    /\ V6.draw_segment glyph_sections t1 info
       = Ok (V5.fill_units (take k1 units))
    /\ V6.draw_segment glyph_sections t2 info
       = Ok (V5.fill_units (take k2 units))
    /\ ((t1 <= seg_start info)%Q -> (t1 < seg_end info)%Q -> k1 = 0%nat)
    /\ ((seg_end info <= t2)%Q -> k2 = length units).
Proof.
  intros Ht units.
  destruct (V6_draw_segment_prefix glyph_sections info t1)
    as (k1 & E1 & Hk1 & Ha1 & Hb1 & Hp1).
  destruct (V6_draw_segment_prefix glyph_sections info t2)
    as (k2 & E2 & Hk2 & Ha2 & Hb2 & Hp2).
  fold units in E1, E2, Hk1, Hk2, Ha1, Ha2, Hp1, Hp2.
  exists k1, k2. split; [|split; [exact E1|split; [exact E2|split]]].
  - split; [|exact Hk2].
    destruct (Qlt_le_dec t2 (seg_end info)) as [He2|He2];
      [|rewrite (Ha2 He2); exact Hk1].
    assert (t1 < seg_end info)%Q as He1 by lra.
    destruct (Qlt_le_dec t1 (seg_start info)) as [Hs1|Hs1];
      [rewrite (Hb1 He1 Hs1); lia|].
    specialize (Hp1 He1 Hs1). specialize (Hp2 He2 ltac:(lra)).
    destruct (length units) as [|m] eqn:El; [lia|]. rewrite <- El in *.
    pose proof (Qfloor_resp_le _ _
                  (glyph_float_mono (Z.of_nat (length units)) (seg_start info)
                     (seg_end info) t1 t2 ltac:(lia) ltac:(lra) Ht)).
    lia.
  - intros Hs He.
    destruct (Qlt_le_dec t1 (seg_start info)) as [Hs1|Hs1];
      [by apply Hb1|].
    specialize (Hp1 He Hs1).
    assert (glyph_float (Z.of_nat (length units)) (seg_start info)
                        (seg_end info) t1 == 0)%Q as H0.
    { unfold glyph_float.
      assert (t1 - seg_start info == 0)%Q as -> by lra.
      unfold Qdiv. rewrite Qmult_0_l, Qmult_0_r. reflexivity. }
    rewrite H0 in Hp1. change (Qfloor 0) with 0 in Hp1. lia.
  - exact Ha2.
Qed.

(** An instance: one unit in a window from 0s to 2s, at 0s and at 3s. *)
Lemma V6_segment_reveals_whole_glyphs_witness :
  let sections : gmap Z (list V5.glyph_unit) :=
    {[ 0 := [V5.GlyphUnit [[(10, 10); (10, 20); (20, 20); (20, 10)]] 1] ]} in
  let info := SegInfo 0 0 2 in
  let units := default [] (sections !! section_idx info) in
  exists k1 k2 : nat,
    (k1 <= k2 <= length units)%nat
    /\ V6.draw_segment sections 0 info = Ok (V5.fill_units (take k1 units))
    /\ V6.draw_segment sections 3 info = Ok (V5.fill_units (take k2 units))
    /\ ((0 <= seg_start info)%Q -> (0 < seg_end info)%Q -> k1 = 0%nat)
    /\ ((seg_end info <= 3)%Q -> k2 = length units).
Proof.
  apply (V6_segment_reveals_whole_glyphs
           {[ 0 := [V5.GlyphUnit [[(10, 10); (10, 20); (20, 20); (20, 10)]] 1] ]}
           (SegInfo 0 0 2) 0 3).
  vm_compute. discriminate.
Defined.

(** ** Lists cut by a key *)

Lemma filter_none {A : Type} (P : A -> Prop) `{forall a, Decision (P a)}
      (l : list A) :
  (forall a, a ∈ l -> ~ P a) -> filter P l = [].
Proof.
  induction l as [|a l IH]; intros Hn; [reflexivity|].
  rewrite filter_cons_False by (apply Hn; by left).
  apply IH. intros b Hb. apply Hn. by right.
Qed.

Lemma filter_all {A : Type} (P : A -> Prop) `{forall a, Decision (P a)}
      (l : list A) :
  (forall a, a ∈ l -> P a) -> filter P l = l.
Proof.
  induction l as [|a l IH]; intros Hn; [reflexivity|].
  rewrite filter_cons_True by (apply Hn; by left).
  f_equal. apply IH. intros b Hb. apply Hn. by right.
Qed.

Lemma concat_filter_keys {A : Type} (f : A -> Z) (ks : list Z) (l : list A) :
  NoDup ks ->
  concat (map (fun k => filter (fun a => f a = k) l) ks)
  ≡ₚ filter (fun a => f a ∈ ks) l.
Proof.
  induction 1 as [|k ks Hk _ IH]; simpl.
  - symmetry. rewrite filter_none; [reflexivity|].
    intros a _ Ha. by apply elem_of_nil in Ha.
  - rewrite IH. clear IH. induction l as [|a l IHl]; [reflexivity|].
    destruct (decide (f a = k)) as [E|E].
    + rewrite (filter_cons_True (fun a => f a = k)) by done.
      rewrite (filter_cons_False (fun a => f a ∈ ks)) by (by rewrite E).
      rewrite (filter_cons_True (fun a => f a ∈ k :: ks))
        by (rewrite E; by left).
      simpl. by rewrite IHl.
    + rewrite (filter_cons_False (fun a => f a = k)) by done.
      destruct (decide (f a ∈ ks)) as [Ein|Ein].
      * rewrite (filter_cons_True (fun a => f a ∈ ks)) by done.
        rewrite (filter_cons_True (fun a => f a ∈ k :: ks)) by (by right).
        rewrite <- Permutation_middle. by rewrite IHl.
      * rewrite (filter_cons_False (fun a => f a ∈ ks)) by done.
        rewrite (filter_cons_False (fun a => f a ∈ k :: ks)); [exact IHl|].
        intros Hin. apply elem_of_cons in Hin as [Hin|Hin]; done.
Qed.

Lemma concat_filter_all_keys {A : Type} (f : A -> Z) (ks : list Z) (l : list A) :
  NoDup ks -> (forall a, a ∈ l -> f a ∈ ks) ->
  concat (map (fun k => filter (fun a => f a = k) l) ks) ≡ₚ l.
Proof.
  intros Hnd Hall. rewrite concat_filter_keys by done. by rewrite filter_all.
Qed.

Lemma StronglySorted_strict (l : list Z) :
  StronglySorted Z.le l -> NoDup l -> StronglySorted Z.lt l.
Proof.
  induction 1 as [|a l _ IH Ha]; intros Hnd; constructor.
  - apply IH. by apply NoDup_cons in Hnd as [_ ?].
  - apply NoDup_cons in Hnd as [Hni _].
    apply Forall_forall. intros b Hb. rewrite Forall_forall in Ha.
    specialize (Ha b Hb). assert (a <> b) by (intros ->; done). lia.
Qed.

Lemma sorted_Z (l : list Z) : StronglySorted Z.le (sorted Z.ltb l).
Proof.
  eapply StronglySorted_impl; [|apply (sorted_ordered Z.ltb)].
  - intros a b Hab. simpl in Hab. lia.
  - intros a b Hab. lia.
  - intros a b c H1 H2. lia.
Qed.

(** ** V5: the rows of the grid *)

Lemma row_height_min (glyphs : list V5.glyph) (img_height : Z) :
  30 <= V5.row_height_of glyphs img_height.
Proof.
  unfold V5.row_height_of. destruct (List.filter _ _); lia.
Qed.

Lemma assign_rows_lookup (row_height : Z) (glyphs : list V5.glyph) :
  row_height <> 0 ->
  forall m : gmap Z (list V5.glyph),
    exists m',
      V5.assign_rows row_height glyphs m = Ok m'
      /\ forall k,
          m' !! k
          = match filter (fun g => band_of row_height g = k) glyphs with
            | [] => m !! k
            | l => Some (default [] (m !! k) ++ l)
            end.
Proof.
  intros Hrh. induction glyphs as [|g glyphs IH]; intros m.
  - exists m. split; [reflexivity|]. intros k. reflexivity.
  - cbn [V5.assign_rows]. unfold py_floordiv.
    destruct (Z.eqb_spec row_height 0) as [|_]; [done|]. cbn [rbind].
    fold (band_of row_height g). set (idx := band_of row_height g).
    destruct (IH (<[idx := default [] (m !! idx) ++ [g]]> m)) as (m' & -> & Hm').
    exists m'. split; [reflexivity|]. intros k. rewrite Hm'.
    destruct (decide (idx = k)) as [<-|Hne].
    + rewrite lookup_insert_eq. rewrite filter_cons_True by done. simpl.
      destruct (filter _ glyphs) as [|g' l'].
      * reflexivity.
      * by rewrite <- app_assoc.
    + rewrite lookup_insert_ne by done. by rewrite filter_cons_False by done.
Qed.

(** X17. The grid of V5 never raises, for its row height is at least 30.
    Its rows hold the input glyphs; each row is one band of the grid, the
    non-empty set of the glyphs whose point [(y + h // 2)] falls in the
    band, by non-decreasing [x]; and the rows come by increasing band. *)
Theorem grid_rows_are_bands_left_to_right
        (glyphs : list V5.glyph) (img_height : Z) :
  let row_height := V5.row_height_of glyphs img_height in
  exists (rows : list (list V5.glyph)) (bands : list Z),
    V5._cluster_into_grid_rows glyphs img_height = Ok rows
    /\ 30 <= row_height
    /\ concat rows ≡ₚ glyphs
    /\ StronglySorted Z.lt bands
    /\ Forall2 (fun band row =>
                  row <> []
                  /\ row ≡ₚ filter (fun g => band_of row_height g = band) glyphs
                  /\ StronglySorted (fun a b => V5.r_x a <= V5.r_x b) row)
               bands rows.
Proof.
  intros row_height. pose proof (row_height_min glyphs img_height) as Hrh.
  fold row_height in Hrh.
  destruct glyphs as [|g0 rest] eqn:Eg.
  { exists [], []. simpl. split; [reflexivity|]. split; [exact Hrh|].
    split; [reflexivity|]. split; constructor. }
  rewrite <- Eg in *.
  assert (V5._cluster_into_grid_rows glyphs img_height
          = let* row_assignments := V5.assign_rows row_height glyphs ∅ in
            result_mapM
              (fun row_idx =>
                 match row_assignments !! row_idx with
                 | Some row_glyphs =>
                     Ok (sorted (fun a b => V5.r_x a <? V5.r_x b) row_glyphs)
                 | None => Raise KeyError
                 end)
              (sorted Z.ltb (map fst (map_to_list row_assignments)))) as ->
      by (rewrite Eg; reflexivity).
  destruct (assign_rows_lookup row_height glyphs ltac:(lia) ∅) as (m & -> & Hm).
  cbn [rbind].
  assert (forall k, m !! k
                    = match filter (fun g => band_of row_height g = k) glyphs with
                      | [] => None
                      | l => Some l
                      end) as Hm'.
  { intros k. rewrite Hm, lookup_empty. by destruct (filter _ glyphs). }
  clear Hm. set (keys := sorted Z.ltb (map fst (map_to_list m))).
  assert (keys ≡ₚ map fst (map_to_list m)) as Hkeys by apply sorted_perm.
  assert (NoDup keys) as Hnd by (rewrite Hkeys; apply NoDup_fst_map_to_list).
  assert (forall k, k ∈ keys <->
                    filter (fun g => band_of row_height g = k) glyphs <> [])
    as Hin.
  { intros k. rewrite Hkeys, list_elem_of_fmap. split.
    - intros ([k' l] & -> & Hl). apply elem_of_map_to_list in Hl.
      simpl in *. rewrite Hm' in Hl. by destruct (filter _ glyphs).
    - intros Hne. destruct (filter _ glyphs) as [|g l] eqn:Ef; [done|].
      exists (k, g :: l). split; [reflexivity|]. apply elem_of_map_to_list.
      by rewrite Hm', Ef. }
  destruct (result_mapM_Forall2
              (fun row_idx =>
                 match m !! row_idx with
                 | Some row_glyphs =>
                     Ok (sorted (fun a b => V5.r_x a <? V5.r_x b) row_glyphs)
                 | None => Raise KeyError
                 end)
              (fun k row =>
                 row = sorted (fun a b => V5.r_x a <? V5.r_x b)
                              (filter (fun g => band_of row_height g = k) glyphs))
              keys) as (rows & -> & HF).
  { apply Forall_forall. intros k Hk. apply Hin in Hk. rewrite Hm'.
    destruct (filter _ glyphs); [done|]. eauto. }
  exists rows, keys. split; [reflexivity|]. split; [exact Hrh|]. split.
  { assert (rows = map (fun k => sorted (fun a b => V5.r_x a <? V5.r_x b)
                                   (filter (fun g => band_of row_height g = k)
                                           glyphs)) keys) as ->.
    { clear -HF. induction HF as [|k row ks rows Hr _ IH]; simpl;
        [reflexivity|]. by rewrite Hr, IH. }
    etrans; [|apply (concat_filter_all_keys (band_of row_height) keys glyphs Hnd)].
    - clear. induction keys as [|k ks IH]; simpl; [reflexivity|].
      by rewrite sorted_perm, IH.
    - intros g Hg. apply Hin. intros Hf.
      assert (g ∈ filter (fun g' => band_of row_height g' = band_of row_height g)
                  glyphs) as H by (by apply list_elem_of_filter).
      rewrite Hf in H. by apply elem_of_nil in H. }
  split; [apply StronglySorted_strict; [apply sorted_Z | exact Hnd]|].
  assert (Forall (fun k => filter (fun g => band_of row_height g = k) glyphs
                           <> []) keys) as Hall
      by (apply Forall_forall; intros k Hk; by apply Hin).
  clearbody keys. clear Hkeys Hnd Hin Hm'.
  induction HF as [|k row ks' rows' Hr _ IH]; [constructor|].
  apply Forall_cons in Hall as [Hk Hks]. constructor; [|by apply IH].
  split; [|split].
  - rewrite Hr. intros E. by apply sorted_nil_inv in E.
  - rewrite Hr. apply sorted_perm.
  - rewrite Hr. eapply StronglySorted_impl; [|apply sorted_ordered].
    + intros a b Hab. simpl in Hab. lia.
    + intros a b Hab. lia.
    + intros a b c H1 H2. lia.
Qed.

(** ** The letterbox *)

Lemma py_int_of_Z (q : Q) (z : Z) : (q == inject_Z z)%Q -> py_int q = z.
Proof.
  intros Hq. unfold py_int. unfold Qeq in Hq. simpl in Hq.
  rewrite Z.mul_1_r in Hq. rewrite Hq. apply Z.quot_mul. lia.
Qed.

Lemma py_int_bounds (q : Q) (z : Z) :
  (0 <= q)%Q -> (q <= inject_Z z)%Q -> 0 <= py_int q <= z.
Proof.
  intros H0 Hz. rewrite (py_int_floor q H0). split.
  - change 0 with (Qfloor 0). by apply Qfloor_resp_le.
  - rewrite <- (Qfloor_Z z). by apply Qfloor_resp_le.
Qed.

(** X18. For an image of positive width and height the resize never
    raises; the resized image is not larger than the 1920 x 1080 canvas,
    one of its sides is within a pixel of the side of the canvas, and the
    offsets put it inside the canvas, centred up to one pixel. *)
Theorem resized_image_fits_the_canvas (w h : Z) :
  0 < w -> 0 < h ->
  exists new_w new_h x_offset y_offset,
    V5.fit_to_canvas w h = Ok (new_w, new_h, x_offset, y_offset)
    /\ 0 <= new_w <= width /\ 0 <= new_h <= height
    /\ (width - 1 <= new_w \/ height - 1 <= new_h)
    /\ 0 <= x_offset /\ x_offset + new_w <= width
    /\ 0 <= y_offset /\ y_offset + new_h <= height
    /\ width - new_w - 1 <= 2 * x_offset <= width - new_w
    /\ height - new_h - 1 <= 2 * y_offset <= height - new_h.
Proof.
  intros Hw Hh. unfold V5.fit_to_canvas.
  pose proof (inject_Z_pos w Hw) as Hqw. pose proof (inject_Z_pos h Hh) as Hqh.
  rewrite !py_div_ok by (by apply Qlt_not_eq0). cbn [rbind].
  set (sw := (inject_Z width / inject_Z w)%Q).
  set (sh := (inject_Z height / inject_Z h)%Q).
  assert (inject_Z w * sw == inject_Z width)%Q as Esw
      by (subst sw; field; by apply Qlt_not_eq0).
  assert (inject_Z h * sh == inject_Z height)%Q as Esh
      by (subst sh; field; by apply Qlt_not_eq0).
  assert (0 < sw)%Q as Hsw.
  { subst sw. apply Qlt_shift_div_l; [exact Hqw|]. rewrite Qmult_0_l.
    by apply inject_Z_pos. }
  assert (0 < sh)%Q as Hsh.
  { subst sh. apply Qlt_shift_div_l; [exact Hqh|]. rewrite Qmult_0_l.
    by apply inject_Z_pos. }
  assert (exists new_w new_h,
             py_int (inject_Z w * py_min sw sh) = new_w
             /\ py_int (inject_Z h * py_min sw sh) = new_h
             /\ 0 <= new_w <= width /\ 0 <= new_h <= height
             /\ (width - 1 <= new_w \/ height - 1 <= new_h))
    as (new_w & new_h & -> & -> & Hnw & Hnh & Hside).
  { unfold py_min. destruct (Qltb sh sw) eqn:E.
    - apply Qltb_lt in E. eexists _, _. split; [reflexivity|].
      split; [reflexivity|]. rewrite (py_int_of_Z _ height Esh).
      split; [|split; [unfold height; lia | right; lia]].
      apply py_int_bounds.
      + apply Qmult_le_0_compat; lra.
      + rewrite <- Esw. apply Qmult_le_l; [exact Hqw | lra].
    - apply Qltb_ge in E. eexists _, _. split; [reflexivity|].
      split; [reflexivity|]. rewrite (py_int_of_Z _ width Esw).
      split; [unfold width; lia|]. split; [|left; lia].
      apply py_int_bounds.
      + apply Qmult_le_0_compat; lra.
      + rewrite <- Esh. apply Qmult_le_l; [exact Hqh | lra]. }
  exists new_w, new_h, ((width - new_w) / 2), ((height - new_h) / 2).
  split; [reflexivity|].
  unfold width, height in *. repeat split; Z.div_mod_to_equations; lia.
Qed.

(** An instance: a 4000 x 3000 photograph. *)
Lemma resized_image_fits_the_canvas_witness :
  exists new_w new_h x_offset y_offset,
    V5.fit_to_canvas 4000 3000 = Ok (new_w, new_h, x_offset, y_offset)
    /\ 0 <= new_w <= width /\ 0 <= new_h <= height
    /\ (width - 1 <= new_w \/ height - 1 <= new_h)
    /\ 0 <= x_offset /\ x_offset + new_w <= width
    /\ 0 <= y_offset /\ y_offset + new_h <= height
    /\ width - new_w - 1 <= 2 * x_offset <= width - new_w
    /\ height - new_h - 1 <= 2 * y_offset <= height - new_h.
Proof.
  apply (resized_image_fits_the_canvas 4000 3000); lia.
Defined.

(** ** V5: the cached masks of the linear reveal *)

Lemma take_add_drop {A : Type} (a b : nat) (l : list A) :
  take (a + b) l = take a l ++ take b (drop a l).
Proof.
  revert l. induction a as [|a IH]; intros l; [reflexivity|].
  destruct l as [|x l]; simpl; [by destruct b|]. by rewrite IH.
Qed.

Lemma draw_seq_ok (all_contours : list (list point)) (n : nat) :
  forall s : nat,
    (s + n <= length all_contours)%nat ->
    result_mapM (fun j => let* cnt := py_getitem all_contours j in
                          Ok (DrawFilled cnt))
                (map Z.of_nat (seq s n))
    = Ok (map DrawFilled (take n (drop s all_contours))).
Proof.
  induction n as [|n IH]; intros s Hs; [reflexivity|].
  cbn [seq map result_mapM].
  destruct (py_getitem_in_range all_contours (Z.of_nat s)) as (cnt & -> & Hc);
    [lia|].
  rewrite Nat2Z.id in Hc. cbn [rbind]. rewrite IH by lia. cbn [rbind].
  by rewrite (drop_S _ _ _ Hc).
Qed.

Lemma draw_range_ok (all_contours : list (list point)) (a b : Z) :
  0 <= a <= b -> b <= Z.of_nat (length all_contours) ->
  V5.draw_range all_contours a b
  = Ok (map DrawFilled (take (Z.to_nat (b - a))
                             (drop (Z.to_nat a) all_contours))).
Proof.
  intros Hab Hb. unfold V5.draw_range, py_range.
  assert (map (fun i => a + Z.of_nat i) (seq 0 (Z.to_nat (b - a)))
          = map Z.of_nat (seq (Z.to_nat a) (Z.to_nat (b - a)))) as ->.
  { rewrite <- (Nat.add_0_r (Z.to_nat a)) at 1.
    rewrite <- (fmap_add_seq (Z.to_nat a) 0). rewrite <- list_fmap_compose.
    apply map_ext. intros i. simpl. lia. }
  apply draw_seq_ok. lia.
Qed.

Lemma draw_range_extends (all_contours : list (list point)) (a b : Z) :
  0 <= a <= b -> b <= Z.of_nat (length all_contours) ->
  exists drawn,
    V5.draw_range all_contours a b = Ok drawn
    /\ map DrawFilled (take (Z.to_nat a) all_contours) ++ drawn
       = map DrawFilled (take (Z.to_nat b) all_contours).
Proof.
  intros Hab Hb. rewrite draw_range_ok by lia. eexists. split; [reflexivity|].
  rewrite <- map_app, <- take_add_drop. do 2 f_equal. lia.
Qed.

Section Cache.
Variables (all_contours : list (list point)) (cache_interval : Z).
Hypothesis interval_pos : 0 < cache_interval.

Lemma cache_loop_ok (n : nat) :
  forall (s : nat) (cached_masks : gmap Z (list paint)),
    (Z.of_nat (s + n) - 1) * cache_interval <= Z.of_nat (length all_contours) ->
    cache_ok all_contours cached_masks ->
    (s <> 0%nat ->
     is_Some (cached_masks !! ((Z.of_nat s - 1) * cache_interval))) ->
    exists cached,
      V5.cache_loop all_contours cache_interval cached_masks
                    (map (fun i => Z.of_nat i * cache_interval) (seq s n))
      = Ok cached
      /\ cache_ok all_contours cached.
Proof.
  induction n as [|n IH]; intros s cached Hlen Hok Hprev.
  - exists cached. by split.
  - cbn [seq map V5.cache_loop]. unfold V5.cache_step.
    destruct (Z.eqb_spec (Z.of_nat s * cache_interval) 0) as [E0|E0].
    + cbn [rbind]. apply IH.
      * lia.
      * intros idx mask. destruct (decide (idx = 0)) as [->|Hne].
        -- rewrite lookup_insert_eq. intros [= <-]. split; [lia | reflexivity].
        -- rewrite lookup_insert_ne by done. apply Hok.
      * intros _. assert (s = 0%nat) as -> by nia.
        change ((Z.of_nat 1 - 1) * cache_interval) with (0 * cache_interval).
        rewrite Z.mul_0_l, lookup_insert_eq. by eexists.
    + assert (s <> 0%nat) as Hs by (intros ->; lia).
      destruct (Hprev Hs) as [mask Hmask].
      replace (Z.of_nat s * cache_interval - cache_interval)
        with ((Z.of_nat s - 1) * cache_interval) by lia.
      rewrite Hmask. cbn [default].
      destruct (Hok _ _ Hmask) as [Hr ->].
      assert (Z.of_nat s * cache_interval <= Z.of_nat (length all_contours))
        as Hle by nia.
      rewrite Z.min_l by exact Hle.
      destruct (draw_range_extends all_contours
                  ((Z.of_nat s - 1) * cache_interval)
                  (Z.of_nat s * cache_interval)) as (drawn & -> & Hd);
        [nia | exact Hle |].
      cbn [rbind id]. rewrite Hd. apply IH.
      * lia.
      * intros idx mask'.
        destruct (decide (idx = Z.of_nat s * cache_interval)) as [->|Hne].
        -- rewrite lookup_insert_eq. intros [= <-]. split; [nia | reflexivity].
        -- rewrite lookup_insert_ne by done. apply Hok.
      * intros _. replace ((Z.of_nat (S s) - 1) * cache_interval)
          with (Z.of_nat s * cache_interval) by lia.
        rewrite lookup_insert_eq. by eexists.
Qed.
End Cache.

Lemma V5_bisect_range (cumulative : list Q) (target : Q) :
  forall (fuel : nat) (left right : Z),
    0 <= left <= right -> right <= Z.of_nat (length cumulative) ->
    right - left <= Z.of_nat fuel ->
    exists found,
      V5.bisect fuel cumulative target left right = Ok found
      /\ left <= found <= right.
Proof.
  intros fuel. induction fuel as [|fuel IH]; intros l r Hlr Hr Hf.
  - assert (l = r) as -> by lia. exists r. cbn [V5.bisect].
    rewrite Z.ltb_irrefl. split; [reflexivity | lia].
  - cbn [V5.bisect]. destruct (Z.ltb_spec l r) as [Hlt|Hge].
    + set (mid := (l + r) / 2).
      assert (l <= mid < r) as Hmid
          by (subst mid; split;
              [apply Z.div_le_lower_bound | apply Z.div_lt_upper_bound]; lia).
      destruct (py_getitem_in_range cumulative mid) as (at_mid & -> & _);
        [lia|].
      cbn [rbind]. destruct (Qle_bool at_mid target).
      * destruct (IH (mid + 1) r) as (found & -> & Hfr); [lia | lia | lia |].
        exists found. split; [reflexivity | lia].
      * destruct (IH l mid) as (found & -> & Hfr); [lia | lia | lia |].
        exists found. split; [reflexivity | lia].
    + exists l. split; [reflexivity | lia].
Qed.

Lemma V5_draw_partial_ok (k : V5.clip) (target_len : Q) (left : Z) :
  length (V5.cumulative_perimeters k) = length (V5.all_contours k) ->
  0 <= left <= Z.of_nat (length (V5.all_contours k)) ->
  exists partial,
    V5.draw_partial k target_len left = Ok partial
    /\ (partial = []
        \/ exists cnt n,
            V5.all_contours k !! Z.to_nat left = Some cnt /\ 0 < n
            /\ partial = [Polyline (py_prefix cnt n) 12]).
Proof.
  intros Hlen Hleft. unfold V5.draw_partial.
  destruct (Z.ltb_spec left (Z.of_nat (length (V5.all_contours k))))
    as [Hlt|Hge]; [|exists []; by split; [|left]].
  destruct (py_getitem_in_range (V5.all_contours k) left) as (cnt & -> & Hc);
    [lia|].
  cbn [rbind].
  assert (exists prev_len,
             (if 0 <? left
              then py_getitem (V5.cumulative_perimeters k) (left - 1)
              else Ok 0%Q) = Ok prev_len) as [prev_len ->].
  { destruct (Z.ltb_spec 0 left); [|eauto].
    destruct (py_getitem_in_range (V5.cumulative_perimeters k) (left - 1))
      as (p & -> & _); [lia | eauto]. }
  cbn [rbind].
  destruct (py_getitem_in_range (V5.cumulative_perimeters k) left)
    as (at_left & -> & _); [lia|].
  cbn [rbind].
  destruct (Qltb 0 (at_left - prev_len) && Qltb 0 (target_len - prev_len))
    eqn:E; [|exists []; by split; [|left]].
  apply andb_true_iff in E as [Hp _]. apply Qltb_lt in Hp.
  rewrite py_div_ok by (by apply Qlt_not_eq0). cbn [rbind].
  destruct (Z.ltb_spec 0 (py_int ((target_len - prev_len)
                                  / (at_left - prev_len)
                                  * inject_Z (Z.of_nat (length cnt)))));
    [|exists []; by split; [|left]].
  eexists. split; [reflexivity|]. right. eauto.
Qed.

(** X19. The cached masks of the V5 linear reveal are an optimisation
    only. Building them never raises and the mask cached for index [i] is
    the fill of the first [i] contours; and the mask of a frame without
    segments is the fill of the first [left] contours, whatever the cache
    holds for the nearest index below [left], followed by at most one
    traced prefix of the contour of index [left]. *)
Theorem V5_cached_masks_change_nothing
        (is_dark_bg : bool) (all_contours : list (list point))
        (total_perimeter drawing_time : Q) (cumulative_perimeters : list Q)
        (segment_times : list seg_info)
        (glyph_sections : gmap Z (list V5.glyph_unit))
        (full_canvas_ref : point -> color) (t : Q) :
  length cumulative_perimeters = length all_contours ->
  let cache_interval := Z.max 1 (Z.of_nat (length all_contours) / 20) in
  exists cached_masks,
    V5.cache_loop all_contours cache_interval ∅
                  (py_range_step (Z.of_nat (length all_contours) + 1)
                                 cache_interval)
    = Ok cached_masks
    /\ (forall idx mask,
           cached_masks !! idx = Some mask ->
           mask = map DrawFilled (take (Z.to_nat idx) all_contours))
    /\ exists left partial,
        V5.reveal_mask
          (V5.Clip [] is_dark_bg all_contours total_perimeter drawing_time
                   cumulative_perimeters cache_interval cached_masks
                   segment_times glyph_sections full_canvas_ref) t
        = Ok (map DrawFilled (take (Z.to_nat left) all_contours) ++ partial)
        /\ 0 <= left <= Z.of_nat (length all_contours)
        /\ (partial = []
            \/ exists cnt n,
                all_contours !! Z.to_nat left = Some cnt /\ 0 < n
                /\ partial = [Polyline (py_prefix cnt n) 12]).
Proof.
  intros Hlen ci. assert (0 < ci) as Hci by (subst ci; lia).
  set (len := Z.of_nat (length all_contours)) in *.
  destruct (cache_loop_ok all_contours ci Hci
              (Z.to_nat ((len + 1 + ci - 1) / ci)) 0 ∅)
    as (cached & Ecache & Hok).
  { rewrite Nat.add_0_l, Z2Nat.id by (apply Z.div_pos; lia).
    assert ((len + 1 + ci - 1) / ci * ci <= len + 1 + ci - 1) as H.
    { rewrite Z.mul_comm. apply Z.mul_div_le. lia. }
    fold len. nia. }
  { intros idx mask. by rewrite lookup_empty. }
  { done. }
  exists cached. split; [exact Ecache|]. split.
  { intros idx mask Hm. by destruct (Hok idx mask Hm). }
  cbn [V5.reveal_mask V5.segments]. unfold V5.linear_reveal.
  cbn [V5.drawing_time V5.total_perimeter V5.cumulative_perimeters
       V5.cache_interval V5.cached_masks V5.all_contours].
  assert (exists progress,
             (if Qle_bool drawing_time 0 then Ok 1%Q
              else let* ratio := py_div t drawing_time in Ok (py_min 1 ratio))
             = Ok progress) as [progress ->].
  { destruct (Qle_bool drawing_time 0) eqn:E; [eauto|].
    rewrite py_div_ok; [cbn [rbind]; eauto|].
    intros H0. rewrite H0 in E. discriminate. }
  cbn [rbind].
  destruct (V5_bisect_range cumulative_perimeters (total_perimeter * progress)
              (S (length cumulative_perimeters)) 0
              (Z.of_nat (length cumulative_perimeters)))
    as (left & -> & Hleft); [lia | lia | lia |].
  cbn [rbind]. rewrite Hlen in Hleft. fold len in Hleft.
  unfold py_floordiv. destruct (Z.eqb_spec ci 0) as [|_]; [lia|].
  cbn [rbind].
  assert (0 <= left / ci * ci <= left) as Hcp.
  { split; [apply Z.mul_nonneg_nonneg; [apply Z.div_pos|]; lia|].
    rewrite Z.mul_comm. apply Z.mul_div_le. lia. }
  set (k := V5.Clip [] is_dark_bg all_contours total_perimeter drawing_time
                    cumulative_perimeters ci cached segment_times
                    glyph_sections full_canvas_ref).
  destruct (V5_draw_partial_ok k (total_perimeter * progress) left)
    as (partial & Epartial & Hpartial); [exact Hlen | exact Hleft |].
  exists left, partial.
  split; [|split; [exact Hleft | exact Hpartial]].
  destruct (cached !! (left / ci * ci)) as [mask|] eqn:Em.
  - destruct (Hok _ _ Em) as [_ ->].
    destruct (draw_range_extends all_contours (left / ci * ci) left)
      as (drawn & -> & Hd); [lia | exact (proj2 Hleft) |].
    cbn [rbind]. rewrite Epartial. cbn [rbind].
    by rewrite app_assoc, Hd.
  - destruct (draw_range_extends all_contours 0 left)
      as (drawn & -> & Hd); [lia | exact (proj2 Hleft) |].
    cbn [rbind]. rewrite Epartial. cbn [rbind]. simpl in Hd.
    by rewrite Hd.
Qed.

(** An instance: two contours of perimeters 40 and 20, drawn in 2s, at
    1s. *)
Lemma V5_cached_masks_change_nothing_witness :
  let all_contours := [[(10, 10); (10, 20); (20, 20); (20, 10)];
                       [(30, 10); (30, 20)]] in
  let cache_interval := Z.max 1 (Z.of_nat (length all_contours) / 20) in
  exists cached_masks,
    V5.cache_loop all_contours cache_interval ∅
                  (py_range_step (Z.of_nat (length all_contours) + 1)
                                 cache_interval)
    = Ok cached_masks
    /\ (forall idx mask,
           cached_masks !! idx = Some mask ->
           mask = map DrawFilled (take (Z.to_nat idx) all_contours))
    /\ exists left partial,
        V5.reveal_mask
          (V5.Clip [] false all_contours 60 2 [40%Q; 60%Q] cache_interval
                   cached_masks [] ∅ (fun _ => white)) 1
        = Ok (map DrawFilled (take (Z.to_nat left) all_contours) ++ partial)
        /\ 0 <= left <= Z.of_nat (length all_contours)
        /\ (partial = []
            \/ exists cnt n,
                all_contours !! Z.to_nat left = Some cnt /\ 0 < n
                /\ partial = [Polyline (py_prefix cnt n) 12]).
Proof.
  apply (V5_cached_masks_change_nothing
           false [[(10, 10); (10, 20); (20, 20); (20, 10)]; [(30, 10); (30, 20)]]
           60 2 [40%Q; 60%Q] [] ∅ (fun _ => white) 1).
  reflexivity.
Defined.

(** ** V8: the last frame *)

Lemma fill_glyphs_contours (units : list glyph) :
  fill_glyphs units
  = map (fun c => DrawFilled (c_pts c)) (concat (map g_contours units)).
Proof.
  unfold fill_glyphs. induction units as [|u units IH]; simpl; [reflexivity|].
  by rewrite map_app, IH.
Qed.

Lemma fill_glyphs_perm (u1 u2 : list glyph) :
  u1 ≡ₚ u2 -> fill_glyphs u1 ≡ₚ fill_glyphs u2.
Proof.
  intros Hp. rewrite !fill_glyphs_contours.
  by apply Permutation_map, concat_map_perm.
Qed.

Lemma fill_glyphs_merged (th : MergeWords.thresholds) (l : list glyph) :
  fill_glyphs (MergeWords._safely_merge_words th l) ≡ₚ fill_glyphs l.
Proof.
  rewrite !fill_glyphs_contours. apply Permutation_map.
  rewrite (absorbed_contours _ _ (word_groups_absorbed th l)).
  apply concat_map_perm, word_groups_perm.
Qed.

Lemma fill_glyphs_concat (ls : list (list glyph)) :
  fill_glyphs (concat ls) = concat (map fill_glyphs ls).
Proof.
  unfold fill_glyphs. induction ls as [|l ls IH]; simpl; [reflexivity|].
  by rewrite map_app, concat_app, IH.
Qed.

Lemma concat_map_perm_ext {A B : Type} (f g : A -> list B) (l : list A) :
  (forall a, a ∈ l -> f a ≡ₚ g a) -> concat (map f l) ≡ₚ concat (map g l).
Proof.
  induction l as [|a l IH]; intros Hfg; simpl; [reflexivity|].
  rewrite (Hfg a) by (by left). apply Permutation_app_head, IH.
  intros b Hb. apply Hfg. by right.
Qed.

Lemma assign_sections_strips (new_w : Z) (segments : list segment)
      (glyphs : list glyph) :
  0 < new_w ->
  Forall (fun g => 0 <= g_x g /\ 0 <= g_w g) glyphs ->
  exists glyph_sections : gmap Z (list glyph),
    V8.assign_sections new_w segments glyphs = Ok glyph_sections
    /\ forall k : Z,
        glyph_sections !! k
        = match strip_members new_w (V8.num_sections_of segments) k glyphs with
          | [] => None
          | l => Some l
          end.
Proof.
  intros Hw Hwf. unfold V8.assign_sections.
  assert (0 < V8.num_sections_of segments) as Hn
      by (destruct segments; simpl; lia).
  rewrite py_div_ok by apply num_sections_nonzero. cbn [rbind].
  destruct (assign_loop_lookup new_w _ Hw Hn glyphs ∅ Hwf) as (m' & -> & Hm').
  exists m'. split; [reflexivity|]. intros k. rewrite Hm', lookup_empty.
  simpl. by destruct (strip_members _ _ k glyphs).
Qed.

Section LastFrame.
Context {image : Type} `{OpenCV image}.

Lemma glyph_of_row_geometry (ink_map : image) (x_offset y_offset : Z)
      (rows : list stats_row) :
  Forall (fun row => 0 <= st_x row /\ 0 <= st_w row) rows ->
  Forall (fun g => 0 <= g_x g /\ 0 <= g_w g)
         (omap (V8.glyph_of_row ink_map x_offset y_offset) rows).
Proof.
  induction 1 as [|row rows Hrow _ IH]; [constructor|].
  change (omap ?f (row :: rows))
    with (match f row with Some g => g :: omap f rows | None => omap f rows end).
  destruct (V8.glyph_of_row ink_map x_offset y_offset row) as [g|] eqn:E;
    [|exact IH].
  constructor; [|exact IH]. unfold V8.glyph_of_row in E.
  destruct (10 <? st_area row); [|discriminate].
  destruct (findContours ink_map (st_label row)); [discriminate|].
  by injection E as <-.
Qed.

(** X20. Every contour ends up drawn. With at least one segment, no
    negative duration, an image of positive width and components at
    non-negative positions, V8 builds the clip and, once the time has
    reached the sum of the durations, the mask is made of the filled
    contours of all the glyphs extracted from the ink map, each contour
    once, and of nothing else. *)
Theorem V8_last_frame_fills_every_contour
        (style : string) (segments : list segment)
        (original_resized : point -> color) (gray : image) (t : Q) :
  let ink_map := snd (V8._get_cleaned_image style gray) in
  let glyphs :=
    omap (V8.glyph_of_row ink_map ((width - fst (shape gray)) / 2)
                          ((height - snd (shape gray)) / 2))
         (connectedComponentsWithStats ink_map) in
  segments <> [] ->
  Forall (fun seg => (0 <= duration_of seg)%Q) segments ->
  0 < fst (shape gray) ->
  Forall (fun row => 0 <= st_x row /\ 0 <= st_w row)
         (connectedComponentsWithStats ink_map) ->
  (total_duration segments <= t)%Q ->
  exists k ops,
    V8.generate style segments original_resized gray = Ok k
    /\ V8.reveal_mask k t = Ok ops
    /\ ops ≡ₚ fill_glyphs glyphs.
Proof.
  intros ink_map glyphs Hne Hd Hw Hrows Ht. subst ink_map.
  unfold V8.generate. destruct (shape gray) as [new_w new_h]. cbn [fst snd] in *.
  destruct (V8._get_cleaned_image style gray) as [dark ink_map].
  cbn [snd] in *. fold glyphs.
  pose proof (glyph_of_row_geometry ink_map ((width - new_w) / 2)
                ((height - new_h) / 2) _ Hrows) as Hwf.
  fold glyphs in Hwf.
  destruct (assign_sections_strips new_w segments glyphs Hw Hwf)
    as (sections & -> & Hsec).
  cbn [rbind].
  destruct (process_sections_ok sections) as (drawn & -> & Hdrawn).
  cbn [rbind]. eexists. eexists. split; [reflexivity|].
  unfold V8.reveal_mask.
  cbn [V8.segments V8.segment_times V8.style V8.glyph_sections].
  destruct segments as [|seg rest] eqn:Es; [done|]. rewrite <- Es in *.
  assert (segment_times_of segments
          = timing_loop 0 0 (sorted lt_position segments)) as ->
      by (rewrite Es; reflexivity).
  pose proof (sorted_perm lt_position segments) as Hp.
  assert (exists info infos,
             timing_loop 0 0 (sorted lt_position segments) = info :: infos)
    as (info & infos & Hcons).
  { destruct (timing_loop 0 0 (sorted lt_position segments)) eqn:E; [|eauto].
    apply (f_equal length) in E. rewrite timing_loop_length, Hp, Es in E.
    discriminate. }
  rewrite Hcons, <- Hcons.
  rewrite (timing_loop_done style drawn t);
    [|by rewrite Hp | apply Qle_refl
     |unfold total_duration in *; rewrite (sum_Q_perm _ _ _ Hp); lra].
  cbn [rbind]. split; [reflexivity|].
  rewrite Hp. set (n := length segments).
  assert (V8.num_sections_of segments = Z.of_nat n) as Hn
      by (subst n; rewrite Es; reflexivity).
  rewrite Hn in Hsec.
  assert (0 < Z.of_nat n) as Hnpos by (subst n; rewrite Es; simpl; lia).
  etrans.
  { apply (concat_map_perm_ext _
             (fun i => fill_glyphs (strip_members new_w (Z.of_nat n)
                                                  (Z.of_nat i) glyphs))).
    intros i _. rewrite Z.add_0_l. specialize (Hdrawn (Z.of_nat i)).
    rewrite Hsec in Hdrawn.
    destruct (strip_members new_w (Z.of_nat n) (Z.of_nat i) glyphs)
      as [|g l] eqn:El.
    - by rewrite Hdrawn.
    - destruct Hdrawn as (units & -> & Hu). cbn [default].
      rewrite (fill_glyphs_perm _ _ Hu). apply fill_glyphs_merged. }
  rewrite <- (map_map Z.of_nat
                (fun k => fill_glyphs (strip_members new_w (Z.of_nat n) k glyphs))).
  rewrite <- (map_map (fun k => strip_members new_w (Z.of_nat n) k glyphs)
                      fill_glyphs).
  rewrite <- fill_glyphs_concat. apply fill_glyphs_perm.
  apply (concat_filter_all_keys (strip_index new_w (Z.of_nat n))).
  - apply NoDup_fmap_2; [|apply NoDup_seq]. intros a b Hab. lia.
  - intros g Hg. rewrite Forall_forall in Hwf. destruct (Hwf g Hg) as [Hx Hgw].
    pose proof (strip_index_range new_w (Z.of_nat n) Hw Hnpos g Hx Hgw) as Hr.
    apply list_elem_of_fmap. exists (Z.to_nat (strip_index new_w (Z.of_nat n) g)).
    split; [lia|]. apply elem_of_seq. lia.
Qed.

End LastFrame.

(** An instance: the picture with the one square, two segments of 2s, at
    5s. *)
Lemma V8_last_frame_fills_every_contour_witness :
  exists k ops,
    V8.generate "normal" two_segments (fun _ => black) tt = Ok k
    /\ V8.reveal_mask k 5 = Ok ops
    /\ ops
       ≡ₚ fill_glyphs
            (omap (V8.glyph_of_row (snd (V8._get_cleaned_image "normal" tt))
                                   ((width - fst (shape tt)) / 2)
                                   ((height - snd (shape tt)) / 2))
                  (connectedComponentsWithStats
                     (snd (V8._get_cleaned_image "normal" tt)))).
Proof.
  apply (V8_last_frame_fills_every_contour
           "normal" two_segments (fun _ => black) tt 5).
  - discriminate.
  - repeat constructor; vm_compute; discriminate.
  - vm_compute. reflexivity.
  - repeat constructor; vm_compute; discriminate.
  - vm_compute. discriminate.
Defined.

(** ** V8.1: segments that do not draw *)



Lemma drawing_segments_none (segments : list V8_1_engine.segment) :
  Forall (fun s => V8_1_engine.seg_draw s = Some false) segments ->
  forall i0, V8_1_engine.drawing_segments_from i0 segments = [].
Proof.
  induction 1 as [|s rest Hs _ IH]; intros i0; simpl; [reflexivity|].
  unfold V8_1_engine.draws. rewrite Hs. simpl. apply IH.
Qed.

Section V8_1Generate.
Context {image : Type} `{OpenCV image}.

(** X21. When no segment draws (no segment at all, or every segment with
    [draw] false) and the image has at least one glyph, V8.1 builds no
    clip: the fallback to one section leaves the list of drawing segments
    empty, and looking up the first glyph's segment raises [IndexError]. *)
Theorem V8_1_no_drawing_segment_raises
        (style : string) (pps : Q) (segments : list V8_1_engine.segment)
        (original_resized : point -> color) (gray : image) :
  let ink_map := snd (V8_1_engine._get_cleaned_image style gray) in
  Forall (fun s => V8_1_engine.seg_draw s = Some false) segments ->
  fst (shape gray) <> 0 ->
  omap (V8.glyph_of_row ink_map ((width - fst (shape gray)) / 2)
                        ((height - snd (shape gray)) / 2))
       (connectedComponentsWithStats ink_map) <> [] ->
  V8_1_engine.generate style pps segments original_resized gray = Raise IndexError.
Proof.
  intros ink_map Hnone Hw Hglyphs. subst ink_map. unfold V8_1_engine.generate.
  destruct (shape gray) as [new_w new_h]. cbn [fst snd] in *.
  destruct (V8_1_engine._get_cleaned_image style gray) as [dark ink_map].
  cbn [snd] in *.
  destruct (omap _ (connectedComponentsWithStats ink_map)) as [|g glyphs];
    [done|].
  unfold V8_1_engine.assign_sections.
  rewrite (drawing_segments_none segments Hnone 0).
  change (V8_1_engine.num_sections_of []) with 1.
  rewrite py_div_ok by (unfold Qeq; simpl; lia). cbn [rbind V8_1_engine.assign_loop].
  rewrite py_div_ok.
  2: { unfold Qeq, Qdiv. simpl. lia. }
  cbn [rbind]. unfold py_getitem. simpl length.
  destruct (_ <? 0); destruct (_ || _) eqn:E; try reflexivity;
    apply orb_false_iff in E as [E1 E2]; lia.
Qed.
End V8_1Generate.

(** An instance: the picture with the one square and no segment. *)
Lemma V8_1_no_drawing_segment_raises_witness :
  V8_1_engine.generate "normal" 4000 [] (fun _ => black) tt = Raise IndexError.
Proof.
  apply (V8_1_no_drawing_segment_raises "normal" 4000 [] (fun _ => black) tt).
  - constructor.
  - vm_compute. discriminate.
  - vm_compute. discriminate.
Defined.

(** ** V8.1: glyphs go to the segments that draw *)

Section V8_1Strips.
Variables (new_w : Z) (drawing_segments : list Z).
Hypothesis new_w_pos : 0 < new_w.
Hypothesis some_segment_draws : drawing_segments <> [].


End V8_1Strips.



(** ** V8.1: the pen has a constant speed *)

Lemma py_sum_Q_acc {A : Type} (f : A -> Q) (l : list A) (acc : Q) :
  (fold_left (fun acc a => acc + f a) l acc == acc + sum_Q f l)%Q.
Proof.
  revert acc. induction l as [|a l IH]; intros acc; simpl; [ring|].
  rewrite IH. ring.
Qed.

Lemma py_sum_Q_sum {A : Type} (f : A -> Q) (l : list A) :
  (py_sum_Q f l == sum_Q f l)%Q.
Proof. unfold py_sum_Q. rewrite py_sum_Q_acc. ring. Qed.

Lemma draw_glyphs_total (target_len : Q) (glyphs : list glyph) :
  forall current_drawn_len,
    exists ops, V8_1_engine.draw_glyphs target_len current_drawn_len glyphs = Ok ops.
Proof.
  induction glyphs as [|g glyphs IH]; intros cur; cbn [V8_1_engine.draw_glyphs];
    [eauto|].
  destruct (Qle_bool (cur + g_total_len g) target_len) eqn:E.
  - destruct (IH (cur + g_total_len g)%Q) as [ops ->]. cbn [rbind]. eauto.
  - destruct (Qltb 0 (target_len - cur)) eqn:En; [|eauto].
    apply Qltb_lt in En.
    assert (~ (cur + g_total_len g <= target_len)%Q) as Hgt.
    { intros Hle. apply Qle_bool_iff in Hle. congruence. }
    rewrite py_div_ok by (apply Qlt_not_eq0; lra). cbn [rbind].
    destruct (draw_active_paints 12 (g_total_len g
                                     * ((target_len - cur) / g_total_len g))
                (g_contours g) 0) as (ops & -> & _).
    eauto.
Qed.

Lemma draw_glyphs_all (target_len : Q) (glyphs : list glyph) :
  forall current_drawn_len,
    Forall (fun g => (0 <= g_total_len g)%Q) glyphs ->
    (current_drawn_len + sum_Q g_total_len glyphs <= target_len)%Q ->
    V8_1_engine.draw_glyphs target_len current_drawn_len glyphs
    = Ok (fill_glyphs glyphs).
Proof.
  induction glyphs as [|g glyphs IH]; intros cur Hnn Hsum; [reflexivity|].
  apply Forall_cons in Hnn as [Hg Hnn]. simpl in Hsum.
  pose proof (sum_Q_nonneg _ _ Hnn) as Hrest.
  cbn [V8_1_engine.draw_glyphs].
  assert (Qle_bool (cur + g_total_len g) target_len = true) as ->
      by (apply Qle_bool_iff; lra).
  rewrite IH; [reflexivity | exact Hnn | lra].
Qed.

Lemma V8_1_draw_segment_total (pps : Q) (glyph_sections : gmap Z (list glyph))
      (t : Q) (info : V8_1_engine.seg_info) :
  exists ops, V8_1_engine.draw_segment pps glyph_sections t info = Ok ops.
Proof.
  unfold V8_1_engine.draw_segment.
  destruct (Qle_bool (V8_1_engine.seg_end info) t) eqn:Ee; cbn [rbind].
  { destruct (glyph_sections !! V8_1_engine.section_idx info) as [[|g l]|]; eauto. }
  destruct (Qle_bool (V8_1_engine.seg_start info) t) eqn:Es; cbn [rbind]; [|eauto].
  destruct (V8_1_engine.draw info); cbn [rbind].
  2: { destruct (glyph_sections !! V8_1_engine.section_idx info) as [[|g l]|]; eauto. }
  apply Qle_bool_iff in Es.
  assert (t < V8_1_engine.seg_end info)%Q as He.
  { apply Qnot_le_lt. intros Hle. apply Qle_bool_iff in Hle. congruence. }
  rewrite py_div_ok by (apply Qlt_not_eq0; lra). cbn [rbind].
  destruct (glyph_sections !! V8_1_engine.section_idx info) as [[|g l]|]; eauto.
  apply draw_glyphs_total.
Qed.

(** X23. The frame renderer of V8.1 never raises, and a segment that
    draws is paced by the pen, not by its duration: nothing of it shows
    before its window; from the end of its window on, or from the start
    when the segment does not draw, its section is filled; and a segment
    that draws has its whole section filled as soon as the pen, at [pps]
    pixels per second since the start of the window, has covered the
    summed length of the glyphs of the section. *)
Theorem V8_1_segment_is_paced_by_the_pen
        (pps : Q) (glyph_sections : gmap Z (list glyph))
        (info : V8_1_engine.seg_info) (t : Q) :
  let units := default [] (glyph_sections !! V8_1_engine.section_idx info) in
  (exists ops, V8_1_engine.draw_segment pps glyph_sections t info = Ok ops)
  /\ ((t < V8_1_engine.seg_start info)%Q -> (t < V8_1_engine.seg_end info)%Q ->
      V8_1_engine.draw_segment pps glyph_sections t info = Ok [])
  /\ ((V8_1_engine.seg_end info <= t)%Q ->
      V8_1_engine.draw_segment pps glyph_sections t info = Ok (fill_glyphs units))
  /\ ((V8_1_engine.seg_start info <= t)%Q -> V8_1_engine.draw info = false ->
      V8_1_engine.draw_segment pps glyph_sections t info = Ok (fill_glyphs units))
  /\ ((V8_1_engine.seg_start info <= t)%Q -> V8_1_engine.draw info = true ->
      Forall (fun g => (0 <= g_total_len g)%Q) units ->
      (sum_Q g_total_len units <= (t - V8_1_engine.seg_start info) * pps)%Q ->
      V8_1_engine.draw_segment pps glyph_sections t info = Ok (fill_glyphs units)).
Proof.
  intros units.
  assert (forall t', (t' < V8_1_engine.seg_end info)%Q ->
                     Qle_bool (V8_1_engine.seg_end info) t' = false) as Hbefore.
  { intros t' Hlt. destruct (Qle_bool (V8_1_engine.seg_end info) t') eqn:E;
      [|reflexivity]. apply Qle_bool_iff in E. lra. }
  assert (match glyph_sections !! V8_1_engine.section_idx info with
          | Some (g :: l) => Ok (fill_glyphs (g :: l))
          | _ => Ok []
          end = Ok (fill_glyphs units)) as Hfull.
  { subst units. by destruct (glyph_sections !! V8_1_engine.section_idx info)
      as [[|g l]|]. }
  split; [apply V8_1_draw_segment_total|]. split; [|split; [|split]].
  - intros Hs He. unfold V8_1_engine.draw_segment. rewrite (Hbefore t He).
    destruct (Qle_bool (V8_1_engine.seg_start info) t) eqn:E; [|reflexivity].
    apply Qle_bool_iff in E. lra.
  - intros He. unfold V8_1_engine.draw_segment.
    apply Qle_bool_iff in He. rewrite He. cbn [rbind]. rewrite <- Hfull.
    by destruct (glyph_sections !! V8_1_engine.section_idx info) as [[|g l]|].
  - intros Hs Hd. unfold V8_1_engine.draw_segment. rewrite <- Hfull.
    destruct (Qle_bool (V8_1_engine.seg_end info) t); cbn [rbind];
      [by destruct (glyph_sections !! V8_1_engine.section_idx info) as [[|g l]|]|].
    apply Qle_bool_iff in Hs. rewrite Hs, Hd. cbn [rbind].
    by destruct (glyph_sections !! V8_1_engine.section_idx info) as [[|g l]|].
  - intros Hs Hd Hnn Hsum. unfold V8_1_engine.draw_segment. rewrite <- Hfull.
    destruct (Qle_bool (V8_1_engine.seg_end info) t) eqn:Ee; cbn [rbind];
      [by destruct (glyph_sections !! V8_1_engine.section_idx info) as [[|g l]|]|].
    assert (t < V8_1_engine.seg_end info)%Q as He.
    { apply Qnot_le_lt. intros Hle. apply Qle_bool_iff in Hle. congruence. }
    pose proof Hs as Hs'. apply Qle_bool_iff in Hs'. rewrite Hs', Hd.
    rewrite py_div_ok by (apply Qlt_not_eq0; lra). cbn [rbind].
    subst units.
    destruct (glyph_sections !! V8_1_engine.section_idx info) as [[|g l]|];
      [reflexivity | | reflexivity].
    cbn [default] in Hnn, Hsum.
    apply draw_glyphs_all; [exact Hnn|]. rewrite Qplus_0_l.
    pose proof (py_sum_Q_sum g_total_len (g :: l)) as Hpy.
    pose proof (sum_Q_nonneg _ _ Hnn) as Hpos.
    set (e := ((t - V8_1_engine.seg_start info) * pps)%Q) in *.
    destruct (Qeq_bool (py_sum_Q g_total_len (g :: l)) 0) eqn:E0.
    + apply Qeq_bool_iff in E0. unfold py_min.
      destruct (Qltb e 1) eqn:E1; [exact Hsum|]. lra.
    + unfold py_min. destruct (Qltb e (py_sum_Q g_total_len (g :: l))) eqn:E1;
        [exact Hsum|]. rewrite Hpy. apply Qle_refl.
Qed.

(** ** The clip and the windows of its segments *)

Lemma timing_loop_last (sorted_segments : list segment) :
  sorted_segments <> [] ->
  forall current_time seq_idx,
    exists windows last_window,
      timing_loop current_time seq_idx sorted_segments
      = windows ++ [last_window]
      /\ length sorted_segments = S (length windows)
      /\ section_idx last_window = seq_idx + Z.of_nat (length windows)
      /\ (seg_end last_window
          == current_time + total_duration sorted_segments)%Q.
Proof.
  induction sorted_segments as [|seg rest IH]; intros Hne c idx; [done|].
  destruct rest as [|seg' rest'].
  - exists [], (SegInfo idx c (c + default 3%Q (seg_duration seg))%Q).
    cbn [timing_loop app length]. split; [reflexivity|]. split; [reflexivity|].
    split; [cbn; lia|]. unfold total_duration, duration_of. cbn. ring.
  - destruct (IH ltac:(done) (c + default 3%Q (seg_duration seg))%Q (idx + 1))
      as (ws & lw & E & Hl & Hx & He).
    exists (SegInfo idx c (c + default 3%Q (seg_duration seg))%Q :: ws), lw.
    split; [|split; [|split]].
    + change (timing_loop c idx (seg :: seg' :: rest'))
        with (SegInfo idx c (c + default 3%Q (seg_duration seg))%Q
                :: timing_loop (c + default 3%Q (seg_duration seg))%Q (idx + 1)
                               (seg' :: rest')).
      rewrite E. reflexivity.
    + cbn [length] in *. lia.
    + rewrite Hx. cbn [length]. lia.
    + rewrite He. unfold total_duration, duration_of.
      cbn [sum_Q foldr]. ring.
Qed.

Lemma paused_snoc (pause : Q) (audio_clips : list Q) (segments : list segment)
      (duration : Q) (seg : segment) :
  paused pause audio_clips segments ->
  seg_duration seg = Some (duration + pause)%Q ->
  paused pause (audio_clips ++ [duration]) (segments ++ [seg]).
Proof.
  intros H Hs. apply Forall2_app; [exact H|]. by repeat constructor.
Qed.

Lemma paused_total (pause : Q) (audio_clips : list Q) (segments : list segment) :
  paused pause audio_clips segments ->
  length segments = length audio_clips
  /\ (total_duration segments
      == sum_Q (fun duration => duration) audio_clips
         + pause * inject_Z (Z.of_nat (length segments)))%Q.
Proof.
  induction 1 as [|d seg ds segs Hd _ [IHl IH]].
  - split; [reflexivity|]. unfold total_duration. cbn. ring.
  - split; [cbn [length]; lia|].
    unfold total_duration in *. cbn [sum_Q foldr length].
    fold (sum_Q duration_of segs). fold (sum_Q (fun duration : Q => duration) ds).
    rewrite IH. unfold duration_of at 1. rewrite Hd. cbn [default from_option id].
    rewrite Nat2Z.inj_succ, <- Z.add_1_r, inject_Z_plus. ring.
Qed.

Lemma V8_parts_loop_paused (parts : list TopicVideoV8.part) :
  forall p_idx audio_clips segments,
    paused (3 # 10) audio_clips segments ->
    paused (3 # 10)
           (fst (TopicVideoV8.parts_loop p_idx parts audio_clips segments))
           (snd (TopicVideoV8.parts_loop p_idx parts audio_clips segments)).
Proof.
  induction parts as [|part rest IH]; intros p_idx acs segs Hp; [exact Hp|].
  cbn [TopicVideoV8.parts_loop].
  destruct (String.eqb _ ""); [by apply IH|].
  destruct (TopicVideoV8.ac_duration part) as [d|]; [|by apply IH].
  apply IH. by apply paused_snoc.
Qed.


Lemma V8_beat_timing_total (parts : list TopicVideoV8.part)
      (segments : list segment) (duration : Q) :
  TopicVideoV8.beat_timing parts = Some (segments, duration) ->
  segments <> []
  /\ (total_duration segments
      == duration - 1
         + (3 # 10) * inject_Z (Z.of_nat (length segments)))%Q.
Proof.
  unfold TopicVideoV8.beat_timing. intros Hb.
  pose proof (V8_parts_loop_paused parts 0 [] [] ltac:(constructor)) as Hp.
  destruct (TopicVideoV8.parts_loop 0 parts [] []) as [acs segs].
  cbn [fst snd] in Hp. destruct acs as [|d acs0] eqn:Ea; [discriminate|].
  rewrite <- Ea in *. injection Hb as <- <-.
  destruct (paused_total _ _ _ Hp) as [Hl Ht]. split.
  - intros ->. rewrite Ea in Hl. discriminate.
  - rewrite Ht. unfold TopicVideoV8.concatenate_audioclips.
    rewrite py_sum_Q_sum. ring.
Qed.


(** X24. The caller of V8 gives every narrated part a window of its audio
    and 0.3 s, and the clip the length of the audio and 1 s. So the last
    window of a beat of [n] parts ends [0.3 * n - 1] seconds after the end
    of the clip: with up to three parts the drawing is over a tenth of a
    second or more before the clip ends, with four parts or more no time
    of the clip reaches the end of the last window. *)
Theorem end_hold_covers_three_pauses
        (parts : list TopicVideoV8.part) (segments : list segment)
        (duration : Q) :
  TopicVideoV8.beat_timing parts = Some (segments, duration) ->
  let n := Z.of_nat (length segments) in
  exists windows last_window,
    segment_times_of segments = windows ++ [last_window]
    /\ length segments = S (length windows)
    /\ section_idx last_window = n - 1
    /\ (seg_end last_window
        == duration - 1 + (3 # 10) * inject_Z n)%Q
    /\ (n <= 3 -> (seg_end last_window <= duration - (1 # 10))%Q)
    /\ (4 <= n ->
        forall t, (t < duration)%Q -> (t < seg_end last_window)%Q).
Proof.
  intros Hb n. destruct (V8_beat_timing_total _ _ _ Hb) as [Hne Ht].
  pose proof (sorted_perm lt_position segments) as Hp.
  assert (sorted lt_position segments <> []) as Hne'.
  { intros E. rewrite E in Hp. apply Permutation_nil in Hp. done. }
  destruct (timing_loop_last _ Hne' 0%Q 0) as (ws & lw & E & Hl & Hx & He).
  assert (segment_times_of segments = ws ++ [lw]) as Ew.
  { destruct segments as [|seg rest]; [done|]. exact E. }
  assert (length segments = S (length ws)) as Hlen by (by rewrite <- Hp).
  assert (seg_end lw == duration - 1 + (3 # 10) * inject_Z n)%Q as Hend.
  { rewrite He. unfold total_duration in *.
    rewrite (sum_Q_perm _ _ _ Hp), Ht. subst n. ring. }
  exists ws, lw. split; [exact Ew|]. split; [exact Hlen|].
  split; [subst n; lia|]. split; [exact Hend|]. split.
  - intros Hn. rewrite Hend.
    assert (inject_Z n <= 3)%Q as Hq
        by (change 3%Q with (inject_Z 3); rewrite <- Zle_Qle; exact Hn).
    lra.
  - intros Hn t Hlt. rewrite Hend.
    assert (4 <= inject_Z n)%Q as Hq
        by (change 4%Q with (inject_Z 4); rewrite <- Zle_Qle; exact Hn).
    lra.
Qed.

(** An instance: four parts of two seconds each. *)
Lemma end_hold_covers_three_pauses_witness :
  let segments :=
    [Segment (Some 0) (Some (2 + (3 # 10))%Q) None;
     Segment (Some 1) (Some (2 + (3 # 10))%Q) None;
     Segment (Some 2) (Some (2 + (3 # 10))%Q) None;
     Segment (Some 3) (Some (2 + (3 # 10))%Q) None] in
  let duration := (0 + 2 + 2 + 2 + 2 + 1)%Q in
  let n := Z.of_nat (length segments) in
  exists windows last_window,
    segment_times_of segments = windows ++ [last_window]
    /\ length segments = S (length windows)
    /\ section_idx last_window = n - 1
    /\ (seg_end last_window
        == duration - 1 + (3 # 10) * inject_Z n)%Q
    /\ (n <= 3 -> (seg_end last_window <= duration - (1 # 10))%Q)
    /\ (4 <= n ->
        forall t, (t < duration)%Q -> (t < seg_end last_window)%Q).
Proof.
  apply (end_hold_covers_three_pauses four_parts). reflexivity.
Defined.

(** ** V6: the last glyph of a beat of three parts *)




Section V6Beat.
Context {image : Type} `{OpenCV image}.


End V6Beat.

